(** * update_yasb_palette: accent selection and configuration rewriting

    A shallow embedding of [src/update_yasb_palette.py].

    Conventions of the embedding:
    - a Python [str] value is a [text], a list of characters; a character is
      an [ascii], read as a code point in 0..255 (the Latin-1 range);
      dictionary keys (slot names) are [string]s;
    - a Python [int] is a [Z], a Python [float] is a primitive binary64
      [float], so that every floating-point operation of the source is the
      IEEE operation it is in CPython;
    - a raised exception is the [Raise] case of [result];
    - a dictionary is a [gmap]; [d.get(k)] is [d !! k];
    - the process environment and the two files are explicit arguments. *)

From Stdlib Require Import ZArith List Ascii String Bool Lia.
From Stdlib Require Import Floats Uint63 DecimalString.
From stdpp Require Import gmap strings list.

Set Warnings "-inexact-float".

Local Open Scope Z_scope.
Local Open Scope list_scope.

Abbreviation text := (list ascii).

(** A literal of the source as a [text]. *)
Definition str (s : string) : text := list_ascii_of_string s.

(** ** Exceptions *)

(** [PaletteError] is the script's own error class. [ValueError] is what
    [int(_, 16)] raises; [main] does not catch it. [TemplateEscape] marks a
    replacement template that contains a backslash: [re] would expand
    escapes in it, which this embedding does not describe. *)
Inductive exn : Type :=
  | PaletteError (msg : string)
  | ValueError
  | TemplateEscape.

Inductive result (A : Type) : Type :=
  | Ok (a : A)
  | Raise (e : exn).
Arguments Ok {A} a.
Arguments Raise {A} e.

Definition bind {A B : Type} (r : result A) (k : A -> result B) : result B :=
  match r with
  | Ok a => k a
  | Raise e => Raise e
  end.

Notation "'do' x <- r ; k" := (bind r (fun x => k))
  (at level 10, x name, r at level 100, k at level 200,
   format "'[v' 'do'  x  <-  r ; '/' k ']'").

Definition is_palette_error {A : Type} (r : result A) : Prop :=
  exists msg, r = Raise (PaletteError msg).

(** [for x in xs: ys.append(f(x))], stopping at the first exception. *)
Fixpoint map_result {A B : Type} (f : A -> result B) (xs : list A)
  : result (list B) :=
  match xs with
  | [] => Ok []
  | x :: xs' => do y <- f x; do ys <- map_result f xs'; Ok (y :: ys)
  end.

(** ** Characters *)

Definition code (c : ascii) : Z := Z.of_N (N_of_ascii c).

Definition in_range (lo hi : Z) (c : ascii) : bool :=
  (lo <=? code c) && (code c <=? hi).

(** [str.isspace] on one character, which is also the class [\s] of [re] on
    a [str] pattern: TAB..CR, FS..US, space, NEL and NBSP below 256. *)
Definition is_space (c : ascii) : bool :=
  in_range 9 13 c || in_range 28 31 c || (code c =? 32)
  || (code c =? 133) || (code c =? 160).

(** C-level [Py_ISSPACE], used by the integer parser. *)
Definition is_c_space (c : ascii) : bool :=
  in_range 9 13 c || (code c =? 32).

(** The class [[0-9a-fA-F]]. *)
Definition is_hex_digit (c : ascii) : bool :=
  in_range 48 57 c || in_range 97 102 c || in_range 65 70 c.

(** The class [[0-9]]. *)
Definition is_digit (c : ascii) : bool := in_range 48 57 c.

(** [_PyLong_DigitValue], cut at base 16. *)
Definition digit_value (c : ascii) : option Z :=
  if in_range 48 57 c then Some (code c - 48)
  else if in_range 97 102 c then Some (code c - 87)
  else if in_range 65 70 c then Some (code c - 55)
  else None.

(** [str.lower] on one character of the Latin-1 range. *)
Definition lower_char (c : ascii) : ascii :=
  if in_range 65 90 c || (in_range 192 222 c && negb (code c =? 215))
  then ascii_of_N (N_of_ascii c + 32)
  else c.

Definition lower (s : text) : text := map lower_char s.

(** ** [str.lstrip] with a one-character set *)

Fixpoint lstrip (ch : ascii) (s : text) : text :=
  match s with
  | c :: s' => if Ascii.eqb c ch then lstrip ch s' else s
  | [] => []
  end.

(** ** [int(s, 16)] *)

(** [_PyUnicode_TransformDecimalAndSpaceToASCII]: characters below 127 are
    kept, other white space becomes a space, and (there being no decimal
    digit between 127 and 255) anything else becomes ['?'], which the parser
    rejects. *)
Definition to_ascii_space (c : ascii) : ascii :=
  if code c <? 127 then c
  else if is_space c then " "%char
  else "?"%char.

Fixpoint skip_c_space (s : text) : text :=
  match s with
  | c :: s' => if is_c_space c then skip_c_space s' else s
  | [] => []
  end.

(** The digit scan of [long_from_string_base]: digits below 16 and single
    underscores between them. Returns the value, the number of digits and
    the unread rest; [None] on a doubled or trailing underscore. *)
Fixpoint scan_digits (prev_us : bool) (acc : Z) (digits : nat) (s : text)
  : option (Z * nat * text) :=
  match s with
  | c :: s' =>
      if Ascii.eqb c "_" then
        if prev_us then None else scan_digits true acc digits s'
      else
        match digit_value c with
        | Some d => scan_digits false (16 * acc + d) (S digits) s'
        | None => if prev_us then None else Some (acc, digits, s)
        end
  | [] => if prev_us then None else Some (acc, digits, [])
  end.

Definition strip_sign (s : text) : Z * text :=
  match s with
  | c :: s' =>
      if Ascii.eqb c "+" then (1, s')
      else if Ascii.eqb c "-" then (-1, s')
      else (1, s)
  | [] => (1, s)
  end.

Definition strip_0x (s : text) : text :=
  match s with
  | c0 :: c1 :: s' =>
      if Ascii.eqb c0 "0" && (Ascii.eqb c1 "x" || Ascii.eqb c1 "X") then
        match s' with
        | c2 :: s'' => if Ascii.eqb c2 "_" then s'' else s'
        | [] => s'
        end
      else s
  | _ => s
  end.

Definition starts_with_underscore (s : text) : bool :=
  match s with
  | c :: _ => Ascii.eqb c "_"
  | [] => false
  end.

(** [PyLong_FromString] at base 16: white space, a sign, an optional [0x],
    the digits, white space, end of string. *)
Definition parse_int16 (s : text) : option Z :=
  let s := skip_c_space (map to_ascii_space s) in
  let '(sign, s) := strip_sign s in
  let s := strip_0x s in
  if starts_with_underscore s then None
  else
    match scan_digits false 0 0%nat s with
    | Some (v, digits, rest) =>
        match digits, skip_c_space rest with
        | S _, [] => Some (sign * v)
        | _, _ => None
        end
    | None => None
    end.

Definition int16 (s : text) : result Z :=
  match parse_int16 s with
  | Some v => Ok v
  | None => Raise ValueError
  end.

(** ** [hex_to_rgb] *)

(** The slice [s[i : i + 2]]. *)
Definition slice2 (i : nat) (s : text) : text := firstn 2 (skipn i s).

Definition hex_to_rgb (hex_color : text) : result (Z * Z * Z) :=
  let cleaned := lstrip "#" hex_color in
  if negb (Nat.eqb (length cleaned) 6) then
    Raise (PaletteError
             ("Unexpected color format: " ++ string_of_list_ascii hex_color))
  else
    do r <- int16 (slice2 0 cleaned);
    do g <- int16 (slice2 2 cleaned);
    do b <- int16 (slice2 4 cleaned);
    Ok (r, g, b).

(** ** Module constants *)

Definition ACCENT_PRIORITY : list string :=
  ["color4"; "color5"; "color2"; "color6"; "color3"; "color1"; "color7"]%string.

Definition LUMINANCE_TARGET : float := 0.45%float.
Definition LUMINANCE_TOLERANCE : float := 0.25%float.
Definition MIN_CONTRAST : float := 0.25%float.

(** ** Floating point *)

(** The conversion [int -> float] that [channel / 255.0] performs; exact
    below 2^53 in absolute value, which covers every channel [hex_to_rgb]
    can return (-15..255). *)
Definition int_to_float (z : Z) : float :=
  if z <? 0 then (- of_uint63 (Uint63.of_Z (- z)))%float
  else of_uint63 (Uint63.of_Z z).

(** The built-ins [max(a, b)] and [min(a, b)]: the first argument is kept
    unless the second is strictly beyond it. *)
Definition py_max (a b : float) : float := if (a <? b)%float then b else a.
Definition py_min (a b : float) : float := if (b <? a)%float then b else a.

Definition relative_luminance (rgb : Z * Z * Z) : float :=
  let '(r0, g0, b0) := rgb in
  let r := (int_to_float r0 / 255.0)%float in
  let g := (int_to_float g0 / 255.0)%float in
  let b := (int_to_float b0 / 255.0)%float in
  (0.2126 * r + 0.7152 * g + 0.0722 * b)%float.

(** The built-in [min(xs, key=...)] after its first element: a later
    element replaces the best one only when its key is strictly smaller. *)
Fixpoint min_from {A : Type} (key : A -> float) (best : A) (xs : list A) : A :=
  match xs with
  | [] => best
  | x :: xs' =>
      if (key x <? key best)%float then min_from key x xs'
      else min_from key best xs'
  end.

(** ** [choose_accent] *)

(** Truthiness of a [str]: it is not empty. *)
Definition truthy (s : text) : bool :=
  match s with
  | [] => false
  | _ :: _ => true
  end.

Definition truthy_key (s : string) : bool :=
  match s with
  | EmptyString => false
  | String _ _ => true
  end.

(** [d.get(k)] followed by [if value:]. *)
Definition get_truthy (d : gmap string text) (k : string) : option text :=
  match d !! k with
  | Some v => if truthy v then Some v else None
  | None => None
  end.

(** An accent candidate: hex colour, luminance, contrast to background. *)
Definition candidate : Type := text * float * float.

Definition cand_hex (c : candidate) : text := fst (fst c).
Definition cand_lum (c : candidate) : float := snd (fst c).
Definition cand_contrast (c : candidate) : float := snd c.

(** The generator [candidate_colors], run to its end. *)
Definition candidate_colors (colors special : gmap string text) : list text :=
  omap (get_truthy colors) ACCENT_PRIORITY
  ++ match get_truthy special "foreground" with
     | Some foreground => [foreground]
     | None => []
     end.

(** The body of the loop that fills [ranked]. *)
Definition rank (background_lum : float) (hex_color : text) : result candidate :=
  do rgb <- hex_to_rgb hex_color;
  let lum := relative_luminance rgb in
  let contrast := abs (lum - background_lum)%float in
  Ok (hex_color, lum, contrast).

Definition target_low : float :=
  py_max 0.0%float (LUMINANCE_TARGET - LUMINANCE_TOLERANCE)%float.
Definition target_high : float :=
  py_min 1.0%float (LUMINANCE_TARGET + LUMINANCE_TOLERANCE)%float.

(** The test of the primary loop:
    [target_low <= lum <= target_high and contrast >= MIN_CONTRAST]. *)
Definition primary (c : candidate) : bool :=
  (target_low <=? cand_lum c)%float && (cand_lum c <=? target_high)%float
  && (MIN_CONTRAST <=? cand_contrast c)%float.

(** The key of the fallback: [abs(item[1] - LUMINANCE_TARGET)]. *)
Definition closeness (c : candidate) : float :=
  abs (cand_lum c - LUMINANCE_TARGET)%float.

(** The override of the first lines: the slot named by the environment
    variable, when the variable and the slot's value are both non-empty. *)
Definition env_candidate (env_slot : option string) (colors : gmap string text)
  : option text :=
  match env_slot with
  | Some slot => if truthy_key slot then get_truthy colors slot else None
  | None => None
  end.

(** [env_slot] is [os.environ.get("YASB_ACCENT_SLOT")]. *)
Definition choose_accent (env_slot : option string)
    (colors special : gmap string text) (background_rgb : Z * Z * Z)
  : result text :=
  match env_candidate env_slot colors with
  | Some candidate => Ok candidate
  | None =>
      let background_lum := relative_luminance background_rgb in
      do ranked <- map_result (rank background_lum)
                     (candidate_colors colors special);
      match ranked with
      | [] => Raise (PaletteError
                       "Palette did not contain any usable accent colors.")
      | first :: others =>
          match find primary ranked with
          | Some c => Ok (cand_hex c)
          | None => Ok (cand_hex (min_from closeness first others))
          end
      end
  end.

(** ** The fragment of [re] the script uses *)

(** Every pattern of the script is a sequence of atoms, an atom being one
    character class under a greedy quantifier [{min,max}]. [re] matches such
    a sequence by backtracking: each atom first takes the longest run it
    can and gives characters back one at a time while the rest fails. *)
Record atom : Type := Atom {
  a_class : ascii -> bool;
  a_min : nat;
  a_max : option nat
}.

Definition lit (c : ascii) : atom := Atom (Ascii.eqb c) 1 (Some 1%nat).
Definition star (cls : ascii -> bool) : atom := Atom cls 0 None.
Definition plus (cls : ascii -> bool) : atom := Atom cls 1 None.
Definition rep (n : nat) (cls : ascii -> bool) : atom := Atom cls n (Some n).
Definition lits (s : string) : list atom := map lit (str s).

(** Length of the longest run of [cls] at the head of [s], up to [limit]. *)
Fixpoint run_length (cls : ascii -> bool) (limit : option nat) (s : text) : nat :=
  match s with
  | c :: s' =>
      if cls c then
        match limit with
        | Some O => O
        | Some (S l) => S (run_length cls (Some l) s')
        | None => S (run_length cls None s')
        end
      else O
  | [] => O
  end.

(** Try the continuation after [k], [k - 1], ..., [lo] characters. *)
Fixpoint backtrack (cont : text -> option text) (lo k : nat) (s : text)
  : option text :=
  if (k <? lo)%nat then None
  else
    match cont (skipn k s) with
    | Some rest => Some rest
    | None =>
        match k with
        | O => None
        | S k' => backtrack cont lo k' s
        end
    end.

(** Match the pattern at the head of [s]; the result is the unread rest. *)
Fixpoint match_here (p : list atom) (s : text) : option text :=
  match p with
  | [] => Some s
  | a :: p' =>
      backtrack (match_here p') (a_min a)
        (run_length (a_class a) (a_max a) s) s
  end.

(** The leftmost match: the text before it and the text after it. *)
Fixpoint search (p : list atom) (s : text) : option (text * text) :=
  match match_here p s with
  | Some rest => Some ([], rest)
  | None =>
      match s with
      | [] => None
      | c :: s' =>
          match search p s' with
          | Some (before, after) => Some (c :: before, after)
          | None => None
          end
      end
  end.

(** The scan of [re.subn] without a count: [skip] characters of a match
    already replaced are dropped, then the next match is looked for. No
    pattern of the script matches the empty string; an empty match would
    insert the replacement and keep the character. *)
Fixpoint sub_all (p : list atom) (repl : text) (skip : nat) (s : text)
  : text * nat :=
  match s with
  | [] => ([], O)
  | c :: s' =>
      match skip with
      | S k => sub_all p repl k s'
      | O =>
          match match_here p s with
          | Some rest =>
              match (length s - length rest)%nat with
              | O => let '(out, n) := sub_all p repl O s' in
                     (repl ++ c :: out, S n)
              | S k => let '(out, n) := sub_all p repl k s' in
                       (repl ++ out, S n)
              end
          | None => let '(out, n) := sub_all p repl O s' in (c :: out, n)
          end
      end
  end.

Definition has_backslash (s : text) : bool := existsb (Ascii.eqb "\") s.

(** [re.subn(pattern, repl, s)]: the new text and the number of
    substitutions. A template with a backslash is outside the embedding. *)
Definition re_subn (p : list atom) (repl s : text) : result (text * nat) :=
  if has_backslash repl then Raise TemplateEscape
  else Ok (sub_all p repl O s).

(** [re.subn(pattern, repl, s, count=1)]. *)
Definition re_subn1 (p : list atom) (repl s : text) : result (text * nat) :=
  if has_backslash repl then Raise TemplateEscape
  else
    match search p s with
    | Some (before, after) => Ok (before ++ repl ++ after, 1%nat)
    | None => Ok (s, O)
    end.

(** A pattern with its source text, which the error message quotes. *)
Record pattern : Type := Pattern {
  pat_src : string;
  pat_atoms : list atom
}.

(** [--accent:\s*#[0-9a-fA-F]{6};] *)
Definition P_ACCENT : pattern :=
  Pattern "--accent:\s*#[0-9a-fA-F]{6};"
    (lits "--accent:" ++ [star is_space] ++ lits "#"
     ++ [rep 6 is_hex_digit] ++ lits ";").

(** The class [[0-9\s,]]. *)
Definition is_rgb_char (c : ascii) : bool :=
  is_digit c || is_space c || Ascii.eqb c ",".

(** [--accent-rgb:\s*[0-9\s,]+;] *)
Definition P_ACCENT_RGB : pattern :=
  Pattern "--accent-rgb:\s*[0-9\s,]+;"
    (lits "--accent-rgb:" ++ [star is_space; plus is_rgb_char] ++ lits ";").

(** The class [[^;]]. *)
Definition not_semicolon (c : ascii) : bool := negb (Ascii.eqb c ";").

(** [--yasb-background:\s*rgba\([^;]+;] *)
Definition P_BACKGROUND : pattern :=
  Pattern "--yasb-background:\s*rgba\([^;]+;"
    (lits "--yasb-background:" ++ [star is_space] ++ lits "rgba("
     ++ [plus not_semicolon] ++ lits ";").

(** ['color': '#[0-9a-fA-F]{6}'] *)
Definition P_COLOR : list atom :=
  lits "'color': '#" ++ [rep 6 is_hex_digit] ++ lits "'".

(** ** The two files *)

(** The content of [styles.css] and [config.yaml], as [read_text] returns
    it and [write_text] receives it; both files exist ([ensure_paths]). *)
Record files : Type := Files {
  css_file : text;
  config_file : text
}.

(** [str(n)] for an [int], as an f-string field prints it. *)
Definition dec (z : Z) : text :=
  list_ascii_of_string (NilZero.string_of_int (Z.to_int z)).

(** The dictionary [replacements], in insertion order. *)
Definition replacements (accent_hex : text) (accent_rgb background_rgb : Z * Z * Z)
  : list (pattern * text) :=
  let '(ar, ag, ab) := accent_rgb in
  let '(br, bg, bb) := background_rgb in
  [ (P_ACCENT, str "--accent: " ++ accent_hex ++ str ";");
    (P_ACCENT_RGB,
     str "--accent-rgb: " ++ dec ar ++ str ", " ++ dec ag ++ str ", "
     ++ dec ab ++ str ";");
    (P_BACKGROUND,
     str "--yasb-background: rgba(" ++ dec br ++ str ", " ++ dec bg
     ++ str ", " ++ dec bb ++ str ", 0.72);") ].

(** The loop over [replacements.items()]. *)
Fixpoint apply_replacements (rules : list (pattern * text)) (css : text)
  : result text :=
  match rules with
  | [] => Ok css
  | (pat, replacement) :: rules' =>
      do r <- re_subn1 (pat_atoms pat) replacement css;
      if negb (Nat.eqb (snd r) 1) then
        Raise (PaletteError
                 ("Failed to apply CSS replacement for pattern: " ++ pat_src pat))
      else apply_replacements rules' (fst r)
  end.

(** The new stylesheet text, before it is written. *)
Definition new_css (accent_hex : text) (background_rgb : Z * Z * Z) (css : text)
  : result text :=
  do accent_rgb <- hex_to_rgb accent_hex;
  apply_replacements (replacements accent_hex accent_rgb background_rgb) css.

(** [update_css]: the files afterwards and the result of the call. The
    file is written only when every substitution has been made. *)
Definition update_css (accent_hex : text) (background_rgb : Z * Z * Z)
    (fs : files) : files * result unit :=
  match new_css accent_hex background_rgb (css_file fs) with
  | Ok css => (Files css (config_file fs), Ok tt)
  | Raise e => (fs, Raise e)
  end.

(** [update_config]: on success the result is [count], the number the
    closing [debug] line reports. *)
Definition update_config (accent_hex : text) (fs : files) : files * result nat :=
  match re_subn P_COLOR (str "'color': '" ++ accent_hex ++ str "'")
          (config_file fs) with
  | Ok (yaml_text, count) =>
      if Nat.eqb count 0 then
        (fs, Raise (PaletteError
                      "No color entries updated in config.yaml; expected at least one."))
      else (Files (css_file fs) yaml_text, Ok count)
  | Raise e => (fs, Raise e)
  end.

(** ** [main] *)

(** How the process ends: [main] returns an exit code, or an exception
    other than [PaletteError] leaves it. *)
Inductive outcome : Type :=
  | Exit (status : Z)
  | Uncaught (e : exn).

(** The [try] block from the palette on. *)
Definition refresh (env_slot : option string)
    (palette : gmap string (gmap string text)) (fs : files)
  : files * result unit :=
  let colors := default ∅ (palette !! "colors"%string) in
  let special := default ∅ (palette !! "special"%string) in
  if decide (colors = ∅) then
    (fs, Raise (PaletteError "Palette colors collection empty."))
  else
    match get_truthy special "background" with
    | None =>
        (fs, Raise (PaletteError
                      "Could not determine background color from wal palette."))
    | Some background_hex =>
        match hex_to_rgb background_hex with
        | Raise e => (fs, Raise e)
        | Ok background_rgb =>
            match choose_accent env_slot colors special background_rgb with
            | Raise e => (fs, Raise e)
            | Ok accent_hex =>
                match update_css (lower accent_hex) background_rgb fs with
                | (fs1, Raise e) => (fs1, Raise e)
                | (fs1, Ok _) =>
                    match update_config (lower accent_hex) fs1 with
                    | (fs2, Raise e) => (fs2, Raise e)
                    | (fs2, Ok _) => (fs2, Ok tt)
                    end
                end
            end
        end
    end.

(** The handler of the [try] block: [PaletteError] is reported and gives
    status 1; any other exception is not caught. *)
Definition exit_of (r : result unit) : outcome :=
  match r with
  | Ok _ => Exit 0
  | Raise (PaletteError _) => Exit 1
  | Raise e => Uncaught e
  end.

(** [generated] is the result of the first three steps, [ensure_paths],
    [get_wallpaper_path] and [generate_palette], which read the platform
    and run [wal] but write neither file. *)
Definition main (env_slot : option string)
    (generated : result (gmap string (gmap string text))) (fs : files)
  : files * outcome :=
  let '(fs', r) :=
    match generated with
    | Ok palette => refresh env_slot palette fs
    | Raise e => (fs, Raise e)
    end in
  (fs', exit_of r).

(** ** The inverse of [hex_to_rgb] *)

Definition hex_char (d : Z) : ascii :=
  if d <? 10 then ascii_of_N (Z.to_N (48 + d)) else ascii_of_N (Z.to_N (87 + d)).

(** Two lower-case hexadecimal digits of a channel. *)
Definition hex2 (v : Z) : text := [hex_char (v / 16); hex_char (v mod 16)].

(** Modelled from the spec: the inverse of [hex_to_rgb], which the script
    does not define. The spec names it only as the function that formats an
    RGB triple back as a hex colour string; it is taken here as ['#'] and
    two lower-case hexadecimal digits per channel, the form in which
    [main] hands every colour on ([accent_hex.lower()]). *)
Definition rgb_to_hex (rgb : Z * Z * Z) : text :=
  let '(r, g, b) := rgb in
  "#"%char :: hex2 r ++ hex2 g ++ hex2 b.

(** A colour string of the palette: ['#'] and six hexadecimal digits. *)
Definition is_hex_color (s : text) : bool :=
  match s with
  | c :: digits =>
      Ascii.eqb c "#" && Nat.eqb (length digits) 6 && forallb is_hex_digit digits
  | [] => false
  end.

(** ** What a substitution is, said without the matcher *)

Definition within (limit : option nat) (n : nat) : Prop :=
  match limit with
  | Some k => (n <= k)%nat
  | None => True
  end.

(** The language of a pattern: one run per atom, of a length its
    quantifier allows. *)
Inductive accepts : list atom -> text -> Prop :=
  | accepts_nil : accepts [] []
  | accepts_cons (a : atom) (p : list atom) (run m : text) :
      forallb (a_class a) run = true ->
      (a_min a <= length run)%nat ->
      within (a_max a) (length run) ->
      accepts p m ->
      accepts (a :: p) (run ++ m).

(** No occurrence of the pattern starts in [s] before position [n]. *)
Definition none_before (p : list atom) (s : text) (n : nat) : Prop :=
  forall before m after,
    s = before ++ m ++ after -> accepts p m -> (n <= length before)%nat.

(** The pattern occurs nowhere in [s]. *)
Definition no_occurrence (p : list atom) (s : text) : Prop :=
  forall before m after, s = before ++ m ++ after -> ~ accepts p m.

(** The pattern has an occurrence in [s]. *)
Definition occurs (p : list atom) (s : text) : Prop :=
  exists before m after, s = before ++ m ++ after /\ accepts p m.

(** [s'] is [s] with its leftmost occurrence [m] of the pattern replaced by
    [repl], everything else kept. *)
Definition first_replaced (p : list atom) (repl s s' : text) : Prop :=
  exists before m after,
    s = before ++ m ++ after
    /\ s' = before ++ repl ++ after
    /\ accepts p m
    /\ match_here p (m ++ after) = Some after
    /\ none_before p s (length before).

(** [out] is [s] with the occurrences of the pattern replaced by [repl]
    from left to right, each search resuming after the previous match;
    [n] counts them. *)
Inductive all_replaced (p : list atom) (repl : text)
  : text -> text -> nat -> Prop :=
  | all_replaced_none (s : text) :
      no_occurrence p s -> all_replaced p repl s s 0
  | all_replaced_next (s before m after out : text) (n : nat) :
      s = before ++ m ++ after ->
      accepts p m ->
      match_here p (m ++ after) = Some after ->
      none_before p s (length before) ->
      all_replaced p repl after out n ->
      all_replaced p repl s (before ++ repl ++ out) (S n).

(** ** Statements of the stylesheet *)

(** A text without [';']. *)
Definition semicolon_free (s : text) : bool := forallb not_semicolon s.

(** Every word of the pattern is a non-empty text without [';'] followed
    by one [';']: a match never reaches past the end of a declaration. *)
Definition statement_pattern (p : list atom) : Prop :=
  forall m, accepts p m ->
            exists body, m = body ++ [";"%char] /\ body <> []
                         /\ semicolon_free body = true.

(** Writing [rb] over the end of a declaration does not make a word of
    [q] begin earlier in it: a word that runs into [rb] is a word with
    any other non-empty end as well. *)
Definition stable_under (q : list atom) (rb : text) : Prop :=
  forall u y, u <> [] -> y <> [] -> semicolon_free y = true ->
              accepts q (u ++ rb ++ [";"%char]) ->
              accepts q (u ++ y ++ [";"%char]).

(** No word of [q] begins inside [rb]. *)
Definition no_inner_word (q : list atom) (rb : text) : Prop :=
  forall v body, v <> [] -> rb = v ++ body -> ~ accepts q (body ++ [";"%char]).

(** A rule of [replacements] whose replacement is a word of its own
    pattern. *)
Definition rule_ok (rule : pattern * text) : Prop :=
  has_backslash (snd rule) = false
  /\ statement_pattern (pat_atoms (fst rule))
  /\ exists rb, snd rule = rb ++ [";"%char]
                /\ semicolon_free rb = true
                /\ accepts (pat_atoms (fst rule)) (snd rule)
                /\ stable_under (pat_atoms (fst rule)) rb
                /\ no_inner_word (pat_atoms (fst rule)) rb.

(** The replacement of [rule] is no word of the pattern [q] of another
    rule and does not help one. *)
Definition rule_compat (q : list atom) (rule : pattern * text) : Prop :=
  exists rb, snd rule = rb ++ [";"%char]
             /\ stable_under q rb /\ no_inner_word q rb
             /\ ~ accepts q (snd rule).

Definition good_rules (rules : list (pattern * text)) : Prop :=
  NoDup rules
  /\ forall x, x ∈ rules ->
               rule_ok x
               /\ forall y, y ∈ rules -> y <> x ->
                            rule_compat (pat_atoms (fst y)) x.

(** The leftmost matches of two different rules end at different places. *)
Definition distinct_firsts (rules : list (pattern * text)) (s : text) : Prop :=
  forall x y, x ∈ rules -> y ∈ rules -> x <> y ->
    forall bx ax by_ ay,
      search (pat_atoms (fst x)) s = Some (bx, ax) ->
      search (pat_atoms (fst y)) s = Some (by_, ay) ->
      length ax <> length ay.

(** Start and end of the leftmost match of a pattern. *)
Definition match_range (p : pattern) (s : text) : option (nat * nat) :=
  match search (pat_atoms p) s with
  | Some (before, after) => Some (length before, (length s - length after)%nat)
  | None => None
  end.

(** The leftmost match of the pattern in [s] is the text [w]. *)
Definition leftmost_is (p : pattern) (s w : text) : Prop :=
  exists before after,
    search (pat_atoms p) s = Some (before, after) /\ s = before ++ w ++ after.

(** Two matches that share no character. *)
Definition disjoint_ranges (r1 r2 : option (nat * nat)) : bool :=
  match r1, r2 with
  | Some (start1, end1), Some (start2, end2) =>
      (end1 <=? start2)%nat || (end2 <=? start1)%nat
  | _, _ => true
  end.

(** A text without a hyphen. *)
Definition dash_free (s : text) : bool :=
  forallb (fun c => negb (Ascii.eqb c "-")) s.

(** Every hyphen of the text is followed by a character that is not one:
    no two hyphens in a row, none at the end. *)
Fixpoint dash_ok (s : text) : bool :=
  match s with
  | [] => true
  | c :: s' =>
      (negb (Ascii.eqb c "-")
       || match s' with
          | c' :: _ => negb (Ascii.eqb c' "-")
          | [] => false
          end)
      && dash_ok s'
  end.

(** The three replacement texts of [update_css] without their final
    [';']. *)
Definition accent_text (accent_hex : text) : text :=
  str "--accent: " ++ accent_hex.

Definition accent_rgb_text (accent_rgb : Z * Z * Z) : text :=
  let '(ar, ag, ab) := accent_rgb in
  str "--accent-rgb: " ++ dec ar ++ str ", " ++ dec ag ++ str ", " ++ dec ab.

Definition background_text (background_rgb : Z * Z * Z) : text :=
  let '(br, bg, bb) := background_rgb in
  str "--yasb-background: rgba(" ++ dec br ++ str ", " ++ dec bg ++ str ", "
  ++ dec bb ++ str ", 0.72)".

(** [hex_to_rgb] accepts the string. *)
Definition parses (h : text) : bool :=
  match hex_to_rgb h with
  | Ok _ => true
  | Raise _ => false
  end.

(** ** What [hex_to_rgb] reads *)

(** The white space [int] skips around a number: what [Py_ISSPACE] takes
    and, of the characters from 127 on, NEL and NBSP. *)
Definition is_int_space (c : ascii) : bool :=
  is_c_space c || (code c =? 133) || (code c =? 160).

Definition is_sign (c : ascii) : bool := Ascii.eqb c "+" || Ascii.eqb c "-".

(** The value of a hexadecimal digit, 0 for any other character. *)
Definition hex_value (c : ascii) : Z :=
  match digit_value c with
  | Some d => d
  | None => 0
  end.

(** The strings of two characters of the Latin-1 range that are a number
    in base 16: two digits, or one digit with a sign or a blank before it
    or a blank after it. *)
Definition int_pair (c1 c2 : ascii) : bool :=
  (is_hex_digit c1 && is_hex_digit c2)
  || ((is_sign c1 || is_int_space c1) && is_hex_digit c2)
  || (is_hex_digit c1 && is_int_space c2).

(** The number such a string stands for. *)
Definition int_pair_value (c1 c2 : ascii) : Z :=
  if is_hex_digit c1 then
    if is_hex_digit c2 then 16 * hex_value c1 + hex_value c2 else hex_value c1
  else if Ascii.eqb c1 "-" then - hex_value c2
  else hex_value c2.

(** Every value of the dictionary is empty or a colour string, ['#'] and
    six hexadecimal digits. *)
Definition hex_values (d : gmap string text) : Prop :=
  forall k v, d !! k = Some v -> v = [] \/ is_hex_color v = true.

(** ** The sanitation of [colors.json] *)

(** When [json.loads] rejects the file, [_load_palette_json] makes two
    substitutions in its text and tries again. Both use groups, which are
    runs of atoms here, so the matcher is run once more with the runs kept. *)

(** The double quote. *)
Definition dq : ascii := "034"%char.

(** [backtrack] and [match_here] with the run of every atom recorded. *)
Fixpoint backtrack_runs (cont : text -> option (list text * text)) (lo k : nat)
    (s : text) : option (list text * text) :=
  if (k <? lo)%nat then None
  else
    match cont (skipn k s) with
    | Some (runs, rest) => Some (firstn k s :: runs, rest)
    | None =>
        match k with
        | O => None
        | S k' => backtrack_runs cont lo k' s
        end
    end.

Fixpoint match_runs (p : list atom) (s : text) : option (list text * text) :=
  match p with
  | [] => Some ([], s)
  | a :: p' =>
      backtrack_runs (match_runs p') (a_min a)
        (run_length (a_class a) (a_max a) s) s
  end.

(** The scan of [re.sub] with a replacement computed from the match: a
    template with group references, or a function of the match object. *)
Fixpoint sub_runs (p : list atom) (f : list text -> text) (skip : nat) (s : text)
  : text :=
  match s with
  | [] => []
  | c :: s' =>
      match skip with
      | S k => sub_runs p f k s'
      | O =>
          match match_runs p s with
          | Some (runs, rest) =>
              match (length s - length rest)%nat with
              | O => f runs ++ c :: sub_runs p f O s'
              | S k => f runs ++ sub_runs p f k s'
              end
          | None => c :: sub_runs p f O s'
          end
      end
  end.

(** The class [[}\]]]. *)
Definition is_closer (c : ascii) : bool := Ascii.eqb c "}" || Ascii.eqb c "]".

(** [,\s*([}\]])]: a comma, white space, and as group 1 a closing brace
    or bracket. *)
Definition P_TRAILING_COMMA : list atom :=
  [lit ","; star is_space; rep 1 is_closer].

(** The template [\1]: group 1 is the run of the third atom. *)
Definition group_closer (runs : list text) : text := nth 2 runs [].

(** The class of everything but the double quote. *)
Definition not_quote (c : ascii) : bool := negb (Ascii.eqb c dq).

(** The pattern of the wallpaper entry. Group 1 is the key in its quotes,
    white space, a colon, white space and the opening quote of the value:
    fifteen atoms. Group 2 is the value, one character or more without a
    double quote. Group 3 is the closing quote. *)
Definition P_WALLPAPER : list atom :=
  map lit (dq :: str "wallpaper" ++ [dq])
  ++ [star is_space; lit ":"; star is_space; lit dq]
  ++ [plus not_quote]
  ++ [lit dq].

(** [str.replace] of a backslash by two. *)
Definition double_backslashes (s : text) : text :=
  flat_map (fun c => if Ascii.eqb c "\" then ["\"; "\"]%char else [c]) s.

(** The function given to the second [re.sub]: the three groups
    again, the backslashes of the second doubled. *)
Definition escape_wallpaper (runs : list text) : text :=
  concat (firstn 15 runs) ++ double_backslashes (nth 15 runs [])
  ++ nth 16 runs [].

(** The text [_load_palette_json] retries with. *)
Definition sanitized (raw : text) : text :=
  sub_runs P_WALLPAPER escape_wallpaper 0
    (sub_runs P_TRAILING_COMMA group_closer 0 raw).

(** A run as its atom allows it. *)
Definition fits (a : atom) (run : text) : Prop :=
  forallb (a_class a) run = true /\ (a_min a <= length run)%nat
  /\ within (a_max a) (length run).

(** [out] is [s] with the matches of the pattern, found from left to
    right, rewritten by [f], which is given the runs of each match. *)
Inductive all_rewritten (p : list atom) (f : list text -> text)
  : text -> text -> Prop :=
  | rewritten_none (s : text) :
      no_occurrence p s -> all_rewritten p f s s
  | rewritten_next (s before after out : text) (runs : list text) :
      s = before ++ concat runs ++ after ->
      match_runs p (concat runs ++ after) = Some (runs, after) ->
      none_before p s (length before) ->
      all_rewritten p f after out ->
      all_rewritten p f s (before ++ f runs ++ out).

(** [raw] with the commas before a closing bracket taken out, from left to
    right: each comma goes with the white space after it. *)
Inductive commas_stripped : text -> text -> Prop :=
  | commas_none (s : text) :
      no_occurrence P_TRAILING_COMMA s -> commas_stripped s s
  | commas_next (s before ws after out : text) (c : ascii) :
      s = before ++ ","%char :: ws ++ c :: after ->
      forallb is_space ws = true -> is_closer c = true ->
      none_before P_TRAILING_COMMA s (length before) ->
      commas_stripped after out ->
      commas_stripped s (before ++ c :: out).

(** The key of a wallpaper entry up to the opening quote of its value. *)
Definition wallpaper_key (ws1 ws2 : text) : text :=
  dq :: str "wallpaper" ++ dq :: ws1 ++ ":"%char :: ws2 ++ [dq].

(** [s] with the backslashes doubled in the value of every wallpaper
    entry, from left to right. *)
Inductive wallpaper_escaped : text -> text -> Prop :=
  | wallpaper_none (s : text) :
      no_occurrence P_WALLPAPER s -> wallpaper_escaped s s
  | wallpaper_next (s before ws1 ws2 value after out : text) :
      s = before ++ wallpaper_key ws1 ws2 ++ value ++ dq :: after ->
      forallb is_space ws1 = true -> forallb is_space ws2 = true ->
      value <> [] -> forallb not_quote value = true ->
      none_before P_WALLPAPER s (length before) ->
      wallpaper_escaped after out ->
      wallpaper_escaped s
        (before ++ wallpaper_key ws1 ws2 ++ double_backslashes value ++ dq :: out).

(** [out] is [s] without some of its commas and white-space characters. *)
Inductive dropped : text -> text -> Prop :=
  | dropped_nil : dropped [] []
  | dropped_keep (c : ascii) (s out : text) :
      dropped s out -> dropped (c :: s) (c :: out)
  | dropped_drop (c : ascii) (s out : text) :
      Ascii.eqb c "," || is_space c = true ->
      dropped s out -> dropped (c :: s) out.

(** [out] is [s] with some of its backslashes written twice. *)
Inductive doubled : text -> text -> Prop :=
  | doubled_nil : doubled [] []
  | doubled_keep (c : ascii) (s out : text) :
      doubled s out -> doubled (c :: s) (c :: out)
  | doubled_twice (s out : text) :
      doubled s out -> doubled ("\"%char :: s) ("\"%char :: "\"%char :: out).

(** ** [_load_palette_json] *)

Section LoadPaletteJson.

(** The JSON documents, [json.loads] with [None] for a
    [JSONDecodeError], and [isinstance(_, dict)]. *)
Variable json : Type.
Variable loads : text -> option json.
Variable is_dict : json -> bool.

(** [file] is the text of [colors_path], [None] when there is no such
    file. *)
Definition _load_palette_json (colors_path : string) (file : option text)
  : result json :=
  match file with
  | None =>
      Raise (PaletteError
               ("pywal did not produce colors.json at " ++ colors_path ++ "."))
  | Some raw =>
      do palette <-
        match loads raw with
        | Some palette => Ok palette
        | None =>
            match loads (sanitized raw) with
            | Some palette => Ok palette
            | None =>
                Raise (PaletteError "pywal produced an invalid colors.json file.")
            end
        end;
      if is_dict palette then Ok palette
      else Raise (PaletteError "pywal returned an unexpected palette format.")
  end.

End LoadPaletteJson.

(** ** The luminance of every triple of bytes *)

(** The values of a channel of a colour string. *)
Definition channels : list Z := map Z.of_nat (seq 0 256).

(** One term of the sum in [relative_luminance]. *)
Definition weighted (w : float) (z : Z) : float :=
  (w * (int_to_float z / 255.0))%float.

(** A luminance between 0 and 1 whose distance to the target is a number. *)
Definition luminance_ok (lum : float) : bool :=
  (0 <=? lum)%float && (lum <=? 1)%float
  && (let d := abs (lum - LUMINANCE_TARGET)%float in (d =? d)%float).

(** The three terms of the sum, for every value of a channel. *)
Definition red_terms : list float := map (weighted 0.2126) channels.
Definition green_terms : list float := map (weighted 0.7152) channels.
Definition blue_terms : list float := map (weighted 0.0722) channels.
(** ** Sample inputs *)

(** The list the loop of [choose_accent] has filled, empty when it raised. *)
Definition ranked_of (r : result (list candidate)) : list candidate :=
  match r with
  | Ok ranked => ranked
  | Raise _ => []
  end.

(** A palette whose first priority slot is almost black and whose second
    one is the mid-tone of the spec's end-to-end example. *)
Definition ex_colors : gmap string text :=
  <[ "color4"%string := str "#010101" ]>
    (<[ "color5"%string := str "#3a6ea5" ]> ∅).
Definition ex_special : gmap string text :=
  <[ "background"%string := str "#121212" ]>
    (<[ "foreground"%string := str "#eeeeee" ]> ∅).
Definition ex_background : Z * Z * Z := (18, 18, 18).
Definition ex_ranked : list candidate :=
  Eval vm_compute in
    ranked_of (map_result (rank (relative_luminance ex_background))
                 (candidate_colors ex_colors ex_special)).

(** A palette that is dark throughout, on a black background. *)
Definition dark_colors : gmap string text :=
  <[ "color4"%string := str "#010101" ]>
    (<[ "color5"%string := str "#030303" ]>
       (<[ "color2"%string := str "#030303" ]> ∅)).
Definition dark_ranked : list candidate :=
  Eval vm_compute in
    ranked_of (map_result (rank (relative_luminance (0, 0, 0)))
                 (candidate_colors dark_colors ∅)).

(** A palette with a single slot, outside [ACCENT_PRIORITY]. *)
Definition color0_only : gmap string text :=
  <[ "color0"%string := str "#112233" ]> ∅.

(** A palette whose only colour has three digits. *)
Definition short_color : gmap string text :=
  <[ "color4"%string := str "#fff" ]> ∅.

(** The palette document [wal] writes for [ex_colors] and [ex_special]. *)
Definition ex_palette : gmap string (gmap string text) :=
  <[ "colors"%string := ex_colors ]> (<[ "special"%string := ex_special ]> ∅).

(** A stylesheet with the three declarations. *)
Definition ex_css : text :=
  str ":root { --accent: #aabbcc; --accent-rgb: 1, 2, 3; --yasb-background: rgba(1, 2, 3, 0.5); }".

(** A stylesheet that declares the accent twice. *)
Definition two_accents_css : text :=
  str "--accent: #aaaaaa; --accent: #bbbbbb; --accent-rgb: 1, 2, 3; --yasb-background: rgba(0, 0, 0, 0.5);".

(** A stylesheet whose background declaration swallows the accent. *)
Definition swallowing_css : text :=
  str "--accent-rgb: 1;--yasb-background: rgba(--accent: #aaaaaa;".

(** A stylesheet whose background declaration holds a second accent
    declaration. *)
Definition nested_accent_css : text :=
  str "--accent: #aaaaaa; --accent-rgb: 1; --yasb-background: rgba(--accent: #bbbbbb;".

(** A mid-tone in the first priority slot and a colour of three digits in
    the last one. *)
Definition mid_then_short : gmap string text :=
  <[ "color4"%string := str "#3a6ea5" ]>
    (<[ "color7"%string := str "#fff" ]> ∅).

(** An almost black first priority slot and a colour of three digits in the
    last one. *)
Definition dark_then_short : gmap string text :=
  <[ "color4"%string := str "#010101" ]>
    (<[ "color7"%string := str "#fff" ]> ∅).

(** * Properties *)

(** ** The order of binary64 values *)

(** The comparisons of [float] are those of [SpecFloat]; what the
    selection needs of them is transitivity, which holds with NaN too. *)
Section FloatOrder.

Local Open Scope float_scope.

Lemma SFcompare_refl_not_Lt x : SFcompare x x <> Some Lt.
Proof.
  destruct x as [ [] | [] | | [] m e ]; simpl; try congruence;
    rewrite Z.compare_refl; change (Pos.compare_cont Eq m m) with (Pos.compare m m);
    rewrite Pos.compare_refl; simpl; congruence.
Qed.

Ltac split_compares :=
  repeat match goal with
    | |- context [ Z.compare ?a ?b ] => destruct (Z.compare_spec a b)
    | |- context [ Pos.compare_cont Eq ?a ?b ] =>
        change (Pos.compare_cont Eq a b) with (Pos.compare a b);
        destruct (Pos.compare_spec a b)
    end.

Lemma SFcompare_Lt_trans x y z :
  SFcompare x y = Some Lt -> SFcompare y z = Some Lt -> SFcompare x z = Some Lt.
Proof.
  destruct x as [ [] | [] | | [] mx ex ], y as [ [] | [] | | [] my ey ],
    z as [ [] | [] | | [] mz ez ]; simpl; try congruence;
    split_compares; simpl; try congruence; lia.
Qed.

Lemma SFcompare_le_Lt_trans x y z c :
  SFcompare x y = Some c -> c <> Gt -> SFcompare y z = Some Lt ->
  SFcompare x z = Some Lt.
Proof.
  destruct x as [ [] | [] | | [] mx ex ], y as [ [] | [] | | [] my ey ],
    z as [ [] | [] | | [] mz ez ]; simpl; intros H1 Hc H2;
    try (injection H1 as <-); try congruence;
    revert Hc H2; split_compares; simpl; try congruence; lia.
Qed.

Lemma ltb_irrefl x : (x <? x) = false.
Proof.
  rewrite FloatAxioms.ltb_spec. unfold SFltb.
  pose proof (SFcompare_refl_not_Lt (Prim2SF x)) as H.
  destruct (SFcompare (Prim2SF x) (Prim2SF x)) as [ [] | ]; congruence.
Qed.

Lemma ltb_trans x y z : (x <? y) = true -> (y <? z) = true -> (x <? z) = true.
Proof.
  rewrite !FloatAxioms.ltb_spec. unfold SFltb.
  destruct (SFcompare (Prim2SF x) (Prim2SF y)) as [ [] | ] eqn:E1; try discriminate.
  destruct (SFcompare (Prim2SF y) (Prim2SF z)) as [ [] | ] eqn:E2; try discriminate.
  now rewrite (SFcompare_Lt_trans _ _ _ E1 E2).
Qed.

Lemma leb_ltb_trans x y z : (x <=? y) = true -> (y <? z) = true -> (x <? z) = true.
Proof.
  rewrite !FloatAxioms.ltb_spec, FloatAxioms.leb_spec. unfold SFltb, SFleb.
  destruct (SFcompare (Prim2SF x) (Prim2SF y)) as [ c | ] eqn:E1; try discriminate.
  destruct (SFcompare (Prim2SF y) (Prim2SF z)) as [ [] | ] eqn:E2; try discriminate.
  intros Hc _.
  rewrite (SFcompare_le_Lt_trans _ _ _ c E1); [ reflexivity | | exact E2 ].
  destruct c; congruence.
Qed.

End FloatOrder.

(** ** The stable minimum *)

Section MinFrom.

Context {A : Type} (key : A -> float).

(** [min_from] returns an element no element is strictly below, and no
    element before it is even as low: the first of the minimal ones. *)
Lemma min_from_acc (xs before mid : list A) (best : A) :
  (forall c, c ∈ before ++ best :: mid -> (key c <? key best)%float = false) ->
  (forall c, c ∈ before -> (key c <=? key best)%float = false) ->
  exists before' after',
    before ++ best :: mid ++ xs = before' ++ min_from key best xs :: after'
    /\ (forall c, c ∈ before ++ best :: mid ++ xs ->
                  (key c <? key (min_from key best xs))%float = false)
    /\ (forall c, c ∈ before' ->
                  (key c <=? key (min_from key best xs))%float = false).
Proof.
  revert before mid best.
  induction xs as [ | x xs IH ]; intros before mid best Hmin Hfirst; simpl.
  - exists before, mid. rewrite app_nil_r. auto.
  - destruct (key x <? key best)%float eqn:Hlt.
    + destruct (IH (before ++ best :: mid) [] x) as (b' & a' & Heq & H1 & H2).
      * intros c Hc.
        apply elem_of_app in Hc as [ Hc | Hc ].
        -- destruct (key c <? key x)%float eqn:Hcx; [ | reflexivity ].
           rewrite <- (Hmin c Hc). symmetry. eapply ltb_trans; eauto.
        -- apply list_elem_of_singleton in Hc as ->. apply ltb_irrefl.
      * intros c Hc.
        destruct (key c <=? key x)%float eqn:Hcx; [ | reflexivity ].
        rewrite <- (Hmin c Hc). symmetry. eapply leb_ltb_trans; eauto.
      * exists b', a'. simpl in *.
        rewrite <- !app_assoc in Heq, H1. simpl in *. auto.
    + destruct (IH before (mid ++ [x]) best) as (b' & a' & Heq & H1 & H2).
      * intros c Hc. rewrite app_comm_cons, app_assoc in Hc.
        apply elem_of_app in Hc as [ Hc | Hc ]; [ auto | ].
        apply list_elem_of_singleton in Hc as ->. exact Hlt.
      * exact Hfirst.
      * exists b', a'. rewrite <- !app_assoc in Heq, H1. simpl in *. auto.
Qed.

Lemma min_from_spec (first : A) (others : list A) :
  exists before after,
    first :: others = before ++ min_from key first others :: after
    /\ (forall c, c ∈ first :: others ->
                  (key c <? key (min_from key first others))%float = false)
    /\ (forall c, c ∈ before ->
                  (key c <=? key (min_from key first others))%float = false).
Proof.
  destruct (min_from_acc others [] [] first) as (b & a & Heq & H1 & H2).
  - intros c Hc. apply list_elem_of_singleton in Hc as ->. apply ltb_irrefl.
  - intros c Hc. inversion Hc.
  - exists b, a. auto.
Qed.

End MinFrom.

(** ** Accent selection *)

(** [find] returns the first element that passes the test. *)
Lemma find_split {A : Type} (f : A -> bool) (l : list A) :
  existsb f l = true ->
  exists before c after,
    l = before ++ c :: after /\ f c = true
    /\ (forall x, x ∈ before -> f x = false)
    /\ find f l = Some c.
Proof.
  induction l as [ | x l IH ]; simpl; [ discriminate | ].
  destruct (f x) eqn:Hx.
  - intros _. exists [], x, l. repeat split; auto. intros y Hy. inversion Hy.
  - simpl. intros H. destruct (IH H) as (b & c & a & -> & Hc & Hb & Hfind).
    exists (x :: b), c, a. repeat split; auto.
    intros y Hy. apply elem_of_cons in Hy as [ -> | Hy ]; auto.
Qed.

Lemma find_nowhere {A : Type} (f : A -> bool) (l : list A) :
  forallb (fun x => negb (f x)) l = true -> find f l = None.
Proof.
  induction l as [ | x l IH ]; simpl; [ reflexivity | ].
  intros H. apply andb_true_iff in H as [ Hx H ].
  apply negb_true_iff in Hx. rewrite Hx. auto.
Qed.

Lemma find_elem {A : Type} (f : A -> bool) (l : list A) (c : A) :
  find f l = Some c -> c ∈ l.
Proof.
  induction l as [ | x l IH ]; simpl; [ discriminate | ].
  destruct (f x).
  - intros [= ->]. left.
  - intros H. right. auto.
Qed.

Lemma rank_hex (background_lum : float) (h : text) (c : candidate) :
  rank background_lum h = Ok c -> cand_hex c = h.
Proof.
  unfold rank. destruct (hex_to_rgb h); simpl; [ | discriminate ].
  now intros [= <-].
Qed.

Lemma map_result_hex (background_lum : float) (hs : list text) :
  forall ranked, map_result (rank background_lum) hs = Ok ranked ->
                 map cand_hex ranked = hs.
Proof.
  induction hs as [ | h hs IH ]; simpl; intros ranked.
  - now intros [= <-].
  - destruct (rank background_lum h) as [ c | ] eqn:Hc; simpl; [ | discriminate ].
    destruct (map_result (rank background_lum) hs) as [ cs | ]; simpl;
      [ | discriminate ].
    intros [= <-]. simpl. rewrite (rank_hex _ _ _ Hc). f_equal. auto.
Qed.

(** What [choose_accent] does once the override has not returned and the
    loop has filled [ranked]. *)
Lemma choose_accent_ranked env_slot colors special background_rgb ranked :
  env_candidate env_slot colors = None ->
  map_result (rank (relative_luminance background_rgb))
    (candidate_colors colors special) = Ok ranked ->
  choose_accent env_slot colors special background_rgb =
    match ranked with
    | [] => Raise (PaletteError "Palette did not contain any usable accent colors.")
    | first :: others =>
        match find primary ranked with
        | Some c => Ok (cand_hex c)
        | None => Ok (cand_hex (min_from closeness first others))
        end
    end.
Proof.
  intros Henv Hranked. unfold choose_accent. rewrite Henv. cbv zeta.
  rewrite Hranked. reflexivity.
Qed.

(** The band of the primary rule is [0.2, 0.7]. *)
Lemma target_band : target_low = 0.2%float /\ target_high = 0.7%float.
Proof. split; reflexivity. Qed.

(** C1, as the code has it. With no override in effect and every colour of
    the enumeration one that [hex_to_rgb] accepts ([ranked] is the list the
    loop builds), whenever some entry has its luminance in the band around
    the target and a contrast of at least [MIN_CONTRAST], [choose_accent]
    returns the first such entry in the order of enumeration
    ([ACCENT_PRIORITY], then the special foreground), whatever the entries
    before it that fail the test. *)
Theorem choose_accent_primary env_slot colors special background_rgb
    (ranked : list candidate) :
  env_candidate env_slot colors = None ->
  map_result (rank (relative_luminance background_rgb))
    (candidate_colors colors special) = Ok ranked ->
  existsb primary ranked = true ->
  exists before c after,
    ranked = before ++ c :: after
    /\ primary c = true
    /\ (forall x, x ∈ before -> primary x = false)
    /\ choose_accent env_slot colors special background_rgb = Ok (cand_hex c)
    /\ candidate_colors colors special = map cand_hex ranked.
Proof.
  intros Henv Hranked Hsome.
  destruct (find_split primary ranked Hsome)
    as (before & c & after & Heq & Hc & Hbefore & Hfind).
  exists before, c, after. repeat split; auto.
  - rewrite (choose_accent_ranked _ _ _ _ _ Henv Hranked), Hfind.
    rewrite Heq. destruct before; reflexivity.
  - symmetry. eapply map_result_hex, Hranked.
Qed.

(** C2, as the code has it. With no override returning and every colour of
    the enumeration one that [hex_to_rgb] accepts ([ranked] is the list the
    loop builds), when the enumeration is not empty and no entry passes the
    primary test, [choose_accent] returns an entry such that no entry is
    strictly closer to the target luminance and no earlier entry is as
    close: the first of the closest ones. Contrast plays no part. *)
Theorem choose_accent_fallback env_slot colors special background_rgb
    (ranked : list candidate) :
  env_candidate env_slot colors = None ->
  map_result (rank (relative_luminance background_rgb))
    (candidate_colors colors special) = Ok ranked ->
  ranked <> [] ->
  forallb (fun x => negb (primary x)) ranked = true ->
  exists before best after,
    ranked = before ++ best :: after
    /\ choose_accent env_slot colors special background_rgb = Ok (cand_hex best)
    /\ (forall c, c ∈ ranked -> (closeness c <? closeness best)%float = false)
    /\ (forall c, c ∈ before -> (closeness c <=? closeness best)%float = false).
Proof.
  intros Henv Hranked Hne Hnone.
  rewrite (choose_accent_ranked _ _ _ _ _ Henv Hranked).
  rewrite (find_nowhere primary ranked Hnone).
  destruct ranked as [ | first others ]; [ congruence | ].
  destruct (min_from_spec closeness first others) as (b & a & Heq & H1 & H2).
  exists b, (min_from closeness first others), a. auto.
Qed.


Lemma get_truthy_insert_empty (d : gmap string text) (k key : string) :
  get_truthy (<[ k := [] ]> d) key = get_truthy (delete k d) key.
Proof.
  unfold get_truthy. destruct (decide (k = key)) as [ -> | Hne ].
  - now rewrite lookup_insert_eq, lookup_delete_eq.
  - now rewrite lookup_insert_ne, lookup_delete_ne.
Qed.

(** C10. An empty string counts as no value: a priority slot or the special
    foreground holding it is skipped by the enumeration, an override naming
    a slot that holds it falls through to the normal selection, and an
    override that is itself empty is no override. *)
Theorem choose_accent_empty_is_absent :
  (forall k colors special,
      candidate_colors (<[ k := [] ]> colors) special
      = candidate_colors (delete k colors) special)
  /\ (forall colors special,
         candidate_colors colors (<[ "foreground"%string := [] ]> special)
         = candidate_colors colors (delete "foreground"%string special))
  /\ (forall slot colors special background_rgb,
         choose_accent (Some slot) (<[ slot := [] ]> colors) special background_rgb
         = choose_accent None (<[ slot := [] ]> colors) special background_rgb)
  /\ (forall colors special background_rgb,
         choose_accent (Some ""%string) colors special background_rgb
         = choose_accent None colors special background_rgb).
Proof.
  repeat split.
  - intros k colors special. unfold candidate_colors. f_equal.
    unfold ACCENT_PRIORITY. simpl. now rewrite !get_truthy_insert_empty.
  - intros colors special. unfold candidate_colors.
    now rewrite get_truthy_insert_empty.
  - intros slot colors special background_rgb.
    unfold choose_accent, env_candidate, get_truthy.
    rewrite lookup_insert_eq. simpl. now destruct (truthy_key slot).
Qed.

Lemma map_result_total (background_lum : float) (hs : list text) :
  forallb parses hs = true ->
  exists ranked, map_result (rank background_lum) hs = Ok ranked.
Proof.
  induction hs as [ | h hs IH ]; simpl; [ eauto | ].
  intros H. apply andb_true_iff in H as [ Hh H ].
  destruct (IH H) as [ ranked -> ].
  unfold parses in Hh. unfold rank.
  destruct (hex_to_rgb h); [ simpl; eauto | discriminate ].
Qed.

Lemma omap_nil_iff {A B : Type} (f : A -> option B) (l : list A) :
  omap f l = [] <-> forall x, x ∈ l -> f x = None.
Proof.
  induction l as [ | a l IH ]; simpl.
  - split; [ intros _ x Hx; inversion Hx | reflexivity ].
  - destruct (f a) eqn:Ha; split.
    + discriminate.
    + intros H. specialize (H a). rewrite Ha in H.
      discriminate H. left.
    + intros H x Hx. apply elem_of_cons in Hx as [ -> | Hx ]; [ exact Ha | ].
      now apply IH.
    + intros H. apply IH. intros x Hx. apply H. now right.
Qed.

(** The enumeration is empty exactly when no priority slot and no special
    foreground has a value. *)
Lemma candidate_colors_nil colors special :
  candidate_colors colors special = []
  <-> (forall key, key ∈ ACCENT_PRIORITY -> get_truthy colors key = None)
      /\ get_truthy special "foreground" = None.
Proof.
  unfold candidate_colors. split.
  - intros H. apply app_eq_nil in H as [ H1 H2 ]. split.
    + now apply omap_nil_iff.
    + destruct (get_truthy special "foreground"); [ discriminate | reflexivity ].
  - intros [ H1 H2 ]. rewrite H2. rewrite app_nil_r. now apply omap_nil_iff.
Qed.

(** C4, as the code has it. For a palette whose enumerated colours
    [hex_to_rgb] accepts: [choose_accent] raises [PaletteError] exactly when
    the override returns nothing and the enumeration is empty; otherwise it
    returns a colour, the override's or one of the enumeration. *)
Theorem choose_accent_error_iff env_slot colors special background_rgb :
  forallb parses (candidate_colors colors special) = true ->
  (is_palette_error (choose_accent env_slot colors special background_rgb)
   <-> env_candidate env_slot colors = None
       /\ candidate_colors colors special = [])
  /\ (candidate_colors colors special = []
      <-> (forall key, key ∈ ACCENT_PRIORITY -> get_truthy colors key = None)
          /\ get_truthy special "foreground" = None)
  /\ (~ (env_candidate env_slot colors = None
         /\ candidate_colors colors special = []) ->
      exists h, choose_accent env_slot colors special background_rgb = Ok h
                /\ (env_candidate env_slot colors = Some h
                    \/ h ∈ candidate_colors colors special)).
Proof.
  intros Hparse.
  split; [ | split; [ apply candidate_colors_nil | ] ].
  - destruct (env_candidate env_slot colors) as [ v | ] eqn:Henv.
    + unfold choose_accent. rewrite Henv. split.
      * intros [ msg H ]. discriminate.
      * intros [ H _ ]. discriminate.
    + destruct (map_result_total (relative_luminance background_rgb) _ Hparse)
        as [ ranked Hranked ].
      rewrite (choose_accent_ranked _ _ _ _ _ Henv Hranked).
      pose proof (map_result_hex _ _ _ Hranked) as Hhex.
      destruct ranked as [ | first others ].
      * simpl in Hhex. split; [ auto | ]. intros _. eexists. reflexivity.
      * split.
        -- intros [ msg H ]. destruct (find primary (first :: others)); discriminate.
        -- intros [ _ H ]. rewrite H in Hhex. discriminate.
  - intros Hnot.
    destruct (env_candidate env_slot colors) as [ v | ] eqn:Henv.
    + exists v. unfold choose_accent. rewrite Henv. auto.
    + destruct (map_result_total (relative_luminance background_rgb) _ Hparse)
        as [ ranked Hranked ].
      rewrite (choose_accent_ranked _ _ _ _ _ Henv Hranked).
      pose proof (map_result_hex _ _ _ Hranked) as Hhex.
      destruct ranked as [ | first others ].
      * simpl in Hhex. exfalso. apply Hnot. auto.
      * rewrite <- Hhex.
        destruct (find primary (first :: others)) as [ c | ] eqn:Hfind.
        -- exists (cand_hex c). split; [ reflexivity | right ].
           apply list_elem_of_fmap_2. now apply find_elem in Hfind.
        -- exists (cand_hex (min_from closeness first others)).
           split; [ reflexivity | right ].
           apply list_elem_of_fmap_2.
           destruct (min_from_spec closeness first others) as (b & a & Heq & _).
           rewrite Heq. apply elem_of_app. right. left.
Qed.

(** C4 as stated fails in both directions. With the override naming
    [color0], the only slot of the palette, the enumeration is empty and yet
    a colour is returned; and a colour of three digits makes [hex_to_rgb]
    raise [PaletteError] although the enumeration is not empty. *)
Lemma choose_accent_empty_enumeration_returns :
  (candidate_colors color0_only ∅ = []
   /\ choose_accent (Some "color0"%string) color0_only ∅ (0, 0, 0)
      = Ok (str "#112233")
   /\ ~ is_palette_error
          (choose_accent (Some "color0"%string) color0_only ∅ (0, 0, 0)))
  /\ (candidate_colors short_color ∅ = [ str "#fff" ]
      /\ choose_accent None short_color ∅ (0, 0, 0)
         = Raise (PaletteError "Unexpected color format: #fff")).
Proof.
  assert (H : choose_accent (Some "color0"%string) color0_only ∅ (0, 0, 0)
              = Ok (str "#112233")) by reflexivity.
  split; [ | split; reflexivity ].
  split; [ reflexivity | split; [ exact H | ] ].
  rewrite H. intros [ msg Hmsg ]. discriminate.
Qed.

(** C1 as stated fails: every colour of the enumeration is parsed before
    the primary test is applied to any. The first priority slot holds a
    colour that passes the test, and the call raises [PaletteError] for the
    three digits of the last slot instead of returning it. *)
Lemma choose_accent_primary_stopped :
  candidate_colors mid_then_short ∅ = [ str "#3a6ea5"; str "#fff" ]
  /\ (exists c, rank (relative_luminance (18, 18, 18)) (str "#3a6ea5") = Ok c
                /\ primary c = true)
  /\ choose_accent None mid_then_short ∅ (18, 18, 18)
     = Raise (PaletteError "Unexpected color format: #fff").
Proof.
  split; [ reflexivity | ]. split; [ | reflexivity ].
  eexists. split; [ reflexivity | vm_compute; reflexivity ].
Qed.

(** C2 as stated fails, in two ways. The enumeration is not empty and its
    only colour with a luminance fails the primary test, and the call raises
    [PaletteError] for the three digits of the last slot instead of
    returning the closest colour. And on the palette that is dark
    throughout, where the fallback returns ['#030303'], an override that
    names the first slot returns the colour further from the target. *)
Lemma choose_accent_fallback_stopped :
  (candidate_colors dark_then_short ∅ = [ str "#010101"; str "#fff" ]
   /\ (exists c, rank (relative_luminance (0, 0, 0)) (str "#010101") = Ok c
                 /\ primary c = false)
   /\ hex_to_rgb (str "#fff")
      = Raise (PaletteError "Unexpected color format: #fff")
   /\ choose_accent None dark_then_short ∅ (0, 0, 0)
      = Raise (PaletteError "Unexpected color format: #fff"))
  /\ (forallb (fun x => negb (primary x)) dark_ranked = true
      /\ choose_accent None dark_colors ∅ (0, 0, 0) = Ok (str "#030303")
      /\ choose_accent (Some "color4"%string) dark_colors ∅ (0, 0, 0)
         = Ok (str "#010101")).
Proof.
  split.
  - split; [ reflexivity | ]. split; [ | split; reflexivity ].
    eexists. split; [ reflexivity | vm_compute; reflexivity ].
  - split; [ vm_compute; reflexivity | split; reflexivity ].
Qed.

(** *** Instances *)

(** The mid-tone of the second priority slot is chosen over the almost
    black first one. *)
Example choose_accent_skips_dark_slot :
  choose_accent None ex_colors ex_special ex_background = Ok (str "#3a6ea5").
Proof. reflexivity. Qed.

(** On a palette that is dark throughout, the closest luminance wins, and
    of the two slots that share it the one enumerated first. *)
Example choose_accent_closest_of_dark :
  choose_accent None dark_colors ∅ (0, 0, 0) = Ok (str "#030303")
  /\ candidate_colors dark_colors ∅
     = [ str "#010101"; str "#030303"; str "#030303" ].
Proof. split; reflexivity. Qed.

(** The override of the spec's example. *)
Example choose_accent_forced_slot :
  choose_accent (Some "color4"%string) {[ "color4"%string := str "#112233" ]} ∅
    (255, 255, 255)
  = Ok (str "#112233").
Proof. reflexivity. Qed.

Lemma choose_accent_primary_witness :
  exists before c after,
    ex_ranked = before ++ c :: after
    /\ primary c = true
    /\ (forall x, x ∈ before -> primary x = false)
    /\ choose_accent None ex_colors ex_special ex_background = Ok (cand_hex c)
    /\ candidate_colors ex_colors ex_special = map cand_hex ex_ranked.
Proof.
  apply (choose_accent_primary None ex_colors ex_special ex_background ex_ranked);
    vm_compute; reflexivity.
Defined.

Lemma choose_accent_fallback_witness :
  exists before best after,
    dark_ranked = before ++ best :: after
    /\ choose_accent None dark_colors ∅ (0, 0, 0) = Ok (cand_hex best)
    /\ (forall c, c ∈ dark_ranked -> (closeness c <? closeness best)%float = false)
    /\ (forall c, c ∈ before -> (closeness c <=? closeness best)%float = false).
Proof.
  apply (choose_accent_fallback None dark_colors ∅ (0, 0, 0) dark_ranked);
    [ reflexivity | vm_compute; reflexivity | discriminate
    | vm_compute; reflexivity ].
Defined.


Lemma choose_accent_error_iff_witness :
  (is_palette_error (choose_accent None ex_colors ex_special ex_background)
   <-> env_candidate None ex_colors = None
       /\ candidate_colors ex_colors ex_special = [])
  /\ (candidate_colors ex_colors ex_special = []
      <-> (forall key, key ∈ ACCENT_PRIORITY -> get_truthy ex_colors key = None)
          /\ get_truthy ex_special "foreground" = None)
  /\ (~ (env_candidate None ex_colors = None
         /\ candidate_colors ex_colors ex_special = []) ->
      exists h, choose_accent None ex_colors ex_special ex_background = Ok h
                /\ (env_candidate None ex_colors = Some h
                    \/ h ∈ candidate_colors ex_colors ex_special)).
Proof.
  apply (choose_accent_error_iff None ex_colors ex_special ex_background).
  vm_compute. reflexivity.
Defined.

(** ** [hex_to_rgb] and its inverse *)

(** Every character, for statements checked by running through all. *)
Lemma ascii_enumerated (c : ascii) :
  c ∈ map ascii_of_nat (seq 0 256).
Proof.
  rewrite <- (ascii_nat_embedding c). apply list_elem_of_fmap_2.
  apply list_elem_of_In, in_seq. pose proof (nat_ascii_bounded c). lia.
Qed.

Lemma forall_ascii (P : ascii -> bool) :
  forallb P (map ascii_of_nat (seq 0 256)) = true -> forall c, P c = true.
Proof.
  intros H c. rewrite forallb_forall in H. apply H.
  apply list_elem_of_In, ascii_enumerated.
Qed.

Lemma forall_ascii2 (P : ascii -> ascii -> bool) :
  forallb (fun c1 => forallb (P c1) (map ascii_of_nat (seq 0 256)))
    (map ascii_of_nat (seq 0 256)) = true ->
  forall c1 c2, P c1 c2 = true.
Proof.
  intros H c1 c2. apply (forall_ascii (P c1)).
  apply (forall_ascii (fun c => forallb (P c) (map ascii_of_nat (seq 0 256))) H).
Qed.

(** Two hexadecimal digits parse to a byte, and the byte prints back as the
    same two digits in lower case. *)
Lemma hex_pair (c1 c2 : ascii) :
  is_hex_digit c1 = true -> is_hex_digit c2 = true ->
  exists v, parse_int16 [c1; c2] = Some v
            /\ 0 <= v <= 255
            /\ hex2 v = [lower_char c1; lower_char c2]
            /\ parse_int16 (hex2 v) = Some v.
Proof.
  pose (check := fun c1 c2 =>
    implb (is_hex_digit c1 && is_hex_digit c2)
      match parse_int16 [c1; c2] with
      | Some v =>
          (0 <=? v) && (v <=? 255)
          && Ascii.eqb (hex_char (v / 16)) (lower_char c1)
          && Ascii.eqb (hex_char (v mod 16)) (lower_char c2)
          && match parse_int16 (hex2 v) with
             | Some v' => v' =? v
             | None => false
             end
      | None => false
      end).
  assert (Hall : forall a b, check a b = true)
    by (apply forall_ascii2; vm_compute; reflexivity).
  intros H1 H2. specialize (Hall c1 c2). unfold check in Hall.
  rewrite H1, H2 in Hall. simpl implb in Hall.
  destruct (parse_int16 [c1; c2]) as [ v | ]; [ | discriminate ].
  exists v.
  repeat (apply andb_true_iff in Hall as [ Hall ? ]).
  destruct (parse_int16 (hex2 v)) as [ v' | ]; [ | discriminate ].
  repeat split; try lia.
  - unfold hex2. f_equal; [ | f_equal ]; now apply Ascii.eqb_eq.
  - f_equal. lia.
Qed.

Lemma hex_digit_not_hash (c : ascii) :
  is_hex_digit c = true -> Ascii.eqb c "#" = false.
Proof.
  intros H.
  assert (Hall : forall a, implb (is_hex_digit a) (negb (Ascii.eqb a "#")) = true)
    by (apply forall_ascii; vm_compute; reflexivity).
  specialize (Hall c). rewrite H in Hall. now apply negb_true_iff.
Qed.

(** The shape of a palette colour. *)
Lemma is_hex_color_inv (s : text) :
  is_hex_color s = true ->
  exists d1 d2 d3 d4 d5 d6,
    s = "#"%char :: [d1; d2; d3; d4; d5; d6]
    /\ Forall (fun d => is_hex_digit d = true) [d1; d2; d3; d4; d5; d6].
Proof.
  destruct s as [ | c ds ]; [ discriminate | ]. simpl.
  intros H. apply andb_true_iff in H as [ H Hds ].
  apply andb_true_iff in H as [ Hc Hlen ].
  apply Ascii.eqb_eq in Hc as ->. apply Nat.eqb_eq in Hlen.
  destruct ds as [ | d1 [ | d2 [ | d3 [ | d4 [ | d5 [ | d6 [ | ] ] ] ] ] ] ];
    try discriminate.
  exists d1, d2, d3, d4, d5, d6. split; [ reflexivity | ].
  apply List.Forall_forall. now apply forallb_forall.
Qed.

(** C9, as the code has it. For ['#'] and six hexadecimal digits,
    [hex_to_rgb] returns a triple of bytes, formatting the triple gives the
    string in lower case (the string itself when it has no upper-case
    digit), and parsing the formatted string gives the triple again. *)
Theorem hex_to_rgb_round_trip (s : text) :
  is_hex_color s = true ->
  exists r g b,
    hex_to_rgb s = Ok (r, g, b)
    /\ (0 <= r <= 255 /\ 0 <= g <= 255 /\ 0 <= b <= 255)
    /\ rgb_to_hex (r, g, b) = lower s
    /\ (lower s = s -> rgb_to_hex (r, g, b) = s)
    /\ hex_to_rgb (rgb_to_hex (r, g, b)) = Ok (r, g, b).
Proof.
  intros H.
  destruct (is_hex_color_inv s H) as (d1 & d2 & d3 & d4 & d5 & d6 & -> & Hd).
  apply Forall_cons in Hd as [ Hd1 Hd ]. apply Forall_cons in Hd as [ Hd2 Hd ].
  apply Forall_cons in Hd as [ Hd3 Hd ]. apply Forall_cons in Hd as [ Hd4 Hd ].
  apply Forall_cons in Hd as [ Hd5 Hd ]. apply Forall_cons in Hd as [ Hd6 _ ].
  destruct (hex_pair d1 d2) as (r & Hr & Br & Fr & Pr); try assumption.
  destruct (hex_pair d3 d4) as (g & Hg & Bg & Fg & Pg); try assumption.
  destruct (hex_pair d5 d6) as (b & Hb & Bb & Fb & Pb); try assumption.
  exists r, g, b.
  assert (Hfmt : rgb_to_hex (r, g, b) = lower ("#"%char :: [d1; d2; d3; d4; d5; d6])).
  { unfold rgb_to_hex. rewrite Fr, Fg, Fb. reflexivity. }
  split; [ | split; [ auto | split; [ exact Hfmt | split ] ] ].
  - unfold hex_to_rgb. simpl lstrip. rewrite (hex_digit_not_hash d1) by assumption.
    unfold int16, slice2. simpl. rewrite Hr, Hg, Hb. reflexivity.
  - intros Hl. now rewrite Hfmt.
  - unfold rgb_to_hex, hex2 in *.
    unfold hex_to_rgb. simpl lstrip.
    assert (Hh : Ascii.eqb (hex_char (r / 16)) "#" = false).
    { injection Fr as -> _. apply hex_digit_not_hash.
      assert (Hall : forall a, implb (is_hex_digit a) (is_hex_digit (lower_char a)) = true)
        by (apply forall_ascii; vm_compute; reflexivity).
      specialize (Hall d1). now rewrite Hd1 in Hall. }
    rewrite Hh. unfold int16, slice2. simpl. rewrite Pr, Pg, Pb. reflexivity.
Qed.

(** C9 as stated fails: [hex_to_rgb] reads digits of either case, so two
    colour strings share a triple and no formatting gives both back. *)
Lemma hex_to_rgb_forgets_case :
  is_hex_color (str "#AABBCC") = true
  /\ hex_to_rgb (str "#AABBCC") = Ok (170, 187, 204)
  /\ hex_to_rgb (str "#aabbcc") = Ok (170, 187, 204)
  /\ rgb_to_hex (170, 187, 204) = str "#aabbcc"
  /\ rgb_to_hex (170, 187, 204) <> str "#AABBCC".
Proof. repeat split; discriminate. Qed.

Lemma hex_to_rgb_round_trip_witness :
  exists r g b,
    hex_to_rgb (str "#3a6ea5") = Ok (r, g, b)
    /\ (0 <= r <= 255 /\ 0 <= g <= 255 /\ 0 <= b <= 255)
    /\ rgb_to_hex (r, g, b) = lower (str "#3a6ea5")
    /\ (lower (str "#3a6ea5") = str "#3a6ea5" -> rgb_to_hex (r, g, b) = str "#3a6ea5")
    /\ hex_to_rgb (rgb_to_hex (r, g, b)) = Ok (r, g, b).
Proof. apply (hex_to_rgb_round_trip (str "#3a6ea5")). reflexivity. Defined.

(** ** The matcher and the language of a pattern *)

Lemma run_length_le cls limit (s : text) :
  (run_length cls limit s <= length s)%nat.
Proof.
  revert limit. induction s as [ | c s IH ]; intros limit; simpl; [ lia | ].
  destruct (cls c); [ | lia ].
  destruct limit as [ [ | l ] | ]; [ lia | | ].
  - specialize (IH (Some l)). lia.
  - specialize (IH None). lia.
Qed.

Lemma run_length_within cls limit (s : text) :
  within limit (run_length cls limit s).
Proof.
  destruct limit as [ l | ]; [ | exact I ]. simpl.
  revert l. induction s as [ | c s IH ]; intros l; simpl; [ lia | ].
  destruct (cls c); [ | lia ].
  destruct l as [ | l ]; [ lia | ]. specialize (IH l). lia.
Qed.

Lemma run_length_class cls limit (s : text) (k : nat) :
  (k <= run_length cls limit s)%nat -> forallb cls (firstn k s) = true.
Proof.
  revert limit k. induction s as [ | c s IH ]; intros limit k; simpl.
  - intros Hk. assert (k = 0%nat) as -> by lia. reflexivity.
  - destruct k as [ | k ]; [ reflexivity | ]. simpl.
    destruct (cls c); [ | lia ]. simpl.
    destruct limit as [ [ | l ] | ]; [ lia | | ]; intros Hk;
      eapply IH with (limit := _); apply le_S_n, Hk.
Qed.

Lemma run_length_ge cls limit (run t : text) :
  forallb cls run = true -> within limit (length run) ->
  (length run <= run_length cls limit (run ++ t))%nat.
Proof.
  revert limit. induction run as [ | c run IH ]; intros limit; simpl; [ lia | ].
  intros H Hw. apply andb_true_iff in H as [ Hc H ]. rewrite Hc.
  destruct limit as [ [ | l ] | ]; simpl in Hw; [ lia | | ].
  - specialize (IH (Some l) H). simpl in IH. lia.
  - specialize (IH None H I). lia.
Qed.

Lemma backtrack_sound cont (lo k : nat) (s rest : text) :
  backtrack cont lo k s = Some rest ->
  exists j, (lo <= j <= k)%nat /\ cont (skipn j s) = Some rest.
Proof.
  induction k as [ | k IH ]; simpl.
  - destruct (Nat.ltb_spec 0 lo); [ discriminate | ].
    destruct (cont (skipn 0 s)) eqn:E; [ | discriminate ].
    intros [= <-]. exists 0%nat. split; [ lia | exact E ].
  - destruct (Nat.ltb_spec (S k) lo); [ discriminate | ].
    destruct (cont (skipn (S k) s)) eqn:E.
    + intros [= <-]. exists (S k). split; [ lia | exact E ].
    + intros Hb. destruct (IH Hb) as (j & Hj & Hc). exists j. split; [ lia | exact Hc ].
Qed.

Lemma backtrack_complete cont (lo k j : nat) (s : text) :
  (lo <= j <= k)%nat -> is_Some (cont (skipn j s)) ->
  is_Some (backtrack cont lo k s).
Proof.
  induction k as [ | k IH ]; intros Hj Hc; simpl.
  - assert (j = 0%nat) as -> by lia.
    destruct (Nat.ltb_spec 0 lo); [ lia | ].
    destruct (cont (skipn 0 s)); [ eauto | ]. now destruct Hc.
  - destruct (Nat.ltb_spec (S k) lo); [ lia | ].
    destruct (cont (skipn (S k) s)) eqn:E; [ eauto | ].
    apply IH; [ | exact Hc ].
    destruct (Nat.eq_dec j (S k)) as [ -> | ]; [ | lia ].
    rewrite E in Hc. now destruct Hc.
Qed.

(** What the matcher consumes is a word of the pattern. *)
Lemma match_here_sound (p : list atom) :
  forall s rest, match_here p s = Some rest ->
                 exists m, s = m ++ rest /\ accepts p m.
Proof.
  induction p as [ | a p IH ]; simpl; intros s rest H.
  - injection H as <-. exists []. split; [ reflexivity | constructor ].
  - apply backtrack_sound in H as (j & Hj & H).
    destruct (IH _ _ H) as (m & Hm & Hacc).
    exists (firstn j s ++ m). split.
    + rewrite <- app_assoc, <- Hm. symmetry. apply firstn_skipn.
    + pose proof (run_length_le (a_class a) (a_max a) s) as Hle.
      assert (Hlen : length (firstn j s) = j) by (rewrite length_firstn; lia).
      constructor; [ | lia | | exact Hacc ].
      * eapply run_length_class. apply Hj.
      * rewrite Hlen.
        pose proof (run_length_within (a_class a) (a_max a) s) as Hw.
        destruct (a_max a); simpl in *; [ lia | exact I ].
Qed.

(** Where a word of the pattern starts, the matcher finds a match. *)
Lemma match_here_complete (p : list atom) (m : text) :
  accepts p m -> forall rest, is_Some (match_here p (m ++ rest)).
Proof.
  induction 1 as [ | a p run m Hcls Hmin Hmax Hacc IH ]; intros rest; simpl.
  - eauto.
  - apply backtrack_complete with (j := length run).
    + split; [ exact Hmin | ]. rewrite <- app_assoc. now apply run_length_ge.
    + rewrite <- app_assoc, skipn_app, skipn_all, Nat.sub_diag. simpl. apply IH.
Qed.

(** The result of [search]: the leftmost occurrence. *)
Lemma search_Some (p : list atom) :
  forall s before after,
    search p s = Some (before, after) ->
    exists m, s = before ++ m ++ after
              /\ accepts p m
              /\ match_here p (m ++ after) = Some after
              /\ none_before p s (length before).
Proof.
  induction s as [ | c s IH ]; intros before after; simpl.
  - destruct (match_here p []) as [ rest | ] eqn:E; [ | discriminate ].
    intros [= <- <-]. destruct (match_here_sound _ _ _ E) as (m & Hm & Hacc).
    exists m. rewrite <- Hm. repeat split; auto. intros b m' a _ _. simpl. lia.
  - destruct (match_here p (c :: s)) as [ rest | ] eqn:E.
    + intros [= <- <-]. destruct (match_here_sound _ _ _ E) as (m & Hm & Hacc).
      exists m. rewrite <- Hm. repeat split; auto. intros b m' a _ _. simpl. lia.
    + destruct (search p s) as [ [ b a ] | ] eqn:Es; [ | discriminate ].
      intros [= <- <-]. destruct (IH _ _ eq_refl) as (m & Hm & Hacc & Hhere & Hleft).
      exists m. split; [ simpl; now rewrite <- Hm | ].
      split; [ exact Hacc | ]. split; [ exact Hhere | ].
      intros b' m' a' Heq Hacc'. destruct b' as [ | c' b' ].
      * simpl in Heq. pose proof (match_here_complete p m' Hacc' a') as Hs.
        rewrite <- Heq, E in Hs. now destruct Hs.
      * simpl in Heq. injection Heq as <- Heq. simpl.
        specialize (Hleft _ _ _ Heq Hacc'). lia.
Qed.

Lemma search_None (p : list atom) :
  forall s, search p s = None -> no_occurrence p s.
Proof.
  induction s as [ | c s IH ]; simpl.
  - destruct (match_here p []) eqn:E; [ discriminate | ].
    intros _ b m a Heq Hacc.
    symmetry in Heq. apply app_eq_nil in Heq as [ -> Heq ].
    apply app_eq_nil in Heq as [ -> -> ].
    pose proof (match_here_complete p [] Hacc []) as Hs. simpl in Hs.
    rewrite E in Hs. now destruct Hs.
  - destruct (match_here p (c :: s)) eqn:E; [ discriminate | ].
    destruct (search p s) as [ [ b a ] | ] eqn:Es; [ discriminate | ].
    intros _ b' m' a' Heq Hacc. destruct b' as [ | c' b' ].
    + simpl in Heq. pose proof (match_here_complete p m' Hacc a') as Hs.
      rewrite <- Heq, E in Hs. now destruct Hs.
    + simpl in Heq. injection Heq as <- Heq. exact (IH eq_refl _ _ _ Heq Hacc).
Qed.

(** [re.subn] with [count=1], for a template without a backslash. *)
Lemma re_subn1_spec (p : list atom) (repl s : text) :
  has_backslash repl = false ->
  (exists s', re_subn1 p repl s = Ok (s', 1%nat) /\ first_replaced p repl s s')
  \/ (re_subn1 p repl s = Ok (s, 0%nat) /\ no_occurrence p s).
Proof.
  intros Hb. unfold re_subn1. rewrite Hb.
  destruct (search p s) as [ [ before after ] | ] eqn:E.
  - left. eexists. split; [ reflexivity | ].
    destruct (search_Some _ _ _ _ E) as (m & Hm & Hacc & Hhere & Hleft).
    exists before, m, after. auto.
  - right. split; [ reflexivity | ]. now apply search_None.
Qed.

(** ** The words of the four patterns *)

Lemma accepts_end (m : text) : accepts [] m <-> m = [].
Proof.
  split.
  - now inversion 1.
  - intros ->. constructor.
Qed.

Lemma accepts_atom (a : atom) (p : list atom) (m : text) :
  accepts (a :: p) m
  <-> exists run m',
        m = run ++ m' /\ forallb (a_class a) run = true
        /\ (a_min a <= length run)%nat /\ within (a_max a) (length run)
        /\ accepts p m'.
Proof.
  split.
  - inversion 1; subst. eauto 10.
  - intros (run & m' & -> & ? & ? & ? & ?). now constructor.
Qed.

Lemma accepts_lit (c : ascii) (p : list atom) (m : text) :
  accepts (lit c :: p) m <-> exists m', m = c :: m' /\ accepts p m'.
Proof.
  rewrite accepts_atom. split.
  - intros (run & m' & -> & Hcls & Hmin & Hmax & Hacc). simpl in *.
    destruct run as [ | x [ | y run ] ]; simpl in *; try lia.
    apply andb_true_iff in Hcls as [ Hx _ ]. apply Ascii.eqb_eq in Hx as ->.
    eauto.
  - intros (m' & -> & Hacc). exists [c], m'. simpl.
    rewrite Ascii.eqb_refl. repeat split; auto.
Qed.

Lemma accepts_lits (l : text) (p : list atom) (m : text) :
  accepts (map lit l ++ p) m <-> exists m', m = l ++ m' /\ accepts p m'.
Proof.
  revert m. induction l as [ | c l IH ]; intros m; simpl.
  - split; [ eauto | ]. now intros (m' & -> & H).
  - rewrite accepts_lit. split.
    + intros (m1 & -> & H). apply IH in H as (m' & -> & H). eauto.
    + intros (m' & -> & H). eexists. split; [ reflexivity | ]. apply IH. eauto.
Qed.

Lemma accepts_P_ACCENT (m : text) :
  accepts (pat_atoms P_ACCENT) m
  <-> exists ws h,
        m = str "--accent:" ++ ws ++ "#"%char :: h ++ [";"%char]
        /\ forallb is_space ws = true
        /\ length h = 6%nat /\ forallb is_hex_digit h = true.
Proof.
  unfold P_ACCENT, pat_atoms, lits. rewrite accepts_lits. split.
  - intros (m1 & -> & H). simpl in H.
    apply accepts_atom in H as (ws & m2 & -> & Hws & _ & _ & H).
    apply accepts_lit in H as (m3 & -> & H).
    apply accepts_atom in H as (h & m4 & -> & Hh & Hmin & Hmax & H).
    apply accepts_lit in H as (m5 & -> & H). apply accepts_end in H as ->.
    simpl in *. exists ws, h. repeat split; auto. lia.
  - intros (ws & h & -> & Hws & Hlen & Hh). eexists. split; [ reflexivity | ].
    simpl. apply accepts_atom. exists ws. eexists. split; [ reflexivity | ].
    repeat split; simpl; auto; try lia.
    apply accepts_lit. eexists. split; [ reflexivity | ].
    apply accepts_atom. exists h, [";"%char]. simpl.
    repeat split; auto; try lia.
    apply accepts_lit. eexists. split; [ reflexivity | ]. constructor.
Qed.

Lemma accepts_P_ACCENT_RGB (m : text) :
  accepts (pat_atoms P_ACCENT_RGB) m
  <-> exists ws run,
        m = str "--accent-rgb:" ++ ws ++ run ++ [";"%char]
        /\ forallb is_space ws = true
        /\ run <> [] /\ forallb is_rgb_char run = true.
Proof.
  unfold P_ACCENT_RGB, pat_atoms, lits. rewrite accepts_lits. split.
  - intros (m1 & -> & H). simpl in H.
    apply accepts_atom in H as (ws & m2 & -> & Hws & _ & _ & H).
    apply accepts_atom in H as (run & m3 & -> & Hrun & Hmin & _ & H).
    apply accepts_lit in H as (m4 & -> & H). apply accepts_end in H as ->.
    simpl in *. exists ws, run. repeat split; auto.
    destruct run; simpl in *; [ lia | discriminate ].
  - intros (ws & run & -> & Hws & Hne & Hrun). eexists. split; [ reflexivity | ].
    simpl. apply accepts_atom. exists ws. eexists. split; [ reflexivity | ].
    repeat split; simpl; auto; try lia.
    apply accepts_atom. exists run, [";"%char]. simpl.
    repeat split; auto.
    + destruct run; simpl; [ congruence | lia ].
    + apply accepts_lit. eexists. split; [ reflexivity | ]. constructor.
Qed.

Lemma accepts_P_BACKGROUND (m : text) :
  accepts (pat_atoms P_BACKGROUND) m
  <-> exists ws body,
        m = str "--yasb-background:" ++ ws ++ str "rgba(" ++ body ++ [";"%char]
        /\ forallb is_space ws = true
        /\ body <> [] /\ forallb not_semicolon body = true.
Proof.
  unfold P_BACKGROUND, pat_atoms, lits. rewrite accepts_lits. split.
  - intros (m1 & -> & H). simpl in H.
    apply accepts_atom in H as (ws & m2 & -> & Hws & _ & _ & H).
    change (accepts (map lit (str "rgba(") ++ [plus not_semicolon; lit ";"]) m2) in H.
    apply accepts_lits in H as (m3 & -> & H).
    apply accepts_atom in H as (body & m4 & -> & Hbody & Hmin & _ & H).
    apply accepts_lit in H as (m5 & -> & H). apply accepts_end in H as ->.
    simpl in *. exists ws, body. repeat split; auto.
    destruct body; simpl in *; [ lia | discriminate ].
  - intros (ws & body & -> & Hws & Hne & Hbody). eexists. split; [ reflexivity | ].
    simpl. apply accepts_atom. exists ws. eexists. split; [ reflexivity | ].
    repeat split; simpl; auto; try lia.
    change (accepts (map lit (str "rgba(") ++ [plus not_semicolon; lit ";"])
              (str "rgba(" ++ body ++ [";"%char])).
    apply accepts_lits. eexists. split; [ reflexivity | ].
    apply accepts_atom. exists body, [";"%char]. simpl.
    repeat split; auto.
    + destruct body; simpl; [ congruence | lia ].
    + apply accepts_lit. eexists. split; [ reflexivity | ]. constructor.
Qed.

Lemma accepts_P_COLOR (m : text) :
  accepts P_COLOR m
  <-> exists h,
        m = str "'color': '#" ++ h ++ ["'"%char]
        /\ length h = 6%nat /\ forallb is_hex_digit h = true.
Proof.
  unfold P_COLOR, lits. rewrite accepts_lits. split.
  - intros (m1 & -> & H). simpl in H.
    apply accepts_atom in H as (h & m2 & -> & Hh & Hmin & Hmax & H).
    apply accepts_lit in H as (m3 & -> & H). apply accepts_end in H as ->.
    simpl in *. exists h. repeat split; auto. lia.
  - intros (h & -> & Hlen & Hh). eexists. split; [ reflexivity | ].
    simpl. apply accepts_atom. exists h, ["'"%char]. simpl.
    repeat split; auto; try lia.
    apply accepts_lit. eexists. split; [ reflexivity | ]. constructor.
Qed.

(** ** The replacement texts *)

Lemma has_backslash_app (s t : text) :
  has_backslash (s ++ t) = has_backslash s || has_backslash t.
Proof. apply existsb_app. Qed.

Lemma string_of_uint_digits (d : Decimal.uint) :
  forallb is_digit (list_ascii_of_string (NilEmpty.string_of_uint d)) = true.
Proof. induction d; simpl; auto. Qed.

(** [str(n)] is a non-empty run of digits, after a minus sign when [n] is
    negative. *)
Lemma dec_shape (z : Z) :
  exists ds, ds <> [] /\ forallb is_digit ds = true
             /\ (dec z = ds \/ dec z = "-"%char :: ds).
Proof.
  assert (Hu : forall d,
             exists ds, ds <> [] /\ forallb is_digit ds = true
                        /\ list_ascii_of_string (NilZero.string_of_uint d) = ds).
  { intros d. eexists. split; [ | split; [ | reflexivity ] ].
    - destruct d; discriminate.
    - destruct d; try apply (string_of_uint_digits (_ d)); reflexivity. }
  unfold dec. destruct z as [ | p | p ]; simpl.
  - exists ["0"%char]. repeat split; auto; discriminate.
  - destruct (Hu (Pos.to_uint p)) as (ds & ? & ? & ->). eauto.
  - destruct (Hu (Pos.to_uint p)) as (ds & ? & ? & ->). eauto.
Qed.

Lemma digits_no_backslash (ds : text) :
  forallb is_digit ds = true -> has_backslash ds = false.
Proof.
  induction ds as [ | c ds IH ]; simpl; [ reflexivity | ].
  intros H. apply andb_true_iff in H as [ Hc H ]. rewrite (IH H), orb_false_r.
  assert (Hall : forall a, implb (is_digit a) (negb (Ascii.eqb "\" a)) = true)
    by (apply forall_ascii; vm_compute; reflexivity).
  specialize (Hall c). rewrite Hc in Hall. now apply negb_true_iff.
Qed.

Lemma dec_no_backslash (z : Z) : has_backslash (dec z) = false.
Proof.
  destruct (dec_shape z) as (ds & _ & Hds & [ -> | -> ]); simpl;
    now apply digits_no_backslash.
Qed.

Lemma lstrip_hashes (s : text) :
  exists n, s = repeat "#"%char n ++ lstrip "#" s.
Proof.
  induction s as [ | c s IH ]; simpl.
  - now exists 0%nat.
  - destruct (Ascii.eqb_spec c "#") as [ -> | ].
    + destruct IH as [ n IH ]. exists (S n). simpl. now f_equal.
    + now exists 0%nat.
Qed.

Lemma int_pair_no_backslash (c1 c2 : ascii) (v : Z) :
  parse_int16 [c1; c2] = Some v ->
  Ascii.eqb "\" c1 = false /\ Ascii.eqb "\" c2 = false.
Proof.
  pose (check := fun a b =>
    match parse_int16 [a; b] with
    | Some _ => negb (Ascii.eqb "\" a) && negb (Ascii.eqb "\" b)
    | None => true
    end).
  assert (Hall : forall a b, check a b = true)
    by (apply forall_ascii2; vm_compute; reflexivity).
  intros H. specialize (Hall c1 c2). unfold check in Hall. rewrite H in Hall.
  apply andb_true_iff in Hall as [ H1 H2 ].
  now apply negb_true_iff in H1, H2.
Qed.

(** A string [hex_to_rgb] accepts has no backslash, so that as a
    replacement template it stands for itself. *)
Lemma hex_to_rgb_no_backslash (h : text) (rgb : Z * Z * Z) :
  hex_to_rgb h = Ok rgb -> has_backslash h = false.
Proof.
  unfold hex_to_rgb. destruct (lstrip_hashes h) as [ n Hn ].
  destruct (Nat.eqb_spec (length (lstrip "#" h)) 6) as [ Hlen | ];
    [ | discriminate ].
  simpl negb. cbv iota. intros H. rewrite Hn, has_backslash_app.
  assert (Hrep : has_backslash (repeat "#"%char n) = false)
    by (clear; induction n; simpl; auto).
  rewrite Hrep. simpl.
  destruct (lstrip "#" h)
    as [ | a [ | b [ | c [ | d [ | e [ | f [ | ] ] ] ] ] ] ]; try discriminate.
  unfold int16, slice2 in H. simpl in H.
  destruct (parse_int16 [a; b]) eqn:E1; [ | discriminate ].
  destruct (parse_int16 [c; d]) eqn:E2; [ | discriminate ].
  destruct (parse_int16 [e; f]) eqn:E3; [ | discriminate ].
  apply int_pair_no_backslash in E1 as [ Ha Hb ].
  apply int_pair_no_backslash in E2 as [ Hc Hd ].
  apply int_pair_no_backslash in E3 as [ He Hf ].
  unfold has_backslash. cbn [existsb]. now rewrite Ha, Hb, Hc, Hd, He, Hf.
Qed.

Lemma replacements_no_backslash accent_hex accent_rgb background_rgb :
  has_backslash accent_hex = false ->
  Forall (fun rule => has_backslash (snd rule) = false)
    (replacements accent_hex accent_rgb background_rgb).
Proof.
  intros H. destruct accent_rgb as [ [ ar ag ] ab ], background_rgb as [ [ br bg ] bb ].
  unfold replacements.
  constructor; [ | constructor; [ | constructor; [ | constructor ] ] ];
    cbn [snd]; rewrite ?has_backslash_app, ?dec_no_backslash, ?H; reflexivity.
Qed.

(** ** The stylesheet update *)

(** The rules of the loop, each replacement ending in its [';']. *)
Lemma replacements_texts accent_hex accent_rgb background_rgb :
  replacements accent_hex accent_rgb background_rgb
  = [ (P_ACCENT, accent_text accent_hex ++ [";"%char]);
      (P_ACCENT_RGB, accent_rgb_text accent_rgb ++ [";"%char]);
      (P_BACKGROUND, background_text background_rgb ++ [";"%char]) ].
Proof.
  destruct accent_rgb as [ [ ar ag ] ab ], background_rgb as [ [ br bg ] bb ].
  unfold replacements, accent_text, accent_rgb_text, background_text.
  now rewrite <- !app_assoc.
Qed.

(** One turn of the loop over [replacements]: the leftmost occurrence is
    replaced and the loop goes on, or there is none and the loop raises. *)
Lemma apply_replacements_step (pat : pattern) (repl : text)
    (rules : list (pattern * text)) (css : text) :
  has_backslash repl = false ->
  (exists css1,
      first_replaced (pat_atoms pat) repl css css1
      /\ apply_replacements ((pat, repl) :: rules) css
         = apply_replacements rules css1)
  \/ (no_occurrence (pat_atoms pat) css
      /\ exists msg, apply_replacements ((pat, repl) :: rules) css
                     = Raise (PaletteError msg)).
Proof.
  intros Hb. simpl.
  destruct (re_subn1_spec (pat_atoms pat) repl css Hb)
    as [ (css1 & -> & Hfirst) | (-> & Hnone) ]; simpl.
  - left. eauto.
  - right. eauto.
Qed.



(** C6, as the code has it. For an accent [hex_to_rgb] accepts,
    [update_css] goes through the three patterns in order, each applied to
    the text the substitutions before it have produced. Each time the
    leftmost occurrence in that text, and only it, is replaced, and what
    stands before and after it is copied; the first pattern without an
    occurrence in that text makes the call raise [PaletteError] with the
    files as they were. Further occurrences of a pattern are not an
    error, and the substitution of that pattern does not touch them; the
    match of a later pattern may contain them. *)
Theorem update_css_substitutions accent_hex accent_rgb background_rgb fs :
  hex_to_rgb accent_hex = Ok accent_rgb ->
  let r1 := accent_text accent_hex ++ [";"%char] in
  let r2 := accent_rgb_text accent_rgb ++ [";"%char] in
  let r3 := background_text background_rgb ++ [";"%char] in
  (exists css1 css2 css3,
      first_replaced (pat_atoms P_ACCENT) r1 (css_file fs) css1
      /\ first_replaced (pat_atoms P_ACCENT_RGB) r2 css1 css2
      /\ first_replaced (pat_atoms P_BACKGROUND) r3 css2 css3
      /\ update_css accent_hex background_rgb fs
         = (Files css3 (config_file fs), Ok tt))
  \/ ((exists msg, update_css accent_hex background_rgb fs
                   = (fs, Raise (PaletteError msg)))
      /\ (no_occurrence (pat_atoms P_ACCENT) (css_file fs)
          \/ exists css1,
               first_replaced (pat_atoms P_ACCENT) r1 (css_file fs) css1
               /\ (no_occurrence (pat_atoms P_ACCENT_RGB) css1
                   \/ exists css2,
                        first_replaced (pat_atoms P_ACCENT_RGB) r2 css1 css2
                        /\ no_occurrence (pat_atoms P_BACKGROUND) css2))).
Proof.
  intros Hrgb r1 r2 r3.
  pose proof (replacements_no_backslash accent_hex accent_rgb background_rgb
                (hex_to_rgb_no_backslash _ _ Hrgb)) as Hb.
  rewrite replacements_texts in Hb. fold r1 r2 r3 in Hb.
  apply Forall_cons in Hb as [ Hb1 Hb ].
  apply Forall_cons in Hb as [ Hb2 Hb ].
  apply Forall_cons in Hb as [ Hb3 _ ]. simpl in Hb1, Hb2, Hb3.
  unfold update_css, new_css. rewrite Hrgb. cbn [bind].
  rewrite replacements_texts. fold r1 r2 r3.
  destruct (apply_replacements_step P_ACCENT r1
              [ (P_ACCENT_RGB, r2); (P_BACKGROUND, r3) ] (css_file fs) Hb1)
    as [ (css1 & H1 & ->) | (N1 & msg & ->) ];
    [ | right; split; [ eauto | auto ] ].
  destruct (apply_replacements_step P_ACCENT_RGB r2
              [ (P_BACKGROUND, r3) ] css1 Hb2)
    as [ (css2 & H2 & ->) | (N2 & msg & ->) ];
    [ | right; split; [ eauto | right; eauto ] ].
  destruct (apply_replacements_step P_BACKGROUND r3 [] css2 Hb3)
    as [ (css3 & H3 & ->) | (N3 & msg & ->) ];
    [ | right; split; [ eauto | right; eauto 10 ] ].
  left. exists css1, css2, css3. auto.
Qed.

(** C6 as stated fails: a second occurrence of a pattern is no error. With
    two accent declarations the call succeeds, rewrites the first and keeps
    the second. *)
Lemma update_css_keeps_later_matches :
  search (pat_atoms P_ACCENT) two_accents_css
  = Some ([], str " --accent: #bbbbbb; --accent-rgb: 1, 2, 3; --yasb-background: rgba(0, 0, 0, 0.5);")
  /\ search (pat_atoms P_ACCENT)
       (str " --accent: #bbbbbb; --accent-rgb: 1, 2, 3; --yasb-background: rgba(0, 0, 0, 0.5);")
     = Some (str " ", str " --accent-rgb: 1, 2, 3; --yasb-background: rgba(0, 0, 0, 0.5);")
  /\ update_css (str "#112233") (0, 0, 0) (Files two_accents_css [])
     = (Files (str "--accent: #112233; --accent: #bbbbbb; --accent-rgb: 17, 34, 51; --yasb-background: rgba(0, 0, 0, 0.72);") [],
        Ok tt).
Proof. repeat split; vm_compute; reflexivity. Qed.

(** A later substitution can take a further occurrence away: here the
    match of the background pattern runs up to the first [';'] and holds
    the second accent declaration, which is not in the stylesheet
    written. *)
Example update_css_later_match_overwrites :
  update_css (str "#112233") (0, 0, 0) (Files nested_accent_css [])
  = (Files (str "--accent: #112233; --accent-rgb: 17, 34, 51; --yasb-background: rgba(0, 0, 0, 0.72);") [],
     Ok tt).
Proof. vm_compute. reflexivity. Qed.

Lemma update_css_substitutions_witness :
  (exists css1 css2 css3,
      first_replaced (pat_atoms P_ACCENT) (str "--accent: #112233;")
        two_accents_css css1
      /\ first_replaced (pat_atoms P_ACCENT_RGB) (str "--accent-rgb: 17, 34, 51;")
           css1 css2
      /\ first_replaced (pat_atoms P_BACKGROUND)
           (str "--yasb-background: rgba(0, 0, 0, 0.72);") css2 css3
      /\ update_css (str "#112233") (0, 0, 0) (Files two_accents_css [])
         = (Files css3 [], Ok tt))
  \/ ((exists msg, update_css (str "#112233") (0, 0, 0) (Files two_accents_css [])
                   = (Files two_accents_css [], Raise (PaletteError msg)))
      /\ (no_occurrence (pat_atoms P_ACCENT) two_accents_css
          \/ exists css1,
               first_replaced (pat_atoms P_ACCENT) (str "--accent: #112233;")
                 two_accents_css css1
               /\ (no_occurrence (pat_atoms P_ACCENT_RGB) css1
                   \/ exists css2,
                        first_replaced (pat_atoms P_ACCENT_RGB)
                          (str "--accent-rgb: 17, 34, 51;") css1 css2
                        /\ no_occurrence (pat_atoms P_BACKGROUND) css2))).
Proof.
  apply (update_css_substitutions (str "#112233") (17, 34, 51) (0, 0, 0)
           (Files two_accents_css [])). reflexivity.
Defined.

(** ** The widget-config update *)

Lemma sub_all_skip (p : list atom) (repl : text) :
  forall s k, sub_all p repl k s = sub_all p repl 0 (skipn k s).
Proof.
  induction s as [ | c s IH ]; intros k.
  - now rewrite skipn_nil.
  - destruct k as [ | k ]; [ reflexivity | ]. simpl. apply IH.
Qed.

Lemma no_occurrence_cons (p : list atom) (c : ascii) (s : text) :
  match_here p (c :: s) = None -> no_occurrence p s -> no_occurrence p (c :: s).
Proof.
  intros Hhead Hnone b m a Heq Hacc. destruct b as [ | c' b ].
  - simpl in Heq. pose proof (match_here_complete p m Hacc a) as Hs.
    rewrite <- Heq, Hhead in Hs. now destruct Hs.
  - simpl in Heq. injection Heq as <- Heq. exact (Hnone _ _ _ Heq Hacc).
Qed.

Lemma all_replaced_cons (p : list atom) (repl : text) (c : ascii)
    (s out : text) (n : nat) :
  match_here p (c :: s) = None ->
  all_replaced p repl s out n -> all_replaced p repl (c :: s) (c :: out) n.
Proof.
  intros Hhead H. destruct H as [ s Hnone | s b m a out n Heq Hacc Hhere Hleft H ].
  - constructor. now apply no_occurrence_cons.
  - change (c :: b ++ repl ++ out) with ((c :: b) ++ repl ++ out).
    apply all_replaced_next with (m := m) (after := a); auto.
    + simpl. now rewrite <- Heq.
    + intros b' m' a' Heq' Hacc'. destruct b' as [ | c' b' ].
      * simpl in Heq'. pose proof (match_here_complete p m' Hacc' a') as Hs.
        rewrite <- Heq', Hhead in Hs. now destruct Hs.
      * simpl in Heq'. injection Heq' as <- Heq'. simpl.
        specialize (Hleft _ _ _ Heq' Hacc'). lia.
Qed.

(** The scan of [re.subn] replaces the occurrences from left to right,
    provided the pattern has no empty word. *)
Lemma sub_all_spec (p : list atom) (repl : text) :
  (forall m, accepts p m -> m <> []) ->
  forall s, all_replaced p repl s (fst (sub_all p repl 0 s))
              (snd (sub_all p repl 0 s)).
Proof.
  intros Hne s.
  remember (length s) as len eqn:Hlen.
  revert s Hlen. induction len as [ len IH ] using lt_wf_ind. intros s Hlen.
  destruct s as [ | c s ].
  - simpl. constructor. intros b m a Heq Hacc.
    symmetry in Heq. apply app_eq_nil in Heq as [ _ Heq ].
    apply app_eq_nil in Heq as [ -> _ ]. now apply (Hne []).
  - cbn [sub_all]. destruct (match_here p (c :: s)) as [ rest | ] eqn:E.
    + destruct (match_here_sound _ _ _ E) as (m & Hm & Hacc).
      pose proof (Hne m Hacc) as Hm_ne.
      destruct m as [ | c' m ]; [ congruence | ].
      simpl in Hm. injection Hm as <- Hm.
      assert (Hk : (length (c :: s) - length rest)%nat = S (length m)).
      { simpl. rewrite Hm, length_app. lia. }
      rewrite Hk. rewrite sub_all_skip.
      assert (Hrest : skipn (length m) s = rest).
      { rewrite Hm. rewrite skipn_app, skipn_all, Nat.sub_diag. reflexivity. }
      rewrite Hrest.
      specialize (IH (length rest)).
      assert (Hlt : (length rest < len)%nat).
      { rewrite Hlen. simpl. rewrite Hm, length_app. lia. }
      specialize (IH Hlt rest eq_refl).
      destruct (sub_all p repl 0 rest) as [ out n ]. simpl in *.
      apply all_replaced_next with (before := []) (m := c :: m) (after := rest);
        auto.
      * simpl. now rewrite Hm.
      * simpl. now rewrite <- Hm.
      * intros b' m' a' _ _. simpl. lia.
    + assert (Hlt : (length s < len)%nat) by (rewrite Hlen; simpl; lia).
      specialize (IH (length s) Hlt s eq_refl).
      destruct (sub_all p repl 0 s) as [ out n ]. simpl in *.
      now apply all_replaced_cons.
Qed.

Lemma all_replaced_zero (p : list atom) (repl s out : text) (n : nat) :
  all_replaced p repl s out n -> (n = 0%nat <-> no_occurrence p s).
Proof.
  intros H. destruct H as [ s Hnone | s b m a out n Heq Hacc Hhere Hleft H ].
  - tauto.
  - split; [ discriminate | ]. intros Hnone. destruct (Hnone _ _ _ Heq Hacc).
Qed.

(** What [update_config] returns, by the count of the scan. *)
Lemma update_config_scan accent_hex fs :
  has_backslash accent_hex = false ->
  update_config accent_hex fs
  = let '(yaml_text, count) :=
      sub_all P_COLOR (str "'color': '" ++ accent_hex ++ str "'") 0
        (config_file fs) in
    match count with
    | O => (fs, Raise (PaletteError
                         "No color entries updated in config.yaml; expected at least one."))
    | S _ => (Files (css_file fs) yaml_text, Ok count)
    end.
Proof.
  intros Hb.
  assert (Hrepl : has_backslash (str "'color': '" ++ accent_hex ++ str "'") = false).
  { rewrite !has_backslash_app, Hb. reflexivity. }
  unfold update_config, re_subn. rewrite Hrepl.
  destruct (sub_all P_COLOR _ 0 (config_file fs)) as [ out [ | count ] ];
    reflexivity.
Qed.

(** C7. [update_config] replaces the occurrences of
    ['color': '#RRGGBB'], found from left to right, by the entry with the
    new accent. Without an occurrence it raises [PaletteError] and writes
    nothing; with [count] of them, one or more, it writes the new text and
    reports [count]. *)
Theorem update_config_replaces_all accent_hex fs :
  has_backslash accent_hex = false ->
  exists out count,
    all_replaced P_COLOR (str "'color': '" ++ accent_hex ++ str "'")
      (config_file fs) out count
    /\ (forall m, accepts P_COLOR m
                  <-> exists h, m = str "'color': '#" ++ h ++ str "'"
                                /\ length h = 6%nat
                                /\ forallb is_hex_digit h = true)
    /\ (count = 0%nat <-> no_occurrence P_COLOR (config_file fs))
    /\ (count = 0%nat ->
        exists msg, update_config accent_hex fs = (fs, Raise (PaletteError msg)))
    /\ (count <> 0%nat ->
        update_config accent_hex fs = (Files (css_file fs) out, Ok count)).
Proof.
  intros Hb.
  assert (Hne : forall m, accepts P_COLOR m -> m <> []).
  { intros m Hm. apply accepts_P_COLOR in Hm as (h & -> & _). discriminate. }
  pose proof (sub_all_spec P_COLOR (str "'color': '" ++ accent_hex ++ str "'")
                Hne (config_file fs)) as Hall.
  rewrite (update_config_scan accent_hex fs Hb).
  destruct (sub_all P_COLOR _ 0 (config_file fs)) as [ out count ]. simpl in Hall.
  exists out, count.
  split; [ exact Hall | ]. split; [ exact accepts_P_COLOR | ].
  split; [ eapply all_replaced_zero, Hall | ].
  split.
  - intros ->. eauto.
  - intros Hc. destruct count; [ congruence | reflexivity ].
Qed.

Lemma update_config_replaces_all_witness :
  exists out count,
    all_replaced P_COLOR (str "'color': '" ++ str "#112233" ++ str "'")
      (str "a: {'color': '#aaaaaa'}, b: {'color': '#BBBBBB'}") out count
    /\ (forall m, accepts P_COLOR m
                  <-> exists h, m = str "'color': '#" ++ h ++ str "'"
                                /\ length h = 6%nat
                                /\ forallb is_hex_digit h = true)
    /\ (count = 0%nat
        <-> no_occurrence P_COLOR
              (str "a: {'color': '#aaaaaa'}, b: {'color': '#BBBBBB'}"))
    /\ (count = 0%nat ->
        exists msg,
          update_config (str "#112233")
            (Files [] (str "a: {'color': '#aaaaaa'}, b: {'color': '#BBBBBB'}"))
          = (Files [] (str "a: {'color': '#aaaaaa'}, b: {'color': '#BBBBBB'}"),
             Raise (PaletteError msg)))
    /\ (count <> 0%nat ->
        update_config (str "#112233")
          (Files [] (str "a: {'color': '#aaaaaa'}, b: {'color': '#BBBBBB'}"))
        = (Files [] out, Ok count)).
Proof.
  apply (update_config_replaces_all (str "#112233")
           (Files [] (str "a: {'color': '#aaaaaa'}, b: {'color': '#BBBBBB'}"))).
  reflexivity.
Defined.

(** ** The run as a whole *)




(** ** Declarations: the text between two semicolons *)

Lemma semicolon_free_app (a b : text) :
  semicolon_free (a ++ b) = semicolon_free a && semicolon_free b.
Proof. apply forallb_app. Qed.

Lemma semicolon_free_cons (c : ascii) (s : text) :
  semicolon_free (c :: s) = true -> c <> ";"%char /\ semicolon_free s = true.
Proof.
  unfold semicolon_free. simpl. intros H.
  apply andb_true_iff in H as [ Hc H ]. split; [ | exact H ].
  intros ->. discriminate Hc.
Qed.

Lemma stmt_end_unique (x : text) :
  semicolon_free x = true ->
  forall y z, x ++ [";"%char] = y ++ ";"%char :: z -> y = x /\ z = [].
Proof.
  induction x as [ | c x IH ]; intros Hsf y z Heq.
  - destruct y as [ | c' y ]; simpl in Heq.
    + injection Heq as <-. auto.
    + injection Heq as _ Heq. destruct y; discriminate.
  - apply semicolon_free_cons in Hsf as [ Hc Hsf ].
    destruct y as [ | c' y ]; simpl in Heq.
    + injection Heq as -> _. congruence.
    + injection Heq as <- Heq. destruct (IH Hsf _ _ Heq) as [ -> -> ]. auto.
Qed.

Lemma first_semicolon_unique (a : text) :
  semicolon_free a = true ->
  forall b x y, semicolon_free b = true ->
                a ++ ";"%char :: x = b ++ ";"%char :: y -> a = b /\ x = y.
Proof.
  induction a as [ | c a IH ]; intros Ha b x y Hb Heq.
  - destruct b as [ | c' b ]; simpl in Heq.
    + injection Heq as <-. auto.
    + apply semicolon_free_cons in Hb as [ Hc _ ]. injection Heq as <- _. congruence.
  - apply semicolon_free_cons in Ha as [ Hc Ha ].
    destruct b as [ | c' b ]; simpl in Heq.
    + injection Heq as -> _. congruence.
    + apply semicolon_free_cons in Hb as [ _ Hb ]. injection Heq as <- Heq.
      destruct (IH Ha _ _ _ Hb Heq) as [ -> -> ]. auto.
Qed.

(** A text is one declaration followed by the rest, or has no [';']. *)
Lemma split_stmt (s : text) :
  semicolon_free s = true
  \/ exists sg rest, s = sg ++ ";"%char :: rest /\ semicolon_free sg = true.
Proof.
  induction s as [ | c s IH ]; [ now left | ].
  destruct (Ascii.eqb_spec c ";") as [ -> | Hc ].
  - right. exists [], s. auto.
  - destruct IH as [ Hs | (sg & rest & -> & Hsg) ].
    + left. unfold semicolon_free, not_semicolon. simpl.
      apply Ascii.eqb_neq in Hc. rewrite Hc. exact Hs.
    + right. exists (c :: sg), rest. split; [ reflexivity | ].
      unfold semicolon_free, not_semicolon. simpl.
      apply Ascii.eqb_neq in Hc. rewrite Hc. exact Hsg.
Qed.

Lemma search_unfold (p : list atom) (s : text) :
  search p s =
    match match_here p s with
    | Some rest => Some ([], rest)
    | None =>
        match s with
        | [] => None
        | c :: s' =>
            match search p s' with
            | Some (before, after) => Some (c :: before, after)
            | None => None
            end
        end
    end.
Proof. destruct s; reflexivity. Qed.

Lemma search_first (p : list atom) (m a : text) :
  accepts p m ->
  forall b, none_before p (b ++ m ++ a) (length b) ->
            exists a', search p (b ++ m ++ a) = Some (b, a').
Proof.
  intros Hacc. induction b as [ | c b IH ]; intros Hnb.
  - simpl. rewrite search_unfold.
    destruct (match_here_complete p m Hacc a) as [ r -> ]. eauto.
  - simpl. destruct (match_here p (c :: b ++ m ++ a)) as [ r | ] eqn:E.
    + destruct (match_here_sound _ _ _ E) as (m' & Hm' & Hacc').
      specialize (Hnb [] m' r Hm' Hacc'). simpl in Hnb. lia.
    + destruct IH as [ a' -> ]; [ | eauto ].
      intros b' m' a' Heq Hacc'.
      specialize (Hnb (c :: b') m' a'). simpl in Hnb.
      rewrite Heq in Hnb. specialize (Hnb eq_refl Hacc'). lia.
Qed.

Lemma search_nowhere (p : list atom) (s : text) :
  no_occurrence p s -> search p s = None.
Proof.
  intros Hnone. destruct (search p s) as [ [ b a ] | ] eqn:E; [ | reflexivity ].
  destruct (search_Some _ _ _ _ E) as (m & Hm & Hacc & _).
  destruct (Hnone _ _ _ Hm Hacc).
Qed.

Section StatementPattern.

Variable p : list atom.
Hypothesis p_stmt : statement_pattern p.

Lemma match_here_nil : match_here p [] = None.
Proof.
  destruct (match_here p []) as [ r | ] eqn:E; [ | reflexivity ].
  destruct (match_here_sound _ _ _ E) as (m & Hm & Hacc).
  symmetry in Hm. apply app_eq_nil in Hm as [ -> _ ].
  destruct (p_stmt [] Hacc) as (body & Hb & _). destruct body; discriminate.
Qed.

(** Whether the pattern matches at the head of a declaration does not
    depend on what follows the declaration. *)
Lemma match_here_stmt (sg rest : text) :
  semicolon_free sg = true ->
  match_here p (sg ++ ";"%char :: rest) =
    match match_here p (sg ++ [";"%char]) with
    | Some _ => Some rest
    | None => None
    end.
Proof.
  intros Hsf.
  destruct (match_here p (sg ++ ";"%char :: rest)) as [ r | ] eqn:E.
  - destruct (match_here_sound _ _ _ E) as (m & Hm & Hacc).
    destruct (p_stmt m Hacc) as (body & -> & _ & Hb).
    rewrite <- app_assoc in Hm. simpl in Hm.
    destruct (first_semicolon_unique _ Hsf _ _ _ Hb Hm) as [ <- <- ].
    destruct (match_here_complete p _ Hacc []) as [ r' Hr' ].
    rewrite app_nil_r in Hr'. now rewrite Hr'.
  - destruct (match_here p (sg ++ [";"%char])) as [ r' | ] eqn:E';
      [ | reflexivity ].
    destruct (match_here_sound _ _ _ E') as (m & Hm & Hacc).
    destruct (p_stmt m Hacc) as (body & -> & _ & Hb).
    rewrite <- app_assoc in Hm. simpl in Hm.
    destruct (stmt_end_unique _ Hsf _ _ Hm) as [ -> -> ].
    destruct (match_here_complete p _ Hacc rest) as [ r'' Hr'' ].
    rewrite <- app_assoc in Hr''. simpl in Hr''. congruence.
Qed.

(** The search goes through the text one declaration at a time. *)
Lemma search_stmt (sg rest : text) :
  semicolon_free sg = true ->
  search p (sg ++ ";"%char :: rest) =
    match search p (sg ++ [";"%char]) with
    | Some (pre, _) => Some (pre, rest)
    | None =>
        match search p rest with
        | Some (b, a) => Some (sg ++ ";"%char :: b, a)
        | None => None
        end
    end.
Proof.
  induction sg as [ | c sg IH ]; intros Hsf.
  - pose proof (match_here_stmt [] rest Hsf) as Hm. simpl in Hm.
    simpl. rewrite Hm, match_here_nil.
    destruct (match_here p [";"%char]); [ reflexivity | ].
    destruct (search p rest) as [ [ b a ] | ]; reflexivity.
  - pose proof (match_here_stmt (c :: sg) rest Hsf) as Hm. simpl in Hm.
    apply semicolon_free_cons in Hsf as [ _ Hsf ].
    simpl. rewrite Hm, (IH Hsf).
    destruct (match_here p (c :: sg ++ [";"%char])); [ reflexivity | ].
    destruct (search p (sg ++ [";"%char])) as [ [ pre a ] | ]; [ reflexivity | ].
    destruct (search p rest) as [ [ b a ] | ]; reflexivity.
Qed.

(** A match in a declaration ends with the declaration. *)
Lemma stmt_match (sg pre a : text) :
  semicolon_free sg = true ->
  search p (sg ++ [";"%char]) = Some (pre, a) ->
  a = []
  /\ exists tok, sg = pre ++ tok /\ tok <> []
                 /\ accepts p (tok ++ [";"%char])
                 /\ none_before p (sg ++ [";"%char]) (length pre).
Proof.
  intros Hsf E.
  destruct (search_Some _ _ _ _ E) as (m & Hm & Hacc & _ & Hnb).
  destruct (p_stmt m Hacc) as (tok & -> & Hne & Htok).
  assert (Heq : sg ++ [";"%char] = (pre ++ tok) ++ ";"%char :: a).
  { rewrite Hm, <- !app_assoc. reflexivity. }
  destruct (stmt_end_unique _ Hsf _ _ Heq) as [ Hsg -> ].
  split; [ reflexivity | ]. exists tok. auto.
Qed.

(** An occurrence in a declaration whose end has been overwritten by [rb]
    is the overwriting text, or was an occurrence before. *)
Lemma rewritten_occurrence (pre tok rb b' m' a' : text) :
  stable_under p rb -> no_inner_word p rb ->
  semicolon_free (pre ++ rb) = true -> tok <> [] -> semicolon_free tok = true ->
  (pre ++ rb) ++ [";"%char] = b' ++ m' ++ a' -> accepts p m' ->
  ((length b' < length pre)%nat
   /\ exists m'', accepts p m'' /\ (pre ++ tok) ++ [";"%char] = b' ++ m'' ++ [])
  \/ (b' = pre /\ m' = rb ++ [";"%char]).
Proof.
  intros Hstab Hinner Hsf Htok Htok_sf Heq Hacc.
  destruct (p_stmt m' Hacc) as (body & -> & _ & Hbody).
  assert (Heq' : (pre ++ rb) ++ [";"%char] = (b' ++ body) ++ ";"%char :: a').
  { rewrite Heq, <- !app_assoc. reflexivity. }
  destruct (stmt_end_unique _ Hsf _ _ Heq') as [ Hsplit -> ].
  apply app_eq_app in Hsplit as [ l [ [ Hb Hrb ] | [ Hpre Hbody' ] ] ].
  - destruct l as [ | c l ].
    + right. rewrite app_nil_r in Hb. simpl in Hrb. subst. auto.
    + exfalso. apply (Hinner (c :: l) body); [ discriminate | exact Hrb | ].
      exact Hacc.
  - destruct l as [ | c l ].
    + right. rewrite app_nil_r in Hpre. simpl in Hbody'. subst. auto.
    + left. split; [ rewrite Hpre, length_app; simpl; lia | ].
      exists ((c :: l) ++ tok ++ [";"%char]). split.
      * apply Hstab; [ discriminate | exact Htok | exact Htok_sf | ].
        rewrite app_assoc, <- Hbody'. exact Hacc.
      * rewrite Hpre, <- !app_assoc. reflexivity.
Qed.

(** The leftmost match of a declaration, overwritten by a word of the
    pattern, is again the leftmost match, at the same place. *)
Lemma stmt_own (sg pre a rb : text) :
  stable_under p rb -> no_inner_word p rb ->
  accepts p (rb ++ [";"%char]) -> semicolon_free rb = true ->
  semicolon_free sg = true ->
  search p (sg ++ [";"%char]) = Some (pre, a) ->
  search p ((pre ++ rb) ++ [";"%char]) = Some (pre, []).
Proof.
  intros Hstab Hinner Hrb Hrb_sf Hsf E.
  destruct (stmt_match _ _ _ Hsf E) as (-> & tok & -> & Htok & Hacc & Hnb).
  rewrite semicolon_free_app in Hsf. apply andb_true_iff in Hsf as [ Hpre Htok_sf ].
  assert (Hsf' : semicolon_free (pre ++ rb) = true)
    by (rewrite semicolon_free_app, Hpre, Hrb_sf; reflexivity).
  destruct (search_first p (rb ++ [";"%char]) [] Hrb pre) as [ a' Ha' ].
  - intros b' m' a' Heq Hacc'.
    rewrite app_nil_r, app_assoc in Heq.
    destruct (rewritten_occurrence pre tok rb b' m' a' Hstab Hinner Hsf' Htok
                Htok_sf Heq Hacc')
      as [ (Hlt & m'' & Hacc'' & Heq'') | [ -> _ ] ]; [ | lia ].
    specialize (Hnb _ _ _ Heq'' Hacc''). lia.
  - rewrite app_nil_r, app_assoc in Ha'. rewrite Ha'. f_equal. f_equal.
    destruct (search_Some _ _ _ _ Ha') as (m & Hm & Hacc' & _).
    destruct (p_stmt m Hacc') as (body & -> & _ & Hbody).
    assert (Heq : (pre ++ rb) ++ [";"%char] = (pre ++ body) ++ ";"%char :: a').
    { rewrite Hm, <- !app_assoc. reflexivity. }
    now destruct (stmt_end_unique _ Hsf' _ _ Heq) as [ _ -> ].
Qed.

(** A declaration without a match has none either when its end is
    overwritten by the replacement of another rule. *)
Lemma stmt_cross (pre tok rb : text) :
  stable_under p rb -> no_inner_word p rb ->
  ~ accepts p (rb ++ [";"%char]) -> semicolon_free rb = true ->
  semicolon_free (pre ++ tok) = true -> tok <> [] ->
  search p ((pre ++ tok) ++ [";"%char]) = None ->
  search p ((pre ++ rb) ++ [";"%char]) = None.
Proof.
  intros Hstab Hinner Hrb Hrb_sf Hsf Htok E.
  rewrite semicolon_free_app in Hsf. apply andb_true_iff in Hsf as [ Hpre Htok_sf ].
  assert (Hsf' : semicolon_free (pre ++ rb) = true)
    by (rewrite semicolon_free_app, Hpre, Hrb_sf; reflexivity).
  apply search_nowhere. intros b' m' a' Heq Hacc'.
  destruct (rewritten_occurrence pre tok rb b' m' a' Hstab Hinner Hsf' Htok
              Htok_sf Heq Hacc')
    as [ (Hlt & m'' & Hacc'' & Heq'') | [ _ -> ] ].
  - exact (search_None _ _ E _ _ _ Heq'' Hacc'').
  - exact (Hrb Hacc').
Qed.

End StatementPattern.

(** ** The loop of [update_css], one declaration at a time *)

Lemma apply_hit (pat : pattern) (repl : text) (rules : list (pattern * text))
    (s before after : text) :
  has_backslash repl = false ->
  search (pat_atoms pat) s = Some (before, after) ->
  apply_replacements ((pat, repl) :: rules) s
  = apply_replacements rules (before ++ repl ++ after).
Proof.
  intros Hb E. simpl. unfold re_subn1. now rewrite Hb, E.
Qed.

Lemma apply_miss (pat : pattern) (repl : text) (rules : list (pattern * text))
    (s : text) :
  has_backslash repl = false ->
  search (pat_atoms pat) s = None ->
  apply_replacements ((pat, repl) :: rules) s
  = Raise (PaletteError
             ("Failed to apply CSS replacement for pattern: " ++ pat_src pat)).
Proof.
  intros Hb E. simpl. unfold re_subn1. now rewrite Hb, E.
Qed.

Lemma apply_app (l1 l2 : list (pattern * text)) :
  forall s, apply_replacements (l1 ++ l2) s
            = match apply_replacements l1 s with
              | Ok s1 => apply_replacements l2 s1
              | Raise e => Raise e
              end.
Proof.
  induction l1 as [ | [ pat repl ] l1 IH ]; intros s; [ reflexivity | ].
  simpl. destruct (re_subn1 (pat_atoms pat) repl s) as [ [ s1 n ] | e ]; simpl;
    [ | reflexivity ].
  destruct (negb (n =? 1)%nat); [ reflexivity | apply IH ].
Qed.

(** Rules without a match in the first declaration work on the rest. *)
Lemma apply_pass (l : list (pattern * text)) (sg : text) :
  semicolon_free sg = true ->
  (forall x, x ∈ l ->
             has_backslash (snd x) = false
             /\ statement_pattern (pat_atoms (fst x))
             /\ search (pat_atoms (fst x)) (sg ++ [";"%char]) = None) ->
  forall rest,
    apply_replacements l (sg ++ ";"%char :: rest)
    = match apply_replacements l rest with
      | Ok rest' => Ok (sg ++ ";"%char :: rest')
      | Raise e => Raise e
      end.
Proof.
  intros Hsf. induction l as [ | [ pat repl ] l IH ]; intros Hl rest;
    [ reflexivity | ].
  destruct (Hl (pat, repl)) as (Hb & Hst & Hnone); [ left | ].
  simpl in Hb, Hst, Hnone.
  assert (Hl' : forall x, x ∈ l ->
                          has_backslash (snd x) = false
                          /\ statement_pattern (pat_atoms (fst x))
                          /\ search (pat_atoms (fst x)) (sg ++ [";"%char]) = None)
    by (intros x Hx; apply Hl; now right).
  pose proof (search_stmt _ Hst sg rest Hsf) as Hs. rewrite Hnone in Hs.
  destruct (search (pat_atoms pat) rest) as [ [ b a ] | ] eqn:E.
  - rewrite (apply_hit _ _ _ _ _ _ Hb Hs), (apply_hit _ _ _ _ _ _ Hb E).
    rewrite <- app_assoc. simpl. apply (IH Hl').
  - now rewrite (apply_miss _ _ _ _ Hb Hs), (apply_miss _ _ _ _ Hb E).
Qed.

Lemma semicolon_free_no_search (p : list atom) (s : text) :
  statement_pattern p -> semicolon_free s = true -> search p s = None.
Proof.
  intros Hst Hsf. apply search_nowhere. intros b m a Heq Hacc.
  destruct (Hst m Hacc) as (body & -> & _ & _).
  rewrite Heq, !semicolon_free_app in Hsf.
  apply andb_true_iff in Hsf as [ _ Hsf ]. apply andb_true_iff in Hsf as [ Hsf _ ].
  apply andb_true_iff in Hsf as [ _ Hsf ]. discriminate Hsf.
Qed.

(** The first rule, in the order of the loop, with a match in the
    declaration. *)
Lemma first_hit (l : list (pattern * text)) (st : text) :
  (forall x, x ∈ l -> search (pat_atoms (fst x)) st = None)
  \/ exists l1 x l2 pre a,
       l = l1 ++ x :: l2
       /\ (forall y, y ∈ l1 -> search (pat_atoms (fst y)) st = None)
       /\ search (pat_atoms (fst x)) st = Some (pre, a).
Proof.
  induction l as [ | x l IH ].
  - left. intros x Hx. inversion Hx.
  - destruct (search (pat_atoms (fst x)) st) as [ [ pre a ] | ] eqn:E.
    + right. exists [], x, l, pre, a. repeat split; auto.
      intros y Hy. inversion Hy.
    + destruct IH as [ Hnone | (l1 & y & l2 & pre & a & -> & Hl1 & Hy) ].
      * left. intros z Hz. apply elem_of_cons in Hz as [ -> | Hz ]; auto.
      * right. exists (x :: l1), y, l2, pre, a. repeat split; auto.
        intros z Hz. apply elem_of_cons in Hz as [ -> | Hz ]; auto.
Qed.

Lemma good_rules_remove (l1 l2 : list (pattern * text)) (x : pattern * text) :
  good_rules (l1 ++ x :: l2) -> good_rules (l1 ++ l2).
Proof.
  intros [ Hnd Hall ]. split.
  - apply NoDup_app in Hnd as (H1 & H12 & H2).
    apply NoDup_cons in H2 as [ _ H2 ].
    apply NoDup_app. repeat split; auto.
    intros z Hz Hz'. apply (H12 z Hz). now right.
  - assert (Hsub : forall z, z ∈ l1 ++ l2 -> z ∈ l1 ++ x :: l2).
    { intros z Hz. apply elem_of_app in Hz as [ Hz | Hz ]; apply elem_of_app;
        [ now left | right; now right ]. }
    intros z Hz. destruct (Hall z (Hsub z Hz)) as [ Hok Hcompat ].
    split; [ exact Hok | ]. intros y Hy. apply Hcompat. auto.
Qed.

(** Past a declaration in which neither rule has a match, the leftmost
    matches are those of the rest. *)
Lemma distinct_firsts_rest (l l' : list (pattern * text)) (sg rest : text) :
  semicolon_free sg = true ->
  (forall x, x ∈ l' -> x ∈ l) ->
  (forall x, x ∈ l' ->
             statement_pattern (pat_atoms (fst x))
             /\ search (pat_atoms (fst x)) (sg ++ [";"%char]) = None) ->
  distinct_firsts l (sg ++ ";"%char :: rest) ->
  distinct_firsts l' rest.
Proof.
  intros Hsf Hsub Hl' Hd x y Hx Hy Hxy bx ax by_ ay Ex Ey.
  destruct (Hl' x Hx) as [ Hstx Hnx ]. destruct (Hl' y Hy) as [ Hsty Hny ].
  pose proof (search_stmt _ Hstx sg rest Hsf) as Sx. rewrite Hnx, Ex in Sx.
  pose proof (search_stmt _ Hsty sg rest Hsf) as Sy. rewrite Hny, Ey in Sy.
  exact (Hd x y (Hsub x Hx) (Hsub y Hy) Hxy _ _ _ _ Sx Sy).
Qed.

(** When the leftmost matches of the rules lie in different declarations,
    and every replacement is a word of its own pattern that does not
    disturb the others, the loop leaves its own result as it is. *)
Lemma apply_replacements_idempotent (n : nat) :
  forall s, (length s <= n)%nat ->
  forall l s',
    good_rules l -> distinct_firsts l s ->
    apply_replacements l s = Ok s' -> apply_replacements l s' = Ok s'.
Proof.
  induction n as [ | n IH ]; intros s Hlen l s' Hgood Hdist Happ.
  - destruct s; [ | simpl in Hlen; lia ].
    destruct l as [ | [ pat repl ] l ]; [ simpl in *; congruence | ].
    destruct Hgood as [ _ Hall ].
    destruct (Hall (pat, repl)) as [ (Hb & Hst & _) _ ]; [ left | ].
    simpl in Hb, Hst.
    rewrite (apply_miss _ _ _ _ Hb (semicolon_free_no_search _ [] Hst eq_refl))
      in Happ.
    discriminate.
  - destruct (split_stmt s) as [ Hsf | (sg & rest & -> & Hsf) ].
    { destruct l as [ | [ pat repl ] l ]; [ simpl in *; congruence | ].
      destruct Hgood as [ _ Hall ].
      destruct (Hall (pat, repl)) as [ (Hb & Hst & _) _ ]; [ left | ].
      simpl in Hb, Hst.
      rewrite (apply_miss _ _ _ _ Hb (semicolon_free_no_search _ s Hst Hsf))
        in Happ.
      discriminate. }
    assert (Hrest : (length rest <= n)%nat).
    { rewrite length_app in Hlen. simpl in Hlen. lia. }
    pose proof Hgood as [ Hnd Hall ].
    destruct (first_hit l (sg ++ [";"%char]))
      as [ Hnone | (l1 & x & l2 & pre & a & -> & Hl1 & Hx) ].
    + (* no rule has a match in the first declaration *)
      assert (Hpass : forall x, x ∈ l ->
                 has_backslash (snd x) = false
                 /\ statement_pattern (pat_atoms (fst x))
                 /\ search (pat_atoms (fst x)) (sg ++ [";"%char]) = None).
      { intros x Hx. destruct (Hall x Hx) as [ (Hb & Hst & _) _ ]. auto. }
      rewrite (apply_pass l sg Hsf Hpass) in Happ.
      destruct (apply_replacements l rest) as [ rest' | ] eqn:Hr;
        [ | discriminate ].
      injection Happ as <-.
      rewrite (apply_pass l sg Hsf Hpass).
      rewrite (IH rest Hrest l rest' Hgood); [ reflexivity | | exact Hr ].
      apply (distinct_firsts_rest l l sg rest Hsf); auto.
      intros x Hx. destruct (Hpass x Hx) as (_ & ? & ?). auto.
    + (* [x] is the first rule with a match there *)
      destruct x as [ pat repl ].
      assert (Hx_in : (pat, repl) ∈ l1 ++ (pat, repl) :: l2)
        by (apply elem_of_app; right; left).
      destruct (Hall _ Hx_in)
        as [ (Hb & Hst & rb & Hrepl & Hrb_sf & Hown & Hstab & Hinner) Hcompat ].
      simpl in Hb, Hst, Hrepl, Hown, Hstab, Hinner, Hx.
      destruct (stmt_match _ Hst _ _ _ Hsf Hx)
        as (-> & tok & Hsg & Htok & Htok_acc & _).
      assert (Hsf' : semicolon_free (pre ++ rb) = true).
      { rewrite Hsg, semicolon_free_app in Hsf.
        apply andb_true_iff in Hsf as [ Hpre _ ].
        now rewrite semicolon_free_app, Hpre, Hrb_sf. }
      apply NoDup_app in Hnd as (Hnd1 & Hnd12 & Hnd2).
      apply NoDup_cons in Hnd2 as [ Hx_l2 Hnd2 ].
      (* the other rules have no match in the first declaration *)
      assert (Hothers : forall y, y ∈ l1 ++ l2 ->
                 has_backslash (snd y) = false
                 /\ statement_pattern (pat_atoms (fst y))
                 /\ search (pat_atoms (fst y)) (sg ++ [";"%char]) = None
                 /\ y <> (pat, repl)).
      { intros y Hy.
        assert (Hy_in : y ∈ l1 ++ (pat, repl) :: l2).
        { apply elem_of_app in Hy as [ Hy | Hy ]; apply elem_of_app;
            [ now left | right; now right ]. }
        destruct (Hall y Hy_in) as [ (Hby & Hsty & _) _ ].
        assert (Hne : y <> (pat, repl)).
        { intros ->. apply elem_of_app in Hy as [ Hy | Hy ].
          - apply (Hnd12 _ Hy). left.
          - exact (Hx_l2 Hy). }
        repeat split; auto.
        apply elem_of_app in Hy as [ Hy | Hy ]; [ now apply Hl1 | ].
        destruct (search (pat_atoms (fst y)) (sg ++ [";"%char]))
          as [ [ pre' a' ] | ] eqn:Ey; [ exfalso | reflexivity ].
        pose proof (search_stmt _ Hsty sg rest Hsf) as Sy. rewrite Ey in Sy.
        pose proof (search_stmt _ Hst sg rest Hsf) as Sx. rewrite Hx in Sx.
        exact (Hdist y (pat, repl) Hy_in Hx_in Hne _ _ _ _ Sy Sx eq_refl). }
      (* nor in the declaration as rewritten *)
      assert (Hothers' : forall y, y ∈ l1 ++ l2 ->
                 has_backslash (snd y) = false
                 /\ statement_pattern (pat_atoms (fst y))
                 /\ search (pat_atoms (fst y)) ((pre ++ rb) ++ [";"%char]) = None).
      { intros y Hy. destruct (Hothers y Hy) as (Hby & Hsty & Hny & Hne).
        repeat split; auto.
        assert (Hy_in : y ∈ l1 ++ (pat, repl) :: l2).
        { apply elem_of_app in Hy as [ Hy | Hy ]; apply elem_of_app;
            [ now left | right; now right ]. }
        destruct (Hcompat y Hy_in Hne) as (rb' & Hrepl' & Hstab' & Hinner' & Hnot).
        simpl in Hrepl', Hnot. rewrite Hrepl in Hrepl'.
        apply app_inj_tail in Hrepl' as [ <- _ ].
        rewrite Hsg in Hny, Hsf.
        apply (stmt_cross _ Hsty pre tok rb); auto. now rewrite <- Hrepl. }
      assert (Hin1 : forall y, y ∈ l1 -> y ∈ l1 ++ l2)
        by (intros y Hy; apply elem_of_app; now left).
      assert (Hin2 : forall y, y ∈ l2 -> y ∈ l1 ++ l2)
        by (intros y Hy; apply elem_of_app; now right).
      assert (Hpass1 : forall y, y ∈ l1 ->
                 has_backslash (snd y) = false
                 /\ statement_pattern (pat_atoms (fst y))
                 /\ search (pat_atoms (fst y)) (sg ++ [";"%char]) = None).
      { intros y Hy. destruct (Hothers y (Hin1 y Hy)) as (? & ? & ? & _). auto. }
      (* the first run *)
      rewrite apply_app, (apply_pass l1 sg Hsf Hpass1) in Happ.
      destruct (apply_replacements l1 rest) as [ rest1 | ] eqn:Hr1;
        [ | discriminate ].
      pose proof (search_stmt _ Hst sg rest1 Hsf) as Sx. rewrite Hx in Sx.
      rewrite (apply_hit _ _ _ _ _ _ Hb Sx) in Happ.
      rewrite Hrepl, <- app_assoc, app_assoc in Happ. simpl in Happ.
      rewrite (apply_pass l2 (pre ++ rb) Hsf'
                 (fun y Hy => Hothers' y (Hin2 y Hy))) in Happ.
      destruct (apply_replacements l2 rest1) as [ rest2 | ] eqn:Hr2;
        [ | discriminate ].
      injection Happ as <-.
      (* the rest, by induction, with the rules that are left *)
      assert (Hrest12 : apply_replacements (l1 ++ l2) rest = Ok rest2)
        by (now rewrite apply_app, Hr1).
      assert (Hidem : apply_replacements (l1 ++ l2) rest2 = Ok rest2).
      { apply (IH rest Hrest (l1 ++ l2) rest2); auto.
        - apply (good_rules_remove l1 l2 (pat, repl)). exact Hgood.
        - apply (distinct_firsts_rest (l1 ++ (pat, repl) :: l2) (l1 ++ l2)
                   sg rest Hsf); auto.
          + intros y Hy. apply elem_of_app in Hy as [ Hy | Hy ]; apply elem_of_app;
              [ now left | right; now right ].
          + intros y Hy. destruct (Hothers y Hy) as (_ & ? & ? & _). auto. }
      rewrite apply_app in Hidem.
      destruct (apply_replacements l1 rest2) as [ rest3 | ] eqn:Hr3;
        [ | discriminate ].
      (* the second run *)
      rewrite apply_app.
      rewrite (apply_pass l1 (pre ++ rb) Hsf'
                 (fun y Hy => Hothers' y (Hin1 y Hy))), Hr3.
      assert (Sown : search (pat_atoms pat) ((pre ++ rb) ++ [";"%char])
                     = Some (pre, [])).
      { apply (stmt_own _ Hst sg pre [] rb); auto. now rewrite <- Hrepl. }
      pose proof (search_stmt _ Hst (pre ++ rb) rest3 Hsf') as Sx'.
      rewrite Sown in Sx'.
      rewrite (apply_hit _ _ _ _ _ _ Hb Sx').
      rewrite Hrepl, <- app_assoc, app_assoc. simpl.
      rewrite (apply_pass l2 (pre ++ rb) Hsf'
                 (fun y Hy => Hothers' y (Hin2 y Hy))), Hidem.
      reflexivity.
Qed.

(** ** Hyphens *)

Lemma forallb_impl (f g : ascii -> bool) (s : text) :
  (forall c, implb (f c) (g c) = true) ->
  forallb f s = true -> forallb g s = true.
Proof.
  intros Himp. induction s as [ | c s IH ]; simpl; [ reflexivity | ].
  intros H. apply andb_true_iff in H as [ Hc H ].
  specialize (Himp c). rewrite Hc in Himp. simpl in Himp.
  now rewrite Himp, IH.
Qed.

Lemma dash_ok_app (x y : text) :
  dash_ok x = true -> dash_ok y = true -> dash_ok (x ++ y) = true.
Proof.
  intros Hx Hy. induction x as [ | c x IH ]; [ exact Hy | ].
  simpl in *. apply andb_true_iff in Hx as [ Hc Hx ].
  rewrite (IH Hx), andb_true_r.
  destruct x as [ | c' x ]; simpl in *; [ | exact Hc ].
  rewrite orb_false_r in Hc. now rewrite Hc.
Qed.

Lemma dash_free_ok (s : text) : dash_free s = true -> dash_ok s = true.
Proof.
  induction s as [ | c s IH ]; [ reflexivity | ].
  unfold dash_free. simpl. intros H. apply andb_true_iff in H as [ Hc H ].
  now rewrite Hc, (IH H).
Qed.

(** In such a text a hyphen is followed by another character. *)
Lemma dash_ok_at (x k : text) :
  dash_ok (x ++ "-"%char :: k) = true ->
  exists c k', k = c :: k' /\ Ascii.eqb c "-" = false.
Proof.
  induction x as [ | c x IH ]; simpl.
  - intros H. apply andb_true_iff in H as [ H _ ].
    destruct k as [ | c k' ]; [ discriminate | ].
    simpl in H. exists c, k'. split; [ reflexivity | ].
    now apply negb_true_iff.
  - intros H. apply andb_true_iff in H as [ _ H ]. auto.
Qed.

Lemma dash_ok_dec (z : Z) : dash_ok (dec z) = true.
Proof.
  assert (Hd : forall ds, forallb is_digit ds = true -> dash_free ds = true).
  { intros ds. apply forallb_impl. apply forall_ascii. vm_compute. reflexivity. }
  destruct (dec_shape z) as (ds & Hne & Hds & [ -> | -> ]).
  - apply dash_free_ok. auto.
  - destruct ds as [ | c ds ]; [ congruence | ].
    pose proof (Hd _ Hds) as Hfree.
    change (dash_ok ("-"%char :: c :: ds))
      with ((negb (Ascii.eqb "-" "-") || negb (Ascii.eqb c "-")) && dash_ok (c :: ds)).
    rewrite (dash_free_ok _ Hfree). unfold dash_free in Hfree. simpl in Hfree.
    apply andb_true_iff in Hfree as [ -> _ ]. reflexivity.
Qed.

Lemma dec_semicolon_free (z : Z) : semicolon_free (dec z) = true.
Proof.
  assert (Hd : forall ds, forallb is_digit ds = true -> semicolon_free ds = true).
  { intros ds. apply forallb_impl. apply forall_ascii. vm_compute. reflexivity. }
  destruct (dec_shape z) as (ds & _ & Hds & [ -> | -> ]).
  - auto.
  - unfold semicolon_free. simpl. apply (Hd _ Hds).
Qed.

Lemma dec_nonneg (z : Z) :
  0 <= z -> dec z <> [] /\ forallb is_digit (dec z) = true.
Proof.
  intros Hz. unfold dec. destruct z as [ | p | p ]; [ | | lia ].
  - split; [ discriminate | reflexivity ].
  - simpl. split.
    + destruct (Pos.to_uint p); discriminate.
    + destruct (Pos.to_uint p) eqn:E; try apply (string_of_uint_digits (_ u));
        reflexivity.
Qed.

(** A pattern whose words keep their hyphens apart after the first
    character is stable under a text that begins with two hyphens. *)
Lemma stable_by_dashes (q : list atom) (t : text) :
  (forall m, accepts q m -> dash_ok (tl m) = true) ->
  stable_under q ("-"%char :: "-"%char :: t).
Proof.
  intros Hq u y Hu _ _ Hacc. exfalso.
  destruct u as [ | c u ]; [ congruence | ].
  apply Hq in Hacc. simpl in Hacc.
  apply dash_ok_at in Hacc as (c' & k' & Hk & Hc').
  injection Hk as <- _. discriminate Hc'.
Qed.

(** No word that begins with two hyphens begins inside a text that keeps
    its hyphens apart after the first character. *)
Lemma no_inner_by_dashes (q : list atom) (rb : text) :
  (forall m, accepts q m -> exists t, m = "-"%char :: "-"%char :: t) ->
  dash_ok (tl rb) = true ->
  no_inner_word q rb.
Proof.
  intros Hq Hrb v body Hv -> Hacc.
  destruct (Hq _ Hacc) as [ t Ht ].
  destruct v as [ | c v ]; [ congruence | ]. simpl in Hrb.
  destruct body as [ | c1 [ | c2 body ] ]; simpl in Ht; try discriminate.
  injection Ht as -> -> _.
  apply dash_ok_at in Hrb as (c' & k' & Hk & Hc').
  injection Hk as <- _. discriminate Hc'.
Qed.

(** ** The three patterns of the stylesheet *)

Lemma class_semicolon_free (f : ascii -> bool) (s : text) :
  forallb (fun c => implb (f c) (not_semicolon c)) (map ascii_of_nat (seq 0 256))
  = true ->
  forallb f s = true -> semicolon_free s = true.
Proof. intros H. apply forallb_impl. now apply forall_ascii. Qed.

Lemma class_dash_free (f : ascii -> bool) (s : text) :
  forallb (fun c => implb (f c) (negb (Ascii.eqb c "-")))
    (map ascii_of_nat (seq 0 256)) = true ->
  forallb f s = true -> dash_free s = true.
Proof. intros H. apply forallb_impl. now apply forall_ascii. Qed.

Lemma P_ACCENT_stmt : statement_pattern (pat_atoms P_ACCENT).
Proof.
  intros m Hm. apply accepts_P_ACCENT in Hm as (ws & h & -> & Hws & Hlen & Hh).
  exists (str "--accent:" ++ ws ++ "#"%char :: h).
  split; [ now rewrite <- !app_assoc | ]. split; [ discriminate | ].
  rewrite !semicolon_free_app.
  rewrite (class_semicolon_free is_space ws eq_refl Hws).
  change (semicolon_free ("#"%char :: h)) with (semicolon_free h).
  now rewrite (class_semicolon_free is_hex_digit h eq_refl Hh).
Qed.

Lemma P_ACCENT_dashes (m : text) :
  accepts (pat_atoms P_ACCENT) m ->
  (exists t, m = "-"%char :: "-"%char :: t) /\ dash_ok (tl m) = true.
Proof.
  intros Hm. apply accepts_P_ACCENT in Hm as (ws & h & -> & Hws & Hlen & Hh).
  split; [ eexists; reflexivity | ].
  change (dash_ok (str "-accent:" ++ ws ++ "#"%char :: h ++ [";"%char]) = true).
  apply dash_ok_app; [ reflexivity | ]. apply dash_ok_app.
  - apply dash_free_ok, (class_dash_free is_space ws eq_refl Hws).
  - apply (dash_ok_app ["#"%char]); [ reflexivity | ].
    apply dash_ok_app; [ | reflexivity ].
    apply dash_free_ok, (class_dash_free is_hex_digit h eq_refl Hh).
Qed.

Lemma P_ACCENT_RGB_stmt : statement_pattern (pat_atoms P_ACCENT_RGB).
Proof.
  intros m Hm. apply accepts_P_ACCENT_RGB in Hm as (ws & run & -> & Hws & Hne & Hrun).
  exists (str "--accent-rgb:" ++ ws ++ run).
  split; [ now rewrite <- !app_assoc | ]. split; [ discriminate | ].
  rewrite !semicolon_free_app.
  rewrite (class_semicolon_free is_space ws eq_refl Hws).
  now rewrite (class_semicolon_free is_rgb_char run eq_refl Hrun).
Qed.

Lemma P_ACCENT_RGB_dashes (m : text) :
  accepts (pat_atoms P_ACCENT_RGB) m ->
  (exists t, m = "-"%char :: "-"%char :: t) /\ dash_ok (tl m) = true.
Proof.
  intros Hm. apply accepts_P_ACCENT_RGB in Hm as (ws & run & -> & Hws & Hne & Hrun).
  split; [ eexists; reflexivity | ].
  change (dash_ok (str "-accent-rgb:" ++ ws ++ run ++ [";"%char]) = true).
  apply dash_ok_app; [ reflexivity | ]. apply dash_ok_app.
  - apply dash_free_ok, (class_dash_free is_space ws eq_refl Hws).
  - apply dash_ok_app; [ | reflexivity ].
    apply dash_free_ok, (class_dash_free is_rgb_char run eq_refl Hrun).
Qed.

Lemma P_BACKGROUND_stmt : statement_pattern (pat_atoms P_BACKGROUND).
Proof.
  intros m Hm.
  apply accepts_P_BACKGROUND in Hm as (ws & body & -> & Hws & Hne & Hbody).
  exists (str "--yasb-background:" ++ ws ++ str "rgba(" ++ body).
  split; [ now rewrite <- !app_assoc | ]. split; [ discriminate | ].
  rewrite !semicolon_free_app.
  rewrite (class_semicolon_free is_space ws eq_refl Hws).
  change (semicolon_free body = true) in Hbody. now rewrite Hbody.
Qed.

Lemma P_BACKGROUND_starts (m : text) :
  accepts (pat_atoms P_BACKGROUND) m -> exists t, m = "-"%char :: "-"%char :: t.
Proof.
  intros Hm.
  apply accepts_P_BACKGROUND in Hm as (ws & body & -> & _). eexists. reflexivity.
Qed.

(** A word of the background pattern that runs into a text beginning with
    two hyphens has come past [rgba(] before: any other end will do. *)
Lemma P_BACKGROUND_stable (t : text) :
  stable_under (pat_atoms P_BACKGROUND) ("-"%char :: "-"%char :: t).
Proof.
  intros u y Hu Hy Hy_sf Hacc.
  apply accepts_P_BACKGROUND in Hacc as (ws & body & Heq & Hws & Hne & Hbody).
  rewrite !app_assoc in Heq. apply app_inj_tail in Heq as [ Heq _ ].
  rewrite <- !app_assoc in Heq.
  change (u ++ "-"%char :: "-"%char :: t
          = str "--yasb-background:" ++ ws ++ str "rgba(" ++ body) in Heq.
  rewrite !app_assoc in Heq.
  apply app_eq_app in Heq as [ l [ [ Hu' Hb ] | [ Hf Ht ] ] ].
  - (* [u] reaches past the fixed part *)
    apply accepts_P_BACKGROUND. exists ws, (l ++ y).
    split; [ rewrite Hu', <- !app_assoc; reflexivity | ].
    split; [ exact Hws | ]. split; [ destruct l; [ exact Hy | discriminate ] | ].
    change (semicolon_free body = true) in Hbody.
    rewrite Hb, semicolon_free_app in Hbody.
    apply andb_true_iff in Hbody as [ Hl _ ].
    change (semicolon_free (l ++ y) = true).
    now rewrite semicolon_free_app, Hl, Hy_sf.
  - (* the fixed part would hold the two hyphens *)
    destruct l as [ | c l ].
    + rewrite app_nil_r in Hf. simpl in Ht.
      apply accepts_P_BACKGROUND. exists ws, y.
      split; [ rewrite <- Hf, <- !app_assoc; reflexivity | ]. auto.
    + exfalso. destruct u as [ | c0 u ]; [ congruence | ].
      assert (Hfix : dash_ok (tl ((str "--yasb-background:" ++ ws) ++ str "rgba("))
                     = true).
      { rewrite <- app_assoc.
        change (dash_ok (str "-yasb-background:" ++ ws ++ str "rgba(") = true).
        apply dash_ok_app; [ reflexivity | ]. apply dash_ok_app; [ | reflexivity ].
        apply dash_free_ok, (class_dash_free is_space ws eq_refl Hws). }
      rewrite Hf in Hfix. simpl in Hfix, Ht. injection Ht as <- Ht.
      apply dash_ok_at in Hfix as (c' & k' & Hk & Hc').
      destruct l as [ | c1 l ]; [ discriminate Hk | ].
      injection Hk as <- _. simpl in Ht. injection Ht as <- _. discriminate Hc'.
Qed.

(** ** The replacement texts as words *)

(** A palette colour parses to a triple of bytes. *)
Lemma hex_color_rgb (s : text) :
  is_hex_color s = true ->
  exists r g b, hex_to_rgb s = Ok (r, g, b)
                /\ 0 <= r <= 255 /\ 0 <= g <= 255 /\ 0 <= b <= 255.
Proof.
  intros H.
  destruct (is_hex_color_inv s H) as (d1 & d2 & d3 & d4 & d5 & d6 & -> & Hd).
  repeat match goal with
         | Hf : Forall _ (_ :: _) |- _ => apply Forall_cons in Hf as [ ? Hf ]
         end.
  destruct (hex_pair d1 d2) as (r & Hr & Br & _); try assumption.
  destruct (hex_pair d3 d4) as (g & Hg & Bg & _); try assumption.
  destruct (hex_pair d5 d6) as (b & Hb & Bb & _); try assumption.
  exists r, g, b. split; [ | auto ].
  unfold hex_to_rgb. simpl lstrip. rewrite (hex_digit_not_hash d1) by assumption.
  unfold int16, slice2. simpl. rewrite Hr, Hg, Hb. reflexivity.
Qed.

Lemma accent_text_facts (accent_hex : text) :
  is_hex_color accent_hex = true ->
  (exists t, accent_text accent_hex = "-"%char :: "-"%char :: t)
  /\ dash_ok (tl (accent_text accent_hex)) = true
  /\ semicolon_free (accent_text accent_hex) = true
  /\ accepts (pat_atoms P_ACCENT) (accent_text accent_hex ++ [";"%char])
  /\ ~ accepts (pat_atoms P_ACCENT_RGB) (accent_text accent_hex ++ [";"%char])
  /\ ~ accepts (pat_atoms P_BACKGROUND) (accent_text accent_hex ++ [";"%char]).
Proof.
  intros H. unfold accent_text.
  destruct accent_hex as [ | c h ]; [ discriminate | ]. simpl in H.
  apply andb_true_iff in H as [ H Hh ]. apply andb_true_iff in H as [ Hc Hlen ].
  apply Ascii.eqb_eq in Hc as ->. apply Nat.eqb_eq in Hlen.
  split; [ eexists; reflexivity | ]. split; [ | split; [ | split; [ | split ] ] ].
  - change (dash_ok (str "-accent: " ++ "#"%char :: h) = true).
    apply dash_ok_app; [ reflexivity | ].
    apply (dash_ok_app ["#"%char]); [ reflexivity | ].
    apply dash_free_ok, (class_dash_free is_hex_digit h eq_refl Hh).
  - rewrite semicolon_free_app.
    change (semicolon_free ("#"%char :: h)) with (semicolon_free h).
    now rewrite (class_semicolon_free is_hex_digit h eq_refl Hh).
  - apply accepts_P_ACCENT. exists [" "%char], h. auto.
  - intros Hacc. apply accepts_P_ACCENT_RGB in Hacc as (ws & run & Heq & _).
    simpl in Heq. discriminate Heq.
  - intros Hacc. apply accepts_P_BACKGROUND in Hacc as (ws & body & Heq & _).
    simpl in Heq. discriminate Heq.
Qed.

Lemma accent_rgb_text_facts (ar ag ab : Z) :
  0 <= ar -> 0 <= ag -> 0 <= ab ->
  (exists t, accent_rgb_text (ar, ag, ab) = "-"%char :: "-"%char :: t)
  /\ dash_ok (tl (accent_rgb_text (ar, ag, ab))) = true
  /\ semicolon_free (accent_rgb_text (ar, ag, ab)) = true
  /\ accepts (pat_atoms P_ACCENT_RGB) (accent_rgb_text (ar, ag, ab) ++ [";"%char])
  /\ ~ accepts (pat_atoms P_ACCENT) (accent_rgb_text (ar, ag, ab) ++ [";"%char])
  /\ ~ accepts (pat_atoms P_BACKGROUND)
         (accent_rgb_text (ar, ag, ab) ++ [";"%char]).
Proof.
  intros Hr Hg Hb. unfold accent_rgb_text.
  split; [ eexists; reflexivity | ]. split; [ | split; [ | split; [ | split ] ] ].
  - change (dash_ok (str "-accent-rgb: " ++ dec ar ++ str ", " ++ dec ag
                     ++ str ", " ++ dec ab) = true).
    repeat (apply dash_ok_app; [ first [ reflexivity | apply dash_ok_dec ] | ]).
    apply dash_ok_dec.
  - rewrite !semicolon_free_app, !dec_semicolon_free. reflexivity.
  - apply accepts_P_ACCENT_RGB.
    exists [" "%char], (dec ar ++ str ", " ++ dec ag ++ str ", " ++ dec ab).
    split; [ now rewrite <- !app_assoc | ]. split; [ reflexivity | ].
    destruct (dec_nonneg ar Hr) as [ Hne Hdr ].
    destruct (dec_nonneg ag Hg) as [ _ Hdg ].
    destruct (dec_nonneg ab Hb) as [ _ Hdb ].
    split; [ destruct (dec ar); [ congruence | discriminate ] | ].
    assert (Hd : forall ds, forallb is_digit ds = true ->
                            forallb is_rgb_char ds = true).
    { intros ds. apply forallb_impl. apply forall_ascii. vm_compute. reflexivity. }
    rewrite !forallb_app, (Hd _ Hdr), (Hd _ Hdg), (Hd _ Hdb). reflexivity.
  - intros Hacc. apply accepts_P_ACCENT in Hacc as (ws & h & Heq & _).
    simpl in Heq. discriminate Heq.
  - intros Hacc. apply accepts_P_BACKGROUND in Hacc as (ws & body & Heq & _).
    simpl in Heq. discriminate Heq.
Qed.

Lemma background_text_facts (background_rgb : Z * Z * Z) :
  (exists t, background_text background_rgb = "-"%char :: "-"%char :: t)
  /\ dash_ok (tl (background_text background_rgb)) = true
  /\ semicolon_free (background_text background_rgb) = true
  /\ accepts (pat_atoms P_BACKGROUND) (background_text background_rgb ++ [";"%char])
  /\ ~ accepts (pat_atoms P_ACCENT) (background_text background_rgb ++ [";"%char])
  /\ ~ accepts (pat_atoms P_ACCENT_RGB)
         (background_text background_rgb ++ [";"%char]).
Proof.
  destruct background_rgb as [ [ br bg ] bb ]. unfold background_text.
  split; [ eexists; reflexivity | ]. split; [ | split; [ | split; [ | split ] ] ].
  - change (dash_ok (str "-yasb-background: rgba(" ++ dec br ++ str ", " ++ dec bg
                     ++ str ", " ++ dec bb ++ str ", 0.72)") = true).
    repeat (apply dash_ok_app; [ first [ reflexivity | apply dash_ok_dec ] | ]).
    reflexivity.
  - rewrite !semicolon_free_app, !dec_semicolon_free. reflexivity.
  - apply accepts_P_BACKGROUND.
    exists [" "%char],
      (dec br ++ str ", " ++ dec bg ++ str ", " ++ dec bb ++ str ", 0.72)").
    split; [ now rewrite <- !app_assoc | ]. split; [ reflexivity | ].
    split.
    + destruct (dec_shape br) as (ds & Hne & _ & [ -> | -> ]);
        [ destruct ds; [ congruence | discriminate ] | discriminate ].
    + change (semicolon_free (dec br ++ str ", " ++ dec bg ++ str ", " ++ dec bb
                              ++ str ", 0.72)") = true).
      rewrite !semicolon_free_app, !dec_semicolon_free. reflexivity.
  - intros Hacc. apply accepts_P_ACCENT in Hacc as (ws & h & Heq & _).
    simpl in Heq. discriminate Heq.
  - intros Hacc. apply accepts_P_ACCENT_RGB in Hacc as (ws & run & Heq & _).
    simpl in Heq. discriminate Heq.
Qed.

(** Each of the three patterns is stable under, and has no word inside, a
    text that begins with two hyphens and has no other two in a row. *)
Lemma stylesheet_pattern_facts (q : list atom) (rb : text) :
  q = pat_atoms P_ACCENT \/ q = pat_atoms P_ACCENT_RGB
  \/ q = pat_atoms P_BACKGROUND ->
  (exists t, rb = "-"%char :: "-"%char :: t) -> dash_ok (tl rb) = true ->
  statement_pattern q /\ stable_under q rb /\ no_inner_word q rb.
Proof.
  intros Hq [ t -> ] Hrb. destruct Hq as [ -> | [ -> | -> ] ].
  - split; [ exact P_ACCENT_stmt | split ].
    + apply stable_by_dashes. intros m Hm. apply (P_ACCENT_dashes m Hm).
    + apply no_inner_by_dashes; [ | exact Hrb ].
      intros m Hm. apply (P_ACCENT_dashes m Hm).
  - split; [ exact P_ACCENT_RGB_stmt | split ].
    + apply stable_by_dashes. intros m Hm. apply (P_ACCENT_RGB_dashes m Hm).
    + apply no_inner_by_dashes; [ | exact Hrb ].
      intros m Hm. apply (P_ACCENT_RGB_dashes m Hm).
  - split; [ exact P_BACKGROUND_stmt | split ].
    + apply P_BACKGROUND_stable.
    + apply no_inner_by_dashes; [ exact P_BACKGROUND_starts | exact Hrb ].
Qed.

Lemma good_replacements accent_hex (ar ag ab : Z) background_rgb :
  is_hex_color accent_hex = true -> 0 <= ar -> 0 <= ag -> 0 <= ab ->
  hex_to_rgb accent_hex = Ok (ar, ag, ab) ->
  good_rules (replacements accent_hex (ar, ag, ab) background_rgb).
Proof.
  intros Hacc Hr Hg Hb Hrgb.
  pose proof (replacements_no_backslash accent_hex (ar, ag, ab) background_rgb
                (hex_to_rgb_no_backslash _ _ Hrgb)) as Hbs.
  rewrite replacements_texts in *.
  apply Forall_cons in Hbs as [ Hb1 Hbs ].
  apply Forall_cons in Hbs as [ Hb2 Hbs ].
  apply Forall_cons in Hbs as [ Hb3 _ ].
  destruct (accent_text_facts accent_hex Hacc) as (S1 & D1 & F1 & A11 & A12 & A13).
  destruct (accent_rgb_text_facts ar ag ab Hr Hg Hb)
    as (S2 & D2 & F2 & A22 & A21 & A23).
  destruct (background_text_facts background_rgb)
    as (S3 & D3 & F3 & A33 & A31 & A32).
  assert (Q1 : pat_atoms P_ACCENT = pat_atoms P_ACCENT \/
               pat_atoms P_ACCENT = pat_atoms P_ACCENT_RGB \/
               pat_atoms P_ACCENT = pat_atoms P_BACKGROUND) by auto.
  assert (Q2 : pat_atoms P_ACCENT_RGB = pat_atoms P_ACCENT \/
               pat_atoms P_ACCENT_RGB = pat_atoms P_ACCENT_RGB \/
               pat_atoms P_ACCENT_RGB = pat_atoms P_BACKGROUND) by auto.
  assert (Q3 : pat_atoms P_BACKGROUND = pat_atoms P_ACCENT \/
               pat_atoms P_BACKGROUND = pat_atoms P_ACCENT_RGB \/
               pat_atoms P_BACKGROUND = pat_atoms P_BACKGROUND) by auto.
  assert (N12 : (P_ACCENT, accent_text accent_hex ++ [";"%char])
                <> (P_ACCENT_RGB, accent_rgb_text (ar, ag, ab) ++ [";"%char])).
  { intros E. apply (f_equal (fun x => pat_src (fst x))) in E. discriminate E. }
  assert (N13 : (P_ACCENT, accent_text accent_hex ++ [";"%char])
                <> (P_BACKGROUND, background_text background_rgb ++ [";"%char])).
  { intros E. apply (f_equal (fun x => pat_src (fst x))) in E. discriminate E. }
  assert (N23 : (P_ACCENT_RGB, accent_rgb_text (ar, ag, ab) ++ [";"%char])
                <> (P_BACKGROUND, background_text background_rgb ++ [";"%char])).
  { intros E. apply (f_equal (fun x => pat_src (fst x))) in E. discriminate E. }
  split.
  - repeat (apply NoDup_cons; split);
      rewrite ?not_elem_of_cons; repeat split;
      try apply not_elem_of_nil; try apply NoDup_nil; auto.
  - intros x Hx.
    repeat (apply elem_of_cons in Hx as [ -> | Hx ]); [ | | | inversion Hx ].
    + split.
      * destruct (stylesheet_pattern_facts _ _ Q1 S1 D1) as (? & ? & ?).
        split; [ exact Hb1 | ]. split; [ assumption | ].
        exists (accent_text accent_hex). auto 10.
      * intros y Hy Hne.
        repeat (apply elem_of_cons in Hy as [ -> | Hy ]);
          [ congruence | | | inversion Hy ];
          exists (accent_text accent_hex); (split; [ reflexivity | ]).
        -- destruct (stylesheet_pattern_facts _ _ Q2 S1 D1) as (? & ? & ?). auto.
        -- destruct (stylesheet_pattern_facts _ _ Q3 S1 D1) as (? & ? & ?). auto.
    + split.
      * destruct (stylesheet_pattern_facts _ _ Q2 S2 D2) as (? & ? & ?).
        split; [ exact Hb2 | ]. split; [ assumption | ].
        exists (accent_rgb_text (ar, ag, ab)). auto 10.
      * intros y Hy Hne.
        repeat (apply elem_of_cons in Hy as [ -> | Hy ]);
          [ | congruence | | inversion Hy ];
          exists (accent_rgb_text (ar, ag, ab)); (split; [ reflexivity | ]).
        -- destruct (stylesheet_pattern_facts _ _ Q1 S2 D2) as (? & ? & ?). auto.
        -- destruct (stylesheet_pattern_facts _ _ Q3 S2 D2) as (? & ? & ?). auto.
    + split.
      * destruct (stylesheet_pattern_facts _ _ Q3 S3 D3) as (? & ? & ?).
        split; [ exact Hb3 | ]. split; [ assumption | ].
        exists (background_text background_rgb). auto 10.
      * intros y Hy Hne.
        repeat (apply elem_of_cons in Hy as [ -> | Hy ]);
          [ | | congruence | inversion Hy ];
          exists (background_text background_rgb); (split; [ reflexivity | ]).
        -- destruct (stylesheet_pattern_facts _ _ Q1 S3 D3) as (? & ? & ?). auto.
        -- destruct (stylesheet_pattern_facts _ _ Q2 S3 D3) as (? & ? & ?). auto.
Qed.

(** ** Where the leftmost matches end *)

(** Two matches that share no character end at different places. *)
Lemma ends_differ_disjoint (p q : list atom) (s bx ax by_ ay : text) :
  statement_pattern p -> statement_pattern q ->
  search p s = Some (bx, ax) -> search q s = Some (by_, ay) ->
  ((length s - length ax <= length by_)%nat
   \/ (length s - length ay <= length bx)%nat) ->
  length ax <> length ay.
Proof.
  intros Hp Hq Ex Ey Hdis Hlen.
  destruct (search_Some _ _ _ _ Ex) as (mx & Hx & Hax & _).
  destruct (search_Some _ _ _ _ Ey) as (my & Hy & Hay & _).
  destruct (Hp mx Hax) as (tx & -> & _). destruct (Hq my Hay) as (ty & -> & _).
  assert (Lx : length s = (length bx + (length tx + 1) + length ax)%nat).
  { rewrite Hx, !length_app. simpl. lia. }
  assert (Ly : length s = (length by_ + (length ty + 1) + length ay)%nat).
  { rewrite Hy, !length_app. simpl. lia. }
  lia.
Qed.

(** Two patterns whose words begin with two hyphens, have no other two in
    a row and differ never have their leftmost matches end together. *)
Lemma ends_differ_dashes (p q : list atom) (s bx ax by_ ay : text) :
  (forall m, accepts p m ->
             (exists t, m = "-"%char :: "-"%char :: t) /\ dash_ok (tl m) = true) ->
  (forall m, accepts q m ->
             (exists t, m = "-"%char :: "-"%char :: t) /\ dash_ok (tl m) = true) ->
  (forall m, accepts p m -> ~ accepts q m) ->
  search p s = Some (bx, ax) -> search q s = Some (by_, ay) ->
  length ax <> length ay.
Proof.
  intros Hp Hq Hpq Ex Ey Hlen.
  destruct (search_Some _ _ _ _ Ex) as (mx & Hx & Hax & _).
  destruct (search_Some _ _ _ _ Ey) as (my & Hy & Hay & _).
  rewrite Hx, !app_assoc in Hy.
  apply app_inj_2 in Hy as [ Hy _ ]; [ | exact Hlen ].
  destruct (Hp mx Hax) as [ [ tx Hsx ] Hdx ].
  destruct (Hq my Hay) as [ [ ty Hsy ] Hdy ].
  apply app_eq_app in Hy as [ l [ [ _ Hm ] | [ _ Hm ] ] ].
  - destruct l as [ | c l ].
    + simpl in Hm. subst my. exact (Hpq mx Hax Hay).
    + rewrite Hm, Hsx in Hdy. simpl in Hdy.
      apply dash_ok_at in Hdy as (c' & k' & Hk & Hc').
      injection Hk as <- _. discriminate Hc'.
  - destruct l as [ | c l ].
    + simpl in Hm. subst mx. exact (Hpq my Hax Hay).
    + rewrite Hm, Hsy in Hdx. simpl in Hdx.
      apply dash_ok_at in Hdx as (c' & k' & Hk & Hc').
      injection Hk as <- _. discriminate Hc'.
Qed.

Lemma accent_words_differ (m : text) :
  accepts (pat_atoms P_ACCENT) m -> ~ accepts (pat_atoms P_ACCENT_RGB) m.
Proof.
  intros H1 H2. apply accepts_P_ACCENT in H1 as (ws & h & -> & _).
  apply accepts_P_ACCENT_RGB in H2 as (ws' & run & Heq & _).
  simpl in Heq. discriminate Heq.
Qed.

Lemma disjoint_ranges_ends (p q : pattern) (s bx ax by_ ay : text) :
  statement_pattern (pat_atoms p) -> statement_pattern (pat_atoms q) ->
  disjoint_ranges (match_range p s) (match_range q s) = true ->
  search (pat_atoms p) s = Some (bx, ax) ->
  search (pat_atoms q) s = Some (by_, ay) ->
  length ax <> length ay.
Proof.
  intros Hp Hq Hdis Ex Ey. unfold match_range in Hdis. rewrite Ex, Ey in Hdis.
  simpl in Hdis. apply orb_true_iff in Hdis.
  apply (ends_differ_disjoint _ _ s bx ax by_ ay Hp Hq Ex Ey).
  destruct Hdis as [ H | H ]; apply Nat.leb_le in H; auto.
Qed.

Lemma replacements_distinct_firsts accent_hex accent_rgb background_rgb
    (css : text) :
  disjoint_ranges (match_range P_ACCENT css) (match_range P_BACKGROUND css) = true ->
  disjoint_ranges (match_range P_ACCENT_RGB css) (match_range P_BACKGROUND css)
  = true ->
  distinct_firsts (replacements accent_hex accent_rgb background_rgb) css.
Proof.
  intros H13 H23. rewrite replacements_texts.
  intros x y Hx Hy Hne bx ax by_ ay Ex Ey.
  repeat (apply elem_of_cons in Hx as [ -> | Hx ]); [ | | | inversion Hx ];
    (repeat (apply elem_of_cons in Hy as [ -> | Hy ]); [ | | | inversion Hy ]);
    try congruence; simpl in Ex, Ey.
  - exact (ends_differ_dashes _ _ css bx ax by_ ay P_ACCENT_dashes
             P_ACCENT_RGB_dashes accent_words_differ Ex Ey).
  - exact (disjoint_ranges_ends P_ACCENT P_BACKGROUND css bx ax by_ ay
             P_ACCENT_stmt P_BACKGROUND_stmt H13 Ex Ey).
  - intros E. symmetry in E. revert E.
    exact (ends_differ_dashes _ _ css by_ ay bx ax P_ACCENT_dashes
             P_ACCENT_RGB_dashes accent_words_differ Ey Ex).
  - exact (disjoint_ranges_ends P_ACCENT_RGB P_BACKGROUND css bx ax by_ ay
             P_ACCENT_RGB_stmt P_BACKGROUND_stmt H23 Ex Ey).
  - intros E. symmetry in E. revert E.
    exact (disjoint_ranges_ends P_ACCENT P_BACKGROUND css by_ ay bx ax
             P_ACCENT_stmt P_BACKGROUND_stmt H13 Ey Ex).
  - intros E. symmetry in E. revert E.
    exact (disjoint_ranges_ends P_ACCENT_RGB P_BACKGROUND css by_ ay bx ax
             P_ACCENT_RGB_stmt P_BACKGROUND_stmt H23 Ey Ex).
Qed.

(** C8, as the code has it. For an accent that is ['#'] and six
    hexadecimal digits and any background triple: when the stylesheet
    update succeeds on a stylesheet in which the leftmost match of the
    background pattern shares no character with the leftmost matches of
    the two accent patterns, a second update with the same accent and
    background succeeds and leaves the files exactly as the first did. *)
Theorem update_css_idempotent accent_hex background_rgb (fs fs' : files) :
  is_hex_color accent_hex = true ->
  disjoint_ranges (match_range P_ACCENT (css_file fs))
    (match_range P_BACKGROUND (css_file fs)) = true ->
  disjoint_ranges (match_range P_ACCENT_RGB (css_file fs))
    (match_range P_BACKGROUND (css_file fs)) = true ->
  update_css accent_hex background_rgb fs = (fs', Ok tt) ->
  update_css accent_hex background_rgb fs' = (fs', Ok tt).
Proof.
  intros Hacc H13 H23 Hfirst.
  destruct (hex_color_rgb accent_hex Hacc) as (ar & ag & ab & Hrgb & Br & Bg & Bb).
  unfold update_css, new_css in *. rewrite Hrgb in *. cbn [bind] in *.
  destruct (apply_replacements
              (replacements accent_hex (ar, ag, ab) background_rgb) (css_file fs))
    as [ css' | ] eqn:Happ; [ | discriminate ].
  injection Hfirst as <-. cbn [css_file config_file].
  rewrite (apply_replacements_idempotent (length (css_file fs)) (css_file fs)
             (Nat.le_refl _)
             (replacements accent_hex (ar, ag, ab) background_rgb) css');
    [ reflexivity | | | exact Happ ].
  - apply good_replacements; auto; lia.
  - now apply replacements_distinct_firsts.
Qed.

(** C8 as stated fails: here the background declaration reaches over the
    accent declaration. The first update succeeds and removes the accent
    the second update then looks for in vain. *)
Lemma update_css_not_idempotent :
  is_hex_color (str "#112233") = true
  /\ update_css (str "#112233") (0, 0, 0) (Files swallowing_css [])
     = (Files (str "--accent-rgb: 17, 34, 51;--yasb-background: rgba(0, 0, 0, 0.72);") [],
        Ok tt)
  /\ update_css (str "#112233") (0, 0, 0)
       (Files (str "--accent-rgb: 17, 34, 51;--yasb-background: rgba(0, 0, 0, 0.72);") [])
     = (Files (str "--accent-rgb: 17, 34, 51;--yasb-background: rgba(0, 0, 0, 0.72);") [],
        Raise (PaletteError
                 "Failed to apply CSS replacement for pattern: --accent:\s*#[0-9a-fA-F]{6};")).
Proof. repeat split; vm_compute; reflexivity. Qed.

Lemma update_css_idempotent_witness :
  update_css (str "#3a6ea5") (18, 18, 18)
    (Files (str ":root { --accent: #3a6ea5; --accent-rgb: 58, 110, 165; --yasb-background: rgba(18, 18, 18, 0.72); }") [])
  = (Files (str ":root { --accent: #3a6ea5; --accent-rgb: 58, 110, 165; --yasb-background: rgba(18, 18, 18, 0.72); }") [],
     Ok tt).
Proof.
  apply (update_css_idempotent (str "#3a6ea5") (18, 18, 18) (Files ex_css []));
    vm_compute; reflexivity.
Defined.

(** * Further properties *)

(** ** The strings [hex_to_rgb] reads *)

(** [int(_, 16)] on two characters, by running through all pairs. *)
Lemma int_pair_parse (c1 c2 : ascii) :
  parse_int16 [c1; c2]
  = if int_pair c1 c2 then Some (int_pair_value c1 c2) else None.
Proof.
  pose (check := fun a b =>
    match parse_int16 [a; b] with
    | Some v => int_pair a b && (v =? int_pair_value a b)
    | None => negb (int_pair a b)
    end).
  assert (Hall : forall a b, check a b = true)
    by (apply forall_ascii2; vm_compute; reflexivity).
  specialize (Hall c1 c2). unfold check in Hall.
  destruct (parse_int16 [c1; c2]) as [ v | ].
  - apply andb_true_iff in Hall as [ -> Hv ]. apply Z.eqb_eq in Hv. now subst.
  - apply negb_true_iff in Hall. now rewrite Hall.
Qed.

Lemma hex_value_bounds (c : ascii) : 0 <= hex_value c <= 15.
Proof.
  assert (Hall : forall a, (0 <=? hex_value a) && (hex_value a <=? 15) = true)
    by (apply forall_ascii; vm_compute; reflexivity).
  specialize (Hall c). apply andb_true_iff in Hall as [ H1 H2 ]. lia.
Qed.

Lemma int_pair_bounds (c1 c2 : ascii) :
  -15 <= int_pair_value c1 c2 <= 255
  /\ (Ascii.eqb c1 "-" = false -> 0 <= int_pair_value c1 c2).
Proof.
  pose proof (hex_value_bounds c1). pose proof (hex_value_bounds c2).
  unfold int_pair_value.
  destruct (is_hex_digit c1), (is_hex_digit c2), (Ascii.eqb c1 "-");
    split; try lia; discriminate.
Qed.

(** [hex_to_rgb] on a string that has six characters after its ['#']s. *)
Lemma hex_to_rgb_six (s : text) (c1 c2 c3 c4 c5 c6 : ascii) :
  lstrip "#" s = [c1; c2; c3; c4; c5; c6] ->
  hex_to_rgb s
  = if int_pair c1 c2 && int_pair c3 c4 && int_pair c5 c6
    then Ok (int_pair_value c1 c2, int_pair_value c3 c4, int_pair_value c5 c6)
    else Raise ValueError.
Proof.
  intros H. unfold hex_to_rgb. rewrite H. unfold int16, slice2.
  cbn [length Nat.eqb negb skipn firstn].
  rewrite !int_pair_parse.
  destruct (int_pair c1 c2); [ | reflexivity ].
  destruct (int_pair c3 c4); [ | reflexivity ].
  destruct (int_pair c5 c6); reflexivity.
Qed.

Lemma length_six (s : text) :
  length s = 6%nat -> exists c1 c2 c3 c4 c5 c6, s = [c1; c2; c3; c4; c5; c6].
Proof.
  destruct s as [ | c1 [ | c2 [ | c3 [ | c4 [ | c5 [ | c6 [ | ] ] ] ] ] ] ];
    try discriminate.
  eauto 10.
Qed.

(** What an accepted string looks like. *)
Lemma hex_to_rgb_Ok (s : text) (rgb : Z * Z * Z) :
  hex_to_rgb s = Ok rgb ->
  exists c1 c2 c3 c4 c5 c6,
    lstrip "#" s = [c1; c2; c3; c4; c5; c6]
    /\ int_pair c1 c2 = true /\ int_pair c3 c4 = true /\ int_pair c5 c6 = true
    /\ rgb = (int_pair_value c1 c2, int_pair_value c3 c4, int_pair_value c5 c6).
Proof.
  intros H.
  assert (Hlen : length (lstrip "#" s) = 6%nat).
  { unfold hex_to_rgb in H.
    destruct (Nat.eqb_spec (length (lstrip "#" s)) 6); [ assumption | discriminate ]. }
  destruct (length_six _ Hlen) as (c1 & c2 & c3 & c4 & c5 & c6 & Hs).
  rewrite (hex_to_rgb_six s _ _ _ _ _ _ Hs) in H.
  exists c1, c2, c3, c4, c5, c6.
  destruct (int_pair c1 c2); [ | discriminate ].
  destruct (int_pair c3 c4); [ | discriminate ].
  destruct (int_pair c5 c6); [ | discriminate ].
  injection H as <-. auto.
Qed.

(** X1. Which exception [hex_to_rgb] raises, and what it accepts beside
    digits. After the leading ['#']s are taken off: a rest that is not six
    characters long raises [PaletteError] with the whole string in the
    message; a rest of six characters never does: it gives a triple or
    raises [ValueError]. Three pairs that are each two hexadecimal digits,
    or one digit with a sign or a blank before it or a blank after it, are
    accepted and give their values. *)
Theorem hex_to_rgb_outcome (s : text) :
  (length (lstrip "#" s) <> 6%nat ->
   hex_to_rgb s
   = Raise (PaletteError ("Unexpected color format: " ++ string_of_list_ascii s)))
  /\ (length (lstrip "#" s) = 6%nat ->
      (exists rgb, hex_to_rgb s = Ok rgb) \/ hex_to_rgb s = Raise ValueError)
  /\ (forall c1 c2 c3 c4 c5 c6,
         lstrip "#" s = [c1; c2; c3; c4; c5; c6] ->
         int_pair c1 c2 && int_pair c3 c4 && int_pair c5 c6 = true ->
         hex_to_rgb s = Ok (int_pair_value c1 c2, int_pair_value c3 c4,
                            int_pair_value c5 c6)).
Proof.
  split; [ | split ].
  - intros Hlen. unfold hex_to_rgb.
    destruct (Nat.eqb_spec (length (lstrip "#" s)) 6); [ congruence | reflexivity ].
  - intros Hlen.
    destruct (length_six _ Hlen) as (c1 & c2 & c3 & c4 & c5 & c6 & Hs).
    rewrite (hex_to_rgb_six s _ _ _ _ _ _ Hs).
    destruct (int_pair c1 c2 && int_pair c3 c4 && int_pair c5 c6); eauto.
  - intros c1 c2 c3 c4 c5 c6 H Hpairs.
    rewrite (hex_to_rgb_six s _ _ _ _ _ _ H), Hpairs. reflexivity.
Qed.

(** X2. On six hexadecimal digits, of either case, each channel is sixteen
    times the value of its first digit plus the value of its second,
    whether the string begins with one ['#'], with none or with several. *)
Theorem hex_to_rgb_digits (d1 d2 d3 d4 d5 d6 : ascii) (n : nat) :
  forallb is_hex_digit [d1; d2; d3; d4; d5; d6] = true ->
  hex_to_rgb (repeat "#"%char n ++ [d1; d2; d3; d4; d5; d6])
  = Ok (16 * hex_value d1 + hex_value d2,
        16 * hex_value d3 + hex_value d4,
        16 * hex_value d5 + hex_value d6).
Proof.
  intros H. cbn [forallb] in H.
  repeat (apply andb_true_iff in H as [ ? H ]).
  assert (Hstrip : lstrip "#" (repeat "#"%char n ++ [d1; d2; d3; d4; d5; d6])
                   = [d1; d2; d3; d4; d5; d6]).
  { induction n as [ | n IH ]; [ | exact IH ].
    simpl. now rewrite (hex_digit_not_hash d1). }
  rewrite (hex_to_rgb_six _ _ _ _ _ _ _ Hstrip).
  unfold int_pair, int_pair_value.
  repeat match goal with Hd : is_hex_digit _ = true |- _ => rewrite Hd; clear Hd end.
  reflexivity.
Qed.

Lemma hex_to_rgb_digits_witness :
  hex_to_rgb (repeat "#"%char 1 ++ [ "3"; "A"; "6"; "e"; "a"; "5" ]%char)
  = Ok (16 * hex_value "3" + hex_value "A",
        16 * hex_value "6" + hex_value "e",
        16 * hex_value "a" + hex_value "5").
Proof. apply (hex_to_rgb_digits "3" "A" "6" "e" "a" "5" 1). reflexivity. Defined.

Lemma no_minus_lstrip (s : text) :
  existsb (Ascii.eqb "-") s = false ->
  existsb (Ascii.eqb "-") (lstrip "#" s) = false.
Proof.
  induction s as [ | c s IH ]; simpl; [ reflexivity | ].
  intros H. apply orb_false_iff in H as [ Hc H ].
  destruct (Ascii.eqb c "#"); [ auto | ]. simpl. now rewrite Hc, H.
Qed.

(** X3. Whatever string [hex_to_rgb] accepts, each channel lies between
    -15 and 255, and none is negative when the string has no minus sign;
    with one, the lower bound is reached. *)
Theorem hex_to_rgb_channel_bounds (s : text) (r g b : Z) :
  hex_to_rgb s = Ok (r, g, b) ->
  (-15 <= r <= 255 /\ -15 <= g <= 255 /\ -15 <= b <= 255)
  /\ (existsb (Ascii.eqb "-") s = false -> 0 <= r /\ 0 <= g /\ 0 <= b)
  /\ hex_to_rgb (str "#-f-f-f") = Ok (-15, -15, -15).
Proof.
  intros H. split; [ | split; [ | reflexivity ] ];
    destruct (hex_to_rgb_Ok _ _ H)
      as (c1 & c2 & c3 & c4 & c5 & c6 & Hs & _ & _ & _ & [= -> -> ->]).
  - repeat split; apply int_pair_bounds.
  - intros Hm. apply no_minus_lstrip in Hm. rewrite Hs in Hm.
    cbn [existsb] in Hm.
    repeat (apply orb_false_iff in Hm as [ ? Hm ]).
    repeat split; apply int_pair_bounds; rewrite Ascii.eqb_sym; assumption.
Qed.

Lemma hex_to_rgb_channel_bounds_witness :
  (-15 <= 58 <= 255 /\ -15 <= 110 <= 255 /\ -15 <= 165 <= 255)
  /\ (existsb (Ascii.eqb "-") (str "#3a6ea5") = false
      -> 0 <= 58 /\ 0 <= 110 /\ 0 <= 165)
  /\ hex_to_rgb (str "#-f-f-f") = Ok (-15, -15, -15).
Proof. apply (hex_to_rgb_channel_bounds (str "#3a6ea5")). reflexivity. Defined.

(** [str.lower] leaves what [hex_to_rgb] looks at as it is. *)
Lemma lower_char_facts (c : ascii) :
  Ascii.eqb (lower_char c) "#" = Ascii.eqb c "#"
  /\ is_hex_digit (lower_char c) = is_hex_digit c
  /\ is_sign (lower_char c) = is_sign c
  /\ is_int_space (lower_char c) = is_int_space c
  /\ hex_value (lower_char c) = hex_value c
  /\ Ascii.eqb (lower_char c) "-" = Ascii.eqb c "-".
Proof.
  pose (check := fun a =>
    Bool.eqb (Ascii.eqb (lower_char a) "#") (Ascii.eqb a "#")
    && Bool.eqb (is_hex_digit (lower_char a)) (is_hex_digit a)
    && Bool.eqb (is_sign (lower_char a)) (is_sign a)
    && Bool.eqb (is_int_space (lower_char a)) (is_int_space a)
    && (hex_value (lower_char a) =? hex_value a)
    && Bool.eqb (Ascii.eqb (lower_char a) "-") (Ascii.eqb a "-")).
  assert (Hall : forall a, check a = true)
    by (apply forall_ascii; vm_compute; reflexivity).
  specialize (Hall c). unfold check in Hall.
  repeat (apply andb_true_iff in Hall as [ Hall ? ]).
  repeat match goal with
         | Hb : Bool.eqb _ _ = true |- _ => apply Bool.eqb_prop in Hb
         | Hz : (_ =? _) = true |- _ => apply Z.eqb_eq in Hz
         end.
  auto 10.
Qed.

Lemma lstrip_lower (s : text) : lstrip "#" (lower s) = lower (lstrip "#" s).
Proof.
  induction s as [ | c s IH ]; [ reflexivity | ]. simpl.
  destruct (lower_char_facts c) as (-> & _).
  destruct (Ascii.eqb c "#"); [ exact IH | reflexivity ].
Qed.

Lemma int_pair_lower (c1 c2 : ascii) :
  int_pair (lower_char c1) (lower_char c2) = int_pair c1 c2
  /\ int_pair_value (lower_char c1) (lower_char c2) = int_pair_value c1 c2.
Proof.
  destruct (lower_char_facts c1) as (_ & H1 & S1 & W1 & V1 & M1).
  destruct (lower_char_facts c2) as (_ & H2 & S2 & W2 & V2 & M2).
  unfold int_pair, int_pair_value.
  now rewrite H1, H2, S1, W1, W2, V1, V2, M1.
Qed.

(** [hex_to_rgb] after [str.lower], on characters of the Latin-1 range:
    the same triple or the same [ValueError]; a [PaletteError] differs by
    the string it quotes. *)
Lemma hex_to_rgb_lower_eq (s : text) :
  hex_to_rgb (lower s)
  = match hex_to_rgb s with
    | Raise (PaletteError _) =>
        Raise (PaletteError
                 ("Unexpected color format: " ++ string_of_list_ascii (lower s)))
    | r => r
    end.
Proof.
  destruct (Nat.eq_dec (length (lstrip "#" s)) 6%nat) as [ Hlen | Hlen ].
  - destruct (length_six _ Hlen) as (c1 & c2 & c3 & c4 & c5 & c6 & Hs).
    assert (Hl : lstrip "#" (lower s)
                 = [lower_char c1; lower_char c2; lower_char c3;
                    lower_char c4; lower_char c5; lower_char c6])
      by (now rewrite lstrip_lower, Hs).
    rewrite (hex_to_rgb_six _ _ _ _ _ _ _ Hl), (hex_to_rgb_six _ _ _ _ _ _ _ Hs).
    destruct (int_pair_lower c1 c2) as [ -> -> ].
    destruct (int_pair_lower c3 c4) as [ -> -> ].
    destruct (int_pair_lower c5 c6) as [ -> -> ].
    destruct (int_pair c1 c2 && int_pair c3 c4 && int_pair c5 c6); reflexivity.
  - unfold hex_to_rgb. rewrite lstrip_lower. unfold lower at 1.
    rewrite length_map.
    destruct (Nat.eqb_spec (length (lstrip "#" s)) 6); [ congruence | reflexivity ].
Qed.

(** X4. Lower-casing a colour string, as [main] does with the accent
    before it hands it to [update_css], neither loses nor changes a colour:
    [hex_to_rgb] accepts the lower-cased string exactly when it accepts the
    string, and with the same triple. Which exception a rejected string
    raises is no part of the statement. *)
Theorem hex_to_rgb_lower (s : text) (rgb : Z * Z * Z) :
  hex_to_rgb (lower s) = Ok rgb <-> hex_to_rgb s = Ok rgb.
Proof.
  rewrite hex_to_rgb_lower_eq.
  destruct (hex_to_rgb s) as [ rgb' | [ msg | | ] ]; split; congruence.
Qed.

(** ** More on the accent selection *)

Lemma map_result_parses (background_lum : float) (hs : list text) :
  forall ranked, map_result (rank background_lum) hs = Ok ranked ->
                 forallb parses hs = true.
Proof.
  induction hs as [ | h hs IH ]; simpl; intros ranked; [ reflexivity | ].
  unfold rank at 1, parses at 1.
  destruct (hex_to_rgb h); simpl; [ | discriminate ].
  destruct (map_result (rank background_lum) hs) as [ cs | ]; simpl;
    [ | discriminate ].
  intros _. eapply IH. reflexivity.
Qed.

Lemma map_result_raises (background_lum : float) (good rest : list text)
    (bad : text) (e : exn) :
  forallb parses good = true -> hex_to_rgb bad = Raise e ->
  map_result (rank background_lum) (good ++ bad :: rest) = Raise e.
Proof.
  intros Hgood Hbad. induction good as [ | h good IH ]; simpl.
  - unfold rank. now rewrite Hbad.
  - simpl in Hgood. apply andb_true_iff in Hgood as [ Hh Hgood ].
    unfold rank at 1. unfold parses in Hh.
    destruct (hex_to_rgb h); [ | discriminate ]. simpl.
    now rewrite (IH Hgood).
Qed.

Lemma get_truthy_Some (d : gmap string text) (k : string) (v : text) :
  get_truthy d k = Some v <-> d !! k = Some v /\ v <> [].
Proof.
  unfold get_truthy. destruct (d !! k) as [ [ | c w ] | ]; simpl; split;
    try discriminate; try (intros [ H _ ]; discriminate H).
  - intros [ [= <-] H ]. congruence.
  - intros [= <-]. split; [ reflexivity | discriminate ].
  - intros [ [= <-] _ ]. reflexivity.
Qed.

(** Where an enumerated colour comes from. *)
Lemma candidate_colors_elem colors special (h : text) :
  h ∈ candidate_colors colors special
  <-> h <> []
      /\ ((exists key, key ∈ ACCENT_PRIORITY /\ colors !! key = Some h)
          \/ special !! "foreground"%string = Some h).
Proof.
  unfold candidate_colors. rewrite elem_of_app, list_elem_of_omap. split.
  - intros [ (key & Hkey & Hv) | Hf ].
    + apply get_truthy_Some in Hv as [ Hv Hne ]. eauto.
    + destruct (get_truthy special "foreground") as [ f | ] eqn:E;
        [ | inversion Hf ].
      apply list_elem_of_singleton in Hf as ->.
      apply get_truthy_Some in E as [ E Hne ]. auto.
  - intros [ Hne [ (key & Hkey & Hv) | Hf ] ].
    + left. exists key. split; [ exact Hkey | ]. now apply get_truthy_Some.
    + right. assert (E : get_truthy special "foreground" = Some h)
        by now apply get_truthy_Some.
      rewrite E. now left.
Qed.

(** X5. [choose_accent] invents nothing: the colour it returns is a
    non-empty value of the palette, either the value of the slot the
    override names or a string [hex_to_rgb] accepts that is stored in one
    of the seven priority slots or as the special foreground. *)
Theorem choose_accent_from_palette env_slot colors special background_rgb
    (h : text) :
  choose_accent env_slot colors special background_rgb = Ok h ->
  h <> []
  /\ ((exists slot, env_slot = Some slot /\ slot <> ""%string
                    /\ colors !! slot = Some h)
      \/ (parses h = true
          /\ ((exists key, key ∈ ACCENT_PRIORITY /\ colors !! key = Some h)
              \/ special !! "foreground"%string = Some h))).
Proof.
  unfold choose_accent.
  destruct (env_candidate env_slot colors) as [ v | ] eqn:Henv.
  - intros [= ->]. unfold env_candidate in Henv.
    destruct env_slot as [ slot | ]; [ | discriminate ].
    destruct slot as [ | c slot ]; [ discriminate | ]. simpl in Henv.
    apply get_truthy_Some in Henv as [ Hv Hne ].
    split; [ exact Hne | ]. left. eexists. repeat split; eauto; discriminate.
  - cbv zeta.
    destruct (map_result _ (candidate_colors colors special))
      as [ ranked | ] eqn:Hranked; [ | discriminate ].
    cbn [bind]. pose proof (map_result_hex _ _ _ Hranked) as Hhex.
    pose proof (map_result_parses _ _ _ Hranked) as Hparse.
    assert (Hin : forall c, c ∈ ranked ->
                            cand_hex c ∈ candidate_colors colors special).
    { intros c Hc. rewrite <- Hhex. now apply list_elem_of_fmap_2. }
    assert (Hgoal : forall c, c ∈ ranked -> Ok (cand_hex c) = Ok h ->
              h <> []
              /\ ((exists slot, env_slot = Some slot /\ slot <> ""%string
                                /\ colors !! slot = Some h)
                  \/ (parses h = true
                      /\ ((exists key, key ∈ ACCENT_PRIORITY
                                       /\ colors !! key = Some h)
                          \/ special !! "foreground"%string = Some h)))).
    { intros c Hc [= <-]. pose proof (Hin c Hc) as Hel.
      rewrite forallb_forall in Hparse.
      pose proof (Hparse _ (proj1 (list_elem_of_In _ _) Hel)) as Hp.
      apply candidate_colors_elem in Hel as [ Hne Hfrom ]. auto. }
    destruct ranked as [ | first others ]; [ discriminate | ].
    destruct (find primary (first :: others)) as [ c | ] eqn:Hfind.
    + apply Hgoal. now apply find_elem in Hfind.
    + apply Hgoal.
      destruct (min_from_spec closeness first others) as (b & a & Heq & _).
      rewrite Heq. apply elem_of_app. right. left.
Qed.

Lemma choose_accent_from_palette_witness :
  str "#3a6ea5" <> []
  /\ ((exists slot, None = Some slot /\ slot <> ""%string
                    /\ ex_colors !! slot = Some (str "#3a6ea5"))
      \/ (parses (str "#3a6ea5") = true
          /\ ((exists key, key ∈ ACCENT_PRIORITY
                           /\ ex_colors !! key = Some (str "#3a6ea5"))
              \/ ex_special !! "foreground"%string = Some (str "#3a6ea5")))).
Proof.
  apply (choose_accent_from_palette None ex_colors ex_special ex_background).
  reflexivity.
Defined.

Lemma get_truthy_insert_ne (d : gmap string text) (k key : string) (v : text) :
  k <> key -> get_truthy (<[ k := v ]> d) key = get_truthy d key.
Proof. intros Hne. unfold get_truthy. now rewrite lookup_insert_ne. Qed.

Lemma candidate_colors_insert colors special (k : string) (v : text) :
  k ∉ ACCENT_PRIORITY ->
  candidate_colors (<[ k := v ]> colors) special = candidate_colors colors special.
Proof.
  intros Hk. unfold candidate_colors. f_equal.
  induction ACCENT_PRIORITY as [ | key keys IH ]; [ reflexivity | ].
  apply not_elem_of_cons in Hk as [ Hne Hk ]. cbn [omap list_omap].
  now rewrite (get_truthy_insert_ne _ _ _ _ Hne), (IH Hk).
Qed.

(** X6. The selection looks at nothing but the seven priority slots, the
    slot the override names and the special foreground: a value written
    to any other slot of [colors] and one written to any other key of
    [special] leave the result as it is. *)
Theorem choose_accent_other_keys env_slot colors special background_rgb
    (k k' : string) (v v' : text) :
  k ∉ ACCENT_PRIORITY -> env_slot <> Some k -> k' <> "foreground"%string ->
  choose_accent env_slot (<[ k := v ]> colors) (<[ k' := v' ]> special)
    background_rgb
  = choose_accent env_slot colors special background_rgb.
Proof.
  intros Hk Henv Hk'. unfold choose_accent.
  assert (Hc : candidate_colors (<[ k := v ]> colors) (<[ k' := v' ]> special)
               = candidate_colors colors special).
  { rewrite (candidate_colors_insert _ _ _ _ Hk). unfold candidate_colors.
    now rewrite (get_truthy_insert_ne _ _ _ _ Hk'). }
  assert (He : env_candidate env_slot (<[ k := v ]> colors)
               = env_candidate env_slot colors).
  { unfold env_candidate. destruct env_slot as [ slot | ]; [ | reflexivity ].
    rewrite get_truthy_insert_ne by congruence. reflexivity. }
  now rewrite Hc, He.
Qed.

Lemma choose_accent_other_keys_witness :
  choose_accent (Some "color5"%string)
    (<[ "color0"%string := str "#808080" ]> ex_colors)
    (<[ "background"%string := str "#ffffff" ]> ex_special) ex_background
  = choose_accent (Some "color5"%string) ex_colors ex_special ex_background.
Proof.
  apply (choose_accent_other_keys (Some "color5"%string) ex_colors ex_special
           ex_background "color0" "background" (str "#808080") (str "#ffffff")).
  - intros H. repeat (apply elem_of_cons in H as [ H | H ]; [ discriminate H | ]).
    inversion H.
  - discriminate.
  - discriminate.
Defined.

(** X7. A malformed colour stops the selection wherever it stands in the
    enumeration: every colour is parsed before any is chosen, so the
    exception of the first colour [hex_to_rgb] rejects is the result, even
    when a colour before it would pass the primary test. *)
Theorem choose_accent_malformed env_slot colors special background_rgb
    (good rest : list text) (bad : text) (e : exn) :
  env_candidate env_slot colors = None ->
  candidate_colors colors special = good ++ bad :: rest ->
  forallb parses good = true ->
  hex_to_rgb bad = Raise e ->
  choose_accent env_slot colors special background_rgb = Raise e.
Proof.
  intros Henv Hcands Hgood Hbad. unfold choose_accent. rewrite Henv. cbv zeta.
  rewrite Hcands, (map_result_raises _ good rest bad e Hgood Hbad). reflexivity.
Qed.

Lemma choose_accent_malformed_witness :
  choose_accent None
    (<[ "color4"%string := str "#3a6ea5" ]> (<[ "color7"%string := str "#fff" ]> ∅))
    ∅ (18, 18, 18)
  = Raise (PaletteError "Unexpected color format: #fff").
Proof.
  apply (choose_accent_malformed None _ ∅ (18, 18, 18)
           [ str "#3a6ea5" ] [] (str "#fff")); reflexivity.
Defined.

(** X8. A palette that offers a single colour gets it as accent whatever
    its luminance and its contrast to the background: the fallback has no
    threshold. *)
Theorem choose_accent_single env_slot colors special background_rgb (h : text) :
  env_candidate env_slot colors = None ->
  candidate_colors colors special = [h] ->
  parses h = true ->
  choose_accent env_slot colors special background_rgb = Ok h.
Proof.
  intros Henv Hcands Hparse.
  destruct (map_result_total (relative_luminance background_rgb) [h])
    as [ ranked Hranked ]; [ simpl; now rewrite Hparse | ].
  pose proof (map_result_hex _ _ _ Hranked) as Hhex.
  rewrite <- Hcands in Hranked.
  rewrite (choose_accent_ranked _ _ _ _ _ Henv Hranked).
  destruct ranked as [ | c [ | c' ranked ] ]; try discriminate.
  injection Hhex as <-. simpl. destruct (primary c); reflexivity.
Qed.

Lemma choose_accent_single_witness :
  choose_accent None (<[ "color7"%string := str "#000000" ]> ∅) ∅ (0, 0, 0)
  = Ok (str "#000000").
Proof.
  apply (choose_accent_single None _ ∅ (0, 0, 0) (str "#000000")); reflexivity.
Defined.

(** ** When the stylesheet update succeeds *)

Lemma occurs_search (p : list atom) (s : text) :
  occurs p s <-> exists before after, search p s = Some (before, after).
Proof.
  split.
  - intros (b & m & a & Heq & Hacc).
    destruct (search p s) as [ [ b' a' ] | ] eqn:E; [ eauto | ].
    destruct (search_None _ _ E _ _ _ Heq Hacc).
  - intros (b & a & E).
    destruct (search_Some _ _ _ _ E) as (m & Hm & Hacc & _).
    exists b, m, a. auto.
Qed.

Lemma not_occurs_search (p : list atom) (s : text) :
  ~ occurs p s <-> search p s = None.
Proof.
  rewrite occurs_search. destruct (search p s) as [ [ b a ] | ]; split;
    try congruence.
  - intros H. destruct H. eauto.
  - intros _ (b' & a' & H). discriminate.
Qed.

(** An occurrence in a text of which the end of one declaration has been
    overwritten by [rb] was an occurrence before, when [rb] is no word of
    the pattern, holds none and completes none. *)
Lemma occurs_rewritten (q : list atom) (b tok rb a : text) :
  statement_pattern q -> stable_under q rb -> no_inner_word q rb ->
  ~ accepts q (rb ++ [";"%char]) ->
  semicolon_free rb = true -> tok <> [] -> semicolon_free tok = true ->
  occurs q (b ++ (rb ++ [";"%char]) ++ a) ->
  occurs q (b ++ (tok ++ [";"%char]) ++ a).
Proof.
  intros Hq Hstab Hinner Hnot Hrb Htok Htok_sf (b' & m' & a' & Heq & Hacc).
  destruct (Hq m' Hacc) as (body & -> & Hbody_ne & Hbody).
  rewrite <- !app_assoc in Heq. simpl in Heq.
  apply app_eq_app in Heq as [ l [ [ Hb HY ] | [ Hb' HX ] ] ].
  - (* the occurrence begins in [b] *)
    destruct (split_stmt l) as [ Hl | (sg & rest & -> & Hsg) ].
    + assert (Hsf : semicolon_free (l ++ rb) = true)
        by (now rewrite semicolon_free_app, Hl, Hrb).
      rewrite app_assoc in HY.
      destruct (first_semicolon_unique _ Hbody _ _ _ Hsf HY) as [ -> <- ].
      destruct l as [ | c l ]; [ now destruct Hnot | ].
      exists b', ((c :: l) ++ tok ++ [";"%char]), a'. split.
      * rewrite Hb, <- !app_assoc. reflexivity.
      * apply Hstab; [ discriminate | exact Htok | exact Htok_sf | ].
        now rewrite app_assoc.
    + rewrite <- app_assoc in HY. simpl in HY.
      destruct (first_semicolon_unique _ Hbody _ _ _ Hsg HY) as [ -> -> ].
      exists b', (sg ++ [";"%char]), (rest ++ (tok ++ [";"%char]) ++ a). split.
      * rewrite Hb, <- !app_assoc. reflexivity.
      * exact Hacc.
  - (* the occurrence begins at the end of [b] or after it *)
    destruct (split_stmt l) as [ Hl | (sg & rest & -> & Hsg) ].
    + assert (Hsf : semicolon_free (l ++ body) = true)
        by (now rewrite semicolon_free_app, Hl, Hbody).
      rewrite app_assoc in HX.
      destruct (first_semicolon_unique _ Hrb _ _ _ Hsf HX) as [ -> _ ].
      destruct l as [ | c l ]; [ now destruct Hnot | ].
      exfalso. apply (Hinner (c :: l) body); [ discriminate | reflexivity | ].
      exact Hacc.
    + rewrite <- app_assoc in HX. simpl in HX.
      destruct (first_semicolon_unique _ Hrb _ _ _ Hsg HX) as [ -> -> ].
      exists (b ++ (tok ++ [";"%char]) ++ rest), (body ++ [";"%char]), a'. split.
      * rewrite <- !app_assoc. reflexivity.
      * exact Hacc.
Qed.

(** The words of the two accent patterns without their final [';']. *)
Lemma P_ACCENT_body (tok : text) :
  accepts (pat_atoms P_ACCENT) (tok ++ [";"%char]) ->
  (exists t, tok = "-"%char :: "-"%char :: t) /\ dash_ok (tl tok) = true
  /\ ~ accepts (pat_atoms P_ACCENT_RGB) (tok ++ [";"%char])
  /\ ~ accepts (pat_atoms P_BACKGROUND) (tok ++ [";"%char]).
Proof.
  intros Hm. pose proof Hm as Hm'.
  apply accepts_P_ACCENT in Hm as (ws & h & Heq & Hws & Hlen & Hh).
  assert (Htok : tok = str "--accent:" ++ ws ++ "#"%char :: h).
  { change (tok ++ [";"%char]
            = str "--accent:" ++ ws ++ ("#"%char :: h) ++ [";"%char]) in Heq.
    rewrite !app_assoc in Heq. apply app_inj_tail in Heq as [ Heq _ ].
    now rewrite <- !app_assoc in Heq. }
  split; [ rewrite Htok; eexists; reflexivity | ]. split; [ | split ].
  - rewrite Htok.
    change (dash_ok (str "-accent:" ++ ws ++ "#"%char :: h) = true).
    apply dash_ok_app; [ reflexivity | ]. apply dash_ok_app.
    + apply dash_free_ok, (class_dash_free is_space ws eq_refl Hws).
    + apply (dash_ok_app ["#"%char]); [ reflexivity | ].
      apply dash_free_ok, (class_dash_free is_hex_digit h eq_refl Hh).
  - now apply accent_words_differ.
  - intros Hacc. apply accepts_P_BACKGROUND in Hacc as (ws' & body & Heq' & _).
    rewrite Htok in Heq'. simpl in Heq'. discriminate Heq'.
Qed.

Lemma P_ACCENT_RGB_body (tok : text) :
  accepts (pat_atoms P_ACCENT_RGB) (tok ++ [";"%char]) ->
  (exists t, tok = "-"%char :: "-"%char :: t) /\ dash_ok (tl tok) = true
  /\ ~ accepts (pat_atoms P_BACKGROUND) (tok ++ [";"%char]).
Proof.
  intros Hm.
  apply accepts_P_ACCENT_RGB in Hm as (ws & run & Heq & Hws & Hne & Hrun).
  assert (Htok : tok = str "--accent-rgb:" ++ ws ++ run).
  { rewrite !app_assoc in Heq. apply app_inj_tail in Heq as [ Heq _ ].
    now rewrite <- !app_assoc in Heq. }
  split; [ rewrite Htok; eexists; reflexivity | ]. split.
  - rewrite Htok.
    change (dash_ok (str "-accent-rgb:" ++ ws ++ run) = true).
    apply dash_ok_app; [ reflexivity | ]. apply dash_ok_app.
    + apply dash_free_ok, (class_dash_free is_space ws eq_refl Hws).
    + apply dash_free_ok, (class_dash_free is_rgb_char run eq_refl Hrun).
  - intros Hacc. apply accepts_P_BACKGROUND in Hacc as (ws' & body & Heq' & _).
    rewrite Htok in Heq'. simpl in Heq'. discriminate Heq'.
Qed.

(** Replacing the leftmost occurrence of one pattern by a text of the
    same kind neither adds nor removes an occurrence of another. *)
Lemma first_replaced_occurs (p q : list atom) (rb s s1 : text) :
  statement_pattern p ->
  q = pat_atoms P_ACCENT \/ q = pat_atoms P_ACCENT_RGB
  \/ q = pat_atoms P_BACKGROUND ->
  (forall tok, accepts p (tok ++ [";"%char]) ->
               (exists t, tok = "-"%char :: "-"%char :: t)
               /\ dash_ok (tl tok) = true
               /\ ~ accepts q (tok ++ [";"%char])) ->
  (exists t, rb = "-"%char :: "-"%char :: t) -> dash_ok (tl rb) = true ->
  semicolon_free rb = true -> ~ accepts q (rb ++ [";"%char]) ->
  first_replaced p (rb ++ [";"%char]) s s1 ->
  occurs q s1 <-> occurs q s.
Proof.
  intros Hp Hq Hwords Hrb2 Hrbd Hrb_sf Hrb_not
    (before & m & after & -> & -> & Hacc & _).
  destruct (Hp m Hacc) as (tok & -> & Htok & Htok_sf).
  destruct (Hwords tok Hacc) as (Htok2 & Htokd & Htok_not).
  destruct (stylesheet_pattern_facts q rb Hq Hrb2 Hrbd) as (Hq_stmt & S1 & I1).
  destruct (stylesheet_pattern_facts q tok Hq Htok2 Htokd) as (_ & S2 & I2).
  split.
  - now apply occurs_rewritten.
  - apply occurs_rewritten; auto. destruct Hrb2 as [ t -> ]. discriminate.
Qed.

Lemma search_first_replaced (p : list atom) (repl s before after : text) :
  search p s = Some (before, after) ->
  first_replaced p repl s (before ++ repl ++ after).
Proof.
  intros E. destruct (search_Some _ _ _ _ E) as (m & Hm & Hacc & Hhere & Hleft).
  exists before, m, after. auto.
Qed.

(** The loop of [update_css] by the occurrences in the text it starts
    from. *)
Lemma new_css_cases accent_hex background_rgb (css : text) :
  is_hex_color accent_hex = true ->
  let failed := fun p : pattern =>
    Raise (PaletteError
             ("Failed to apply CSS replacement for pattern: " ++ pat_src p)) in
  (~ occurs (pat_atoms P_ACCENT) css ->
   new_css accent_hex background_rgb css = failed P_ACCENT)
  /\ (occurs (pat_atoms P_ACCENT) css ->
      ~ occurs (pat_atoms P_ACCENT_RGB) css ->
      new_css accent_hex background_rgb css = failed P_ACCENT_RGB)
  /\ (occurs (pat_atoms P_ACCENT) css ->
      occurs (pat_atoms P_ACCENT_RGB) css ->
      ~ occurs (pat_atoms P_BACKGROUND) css ->
      new_css accent_hex background_rgb css = failed P_BACKGROUND)
  /\ (occurs (pat_atoms P_ACCENT) css ->
      occurs (pat_atoms P_ACCENT_RGB) css ->
      occurs (pat_atoms P_BACKGROUND) css ->
      exists css', new_css accent_hex background_rgb css = Ok css').
Proof.
  intros Hhex failed.
  destruct (hex_color_rgb accent_hex Hhex) as (ar & ag & ab & Hrgb & Br & Bg & Bb).
  pose proof (replacements_no_backslash accent_hex (ar, ag, ab) background_rgb
                (hex_to_rgb_no_backslash _ _ Hrgb)) as Hbs.
  unfold new_css. rewrite Hrgb. cbn [bind].
  rewrite replacements_texts in *.
  apply Forall_cons in Hbs as [ Hb1 Hbs ].
  apply Forall_cons in Hbs as [ Hb2 Hbs ].
  apply Forall_cons in Hbs as [ Hb3 _ ]. cbn [snd] in Hb1, Hb2, Hb3.
  destruct (accent_text_facts accent_hex Hhex) as (S1 & D1 & F1 & A11 & A12 & A13).
  destruct (accent_rgb_text_facts ar ag ab) as (S2 & D2 & F2 & A22 & A21 & A23);
    try lia.
  set (r1 := accent_text accent_hex) in *.
  set (r2 := accent_rgb_text (ar, ag, ab)) in *.
  set (r3 := background_text background_rgb ++ [";"%char]) in *.
  assert (Q2 : pat_atoms P_ACCENT_RGB = pat_atoms P_ACCENT \/
               pat_atoms P_ACCENT_RGB = pat_atoms P_ACCENT_RGB \/
               pat_atoms P_ACCENT_RGB = pat_atoms P_BACKGROUND) by auto.
  assert (Q3 : pat_atoms P_BACKGROUND = pat_atoms P_ACCENT \/
               pat_atoms P_BACKGROUND = pat_atoms P_ACCENT_RGB \/
               pat_atoms P_BACKGROUND = pat_atoms P_BACKGROUND) by auto.
  (* the first turn *)
  assert (T1 : forall b a, search (pat_atoms P_ACCENT) css = Some (b, a) ->
             (occurs (pat_atoms P_ACCENT_RGB) (b ++ (r1 ++ [";"%char]) ++ a)
              <-> occurs (pat_atoms P_ACCENT_RGB) css)
             /\ (occurs (pat_atoms P_BACKGROUND) (b ++ (r1 ++ [";"%char]) ++ a)
                 <-> occurs (pat_atoms P_BACKGROUND) css)).
  { intros b a E. pose proof (search_first_replaced _ (r1 ++ [";"%char]) _ _ _ E) as Hf.
    split.
    - apply (first_replaced_occurs (pat_atoms P_ACCENT) _ r1); auto.
      + exact P_ACCENT_stmt.
      + intros tok Htok. destruct (P_ACCENT_body tok Htok) as (? & ? & ? & ?). auto.
    - apply (first_replaced_occurs (pat_atoms P_ACCENT) _ r1); auto.
      + exact P_ACCENT_stmt.
      + intros tok Htok. destruct (P_ACCENT_body tok Htok) as (? & ? & ? & ?). auto. }
  (* the second turn *)
  assert (T2 : forall s b a, search (pat_atoms P_ACCENT_RGB) s = Some (b, a) ->
             (occurs (pat_atoms P_BACKGROUND) (b ++ (r2 ++ [";"%char]) ++ a)
              <-> occurs (pat_atoms P_BACKGROUND) s)).
  { intros s b a E.
    pose proof (search_first_replaced _ (r2 ++ [";"%char]) _ _ _ E) as Hf.
    apply (first_replaced_occurs (pat_atoms P_ACCENT_RGB) _ r2); auto.
    - exact P_ACCENT_RGB_stmt.
    - intros tok Htok. destruct (P_ACCENT_RGB_body tok Htok) as (? & ? & ?). auto. }
  repeat split.
  - intros H1. apply not_occurs_search in H1.
    now rewrite (apply_miss _ _ _ _ Hb1 H1).
  - intros H1 H2. apply occurs_search in H1 as (b & a & E1).
    rewrite (apply_hit _ _ _ _ _ _ Hb1 E1).
    destruct (T1 b a E1) as [ T12 _ ].
    assert (N2 : ~ occurs (pat_atoms P_ACCENT_RGB) (b ++ (r1 ++ [";"%char]) ++ a))
      by (now rewrite T12).
    apply not_occurs_search in N2. now rewrite (apply_miss _ _ _ _ Hb2 N2).
  - intros H1 H2 H3. apply occurs_search in H1 as (b & a & E1).
    rewrite (apply_hit _ _ _ _ _ _ Hb1 E1).
    destruct (T1 b a E1) as [ T12 T13 ].
    apply T12 in H2. apply occurs_search in H2 as (b2 & a2 & E2).
    rewrite (apply_hit _ _ _ _ _ _ Hb2 E2).
    assert (N3 : ~ occurs (pat_atoms P_BACKGROUND) (b2 ++ (r2 ++ [";"%char]) ++ a2))
      by (now rewrite (T2 _ _ _ E2), T13).
    apply not_occurs_search in N3. now rewrite (apply_miss _ _ _ _ Hb3 N3).
  - intros H1 H2 H3. apply occurs_search in H1 as (b & a & E1).
    rewrite (apply_hit _ _ _ _ _ _ Hb1 E1).
    destruct (T1 b a E1) as [ T12 T13 ].
    apply T12 in H2. apply occurs_search in H2 as (b2 & a2 & E2).
    rewrite (apply_hit _ _ _ _ _ _ Hb2 E2).
    apply T13, (T2 _ _ _ E2) in H3. apply occurs_search in H3 as (b3 & a3 & E3).
    rewrite (apply_hit _ _ _ _ _ _ Hb3 E3). simpl. eauto.
Qed.

(** X9. For an accent that is ['#'] and six hexadecimal digits,
    [update_css] succeeds exactly when the stylesheet it reads holds an
    occurrence of each of the three patterns. Otherwise nothing is
    written and the [PaletteError] names the first pattern, in the order
    accent, accent-rgb, background, that has none in the stylesheet as it
    was read: no substitution made on the way adds or removes an
    occurrence of a later pattern. *)
Theorem update_css_succeeds_iff accent_hex background_rgb (fs : files) :
  is_hex_color accent_hex = true ->
  let failed := fun p : pattern =>
    (fs, Raise (PaletteError
                  ("Failed to apply CSS replacement for pattern: " ++ pat_src p))) in
  (~ occurs (pat_atoms P_ACCENT) (css_file fs) ->
   update_css accent_hex background_rgb fs = failed P_ACCENT)
  /\ (occurs (pat_atoms P_ACCENT) (css_file fs) ->
      ~ occurs (pat_atoms P_ACCENT_RGB) (css_file fs) ->
      update_css accent_hex background_rgb fs = failed P_ACCENT_RGB)
  /\ (occurs (pat_atoms P_ACCENT) (css_file fs) ->
      occurs (pat_atoms P_ACCENT_RGB) (css_file fs) ->
      ~ occurs (pat_atoms P_BACKGROUND) (css_file fs) ->
      update_css accent_hex background_rgb fs = failed P_BACKGROUND)
  /\ (occurs (pat_atoms P_ACCENT) (css_file fs) ->
      occurs (pat_atoms P_ACCENT_RGB) (css_file fs) ->
      occurs (pat_atoms P_BACKGROUND) (css_file fs) ->
      exists css',
        update_css accent_hex background_rgb fs
        = (Files css' (config_file fs), Ok tt)).
Proof.
  intros Hhex failed.
  destruct (new_css_cases accent_hex background_rgb (css_file fs) Hhex)
    as (C1 & C2 & C3 & C4).
  unfold update_css, failed. repeat split.
  - intros H1. now rewrite (C1 H1).
  - intros H1 H2. now rewrite (C2 H1 H2).
  - intros H1 H2 H3. now rewrite (C3 H1 H2 H3).
  - intros H1 H2 H3. destruct (C4 H1 H2 H3) as [ css' -> ]. eauto.
Qed.

Lemma update_css_succeeds_iff_witness :
  let fs := Files ex_css [] in
  let failed := fun p : pattern =>
    (fs, Raise (PaletteError
                  ("Failed to apply CSS replacement for pattern: " ++ pat_src p))) in
  (~ occurs (pat_atoms P_ACCENT) (css_file fs) ->
   update_css (str "#112233") (0, 0, 0) fs = failed P_ACCENT)
  /\ (occurs (pat_atoms P_ACCENT) (css_file fs) ->
      ~ occurs (pat_atoms P_ACCENT_RGB) (css_file fs) ->
      update_css (str "#112233") (0, 0, 0) fs = failed P_ACCENT_RGB)
  /\ (occurs (pat_atoms P_ACCENT) (css_file fs) ->
      occurs (pat_atoms P_ACCENT_RGB) (css_file fs) ->
      ~ occurs (pat_atoms P_BACKGROUND) (css_file fs) ->
      update_css (str "#112233") (0, 0, 0) fs = failed P_BACKGROUND)
  /\ (occurs (pat_atoms P_ACCENT) (css_file fs) ->
      occurs (pat_atoms P_ACCENT_RGB) (css_file fs) ->
      occurs (pat_atoms P_BACKGROUND) (css_file fs) ->
      exists css',
        update_css (str "#112233") (0, 0, 0) fs
        = (Files css' (config_file fs), Ok tt)).
Proof.
  apply (update_css_succeeds_iff (str "#112233") (0, 0, 0) (Files ex_css [])).
  reflexivity.
Defined.

(** ** A second run of the widget-config update *)

Lemma sub_all_none (p : list atom) (repl : text) :
  forall s, no_occurrence p s -> sub_all p repl 0 s = (s, 0%nat).
Proof.
  induction s as [ | c s IH ]; intros Hnone; [ reflexivity | ].
  cbn [sub_all].
  destruct (match_here p (c :: s)) as [ rest | ] eqn:E.
  - destruct (match_here_sound _ _ _ E) as (m & Hm & Hacc).
    destruct (Hnone [] m rest Hm Hacc).
  - rewrite IH; [ reflexivity | ].
    intros b m a Heq Hacc. apply (Hnone (c :: b) m a); [ | exact Hacc ].
    simpl. now rewrite Heq.
Qed.

(** The scan copies a stretch in which no match begins. *)
Lemma sub_all_copy (p : list atom) (repl t : text) :
  forall before,
    (forall y x, before = y ++ x -> x <> [] -> match_here p (x ++ t) = None) ->
    sub_all p repl 0 (before ++ t)
    = (before ++ fst (sub_all p repl 0 t), snd (sub_all p repl 0 t)).
Proof.
  induction before as [ | c before IH ]; intros Hno.
  - simpl. now destruct (sub_all p repl 0 t).
  - change ((c :: before) ++ t) with (c :: before ++ t). cbn [sub_all].
    change (c :: before ++ t) with ((c :: before) ++ t).
    rewrite (Hno [] (c :: before) eq_refl) by discriminate.
    rewrite IH.
    + reflexivity.
    + intros y x Heq Hx. apply (Hno (c :: y) x); [ | exact Hx ].
      simpl. now rewrite Heq.
Qed.

(** The scan at a match that is not empty. *)
Lemma sub_all_match (p : list atom) (repl m rest : text) :
  m <> [] -> match_here p (m ++ rest) = Some rest ->
  sub_all p repl 0 (m ++ rest)
  = (repl ++ fst (sub_all p repl 0 rest), S (snd (sub_all p repl 0 rest))).
Proof.
  intros Hm E. destruct m as [ | c m ]; [ congruence | ].
  change ((c :: m) ++ rest) with (c :: m ++ rest) in *. cbn [sub_all].
  rewrite E.
  assert (Hk : (length (c :: m ++ rest) - length rest)%nat = S (length m)).
  { simpl. rewrite length_app. lia. }
  rewrite Hk, sub_all_skip, skipn_app, skipn_all, Nat.sub_diag.
  change (skipn 0 rest) with rest. rewrite app_nil_l.
  now destruct (sub_all p repl 0 rest).
Qed.

Lemma P_COLOR_word (m : text) :
  accepts P_COLOR m ->
  exists h1 h2 h3 h4 h5 h6,
    m = str "'color': '#" ++ [h1; h2; h3; h4; h5; h6] ++ ["'"%char]
    /\ forallb is_hex_digit [h1; h2; h3; h4; h5; h6] = true.
Proof.
  intros H. apply accepts_P_COLOR in H as (h & -> & Hlen & Hh).
  destruct (length_six _ Hlen) as (h1 & h2 & h3 & h4 & h5 & h6 & ->).
  eauto 10.
Qed.

(** A word of the pattern is matched as a whole. *)
Lemma P_COLOR_match (m rest : text) :
  accepts P_COLOR m -> match_here P_COLOR (m ++ rest) = Some rest.
Proof.
  intros Hacc. destruct (match_here_complete _ _ Hacc rest) as [ r Hr ].
  rewrite Hr. f_equal.
  destruct (match_here_sound _ _ _ Hr) as (m' & Hm' & Hacc').
  apply accepts_P_COLOR in Hacc as (h & -> & Hlen & _).
  apply accepts_P_COLOR in Hacc' as (h' & -> & Hlen' & _).
  apply app_inj_1 in Hm' as [ _ <- ]; [ reflexivity | ].
  rewrite !length_app, Hlen, Hlen'. reflexivity.
Qed.

(** One step through a text [x] laid over a word of the pattern. *)
Ltac next_char x Hw Hcontra :=
  destruct x as [ | ? x ];
  [ simpl in Hw; try discriminate Hw;
    try (injection Hw; intros; subst;
         match goal with
         | Hd : is_hex_digit _ = true |- _ => vm_compute in Hd; discriminate Hd
         end);
    try (eapply Hcontra; reflexivity)
  | simpl in Hw; injection Hw as -> Hw ].

(** Where a colour entry has been replaced by another, no match begins
    before the new entry that did not begin there before. *)
Lemma P_COLOR_no_new_match (y x m after repl out : text) :
  accepts P_COLOR m -> accepts P_COLOR repl -> x <> [] ->
  none_before P_COLOR ((y ++ x) ++ m ++ after) (length (y ++ x)) ->
  match_here P_COLOR (x ++ repl ++ out) = None.
Proof.
  intros Hm Hrepl Hx Hnb.
  destruct (match_here P_COLOR (x ++ repl ++ out)) as [ rest | ] eqn:E;
    [ exfalso | reflexivity ].
  destruct (match_here_sound _ _ _ E) as (w & Hw & Hacc). clear E.
  assert (Hcontra : forall a', x ++ m ++ after = w ++ a' -> False).
  { intros a' Heq. specialize (Hnb y w a').
    rewrite <- app_assoc, Heq in Hnb. specialize (Hnb eq_refl Hacc).
    rewrite length_app in Hnb. destruct x; [ congruence | simpl in Hnb; lia ]. }
  clear Hnb.
  destruct (P_COLOR_word _ Hacc) as (h1 & h2 & h3 & h4 & h5 & h6 & -> & Hh).
  destruct (P_COLOR_word _ Hrepl) as (g1 & g2 & g3 & g4 & g5 & g6 & -> & _).
  destruct (P_COLOR_word _ Hm) as (k1 & k2 & k3 & k4 & k5 & k6 & -> & _).
  clear Hacc Hrepl Hm.
  cbn [forallb] in Hh. repeat (apply andb_true_iff in Hh as [ ? Hh ]). clear Hh.
  simpl in Hw, Hcontra.
  destruct x as [ | c0 x ]; [ congruence | ]. clear Hx.
  simpl in Hw. injection Hw as -> Hw.
  do 17 (next_char x Hw Hcontra).
  eapply Hcontra. reflexivity.
Qed.

(** The scan of a text in which the entries have been replaced by a word
    of the pattern finds the entries the scan of the old text finds, at
    the same places. *)
Lemma sub_all_after (repl repl' : text) :
  accepts P_COLOR repl ->
  forall s out n,
    all_replaced P_COLOR repl s out n ->
    sub_all P_COLOR repl' 0 out = sub_all P_COLOR repl' 0 s.
Proof.
  intros Hrepl s out n H.
  induction H as [ s Hnone | s before m after out n Heq Hacc Hhere Hleft H IH ];
    [ reflexivity | ].
  assert (Hm_ne : m <> []).
  { apply accepts_P_COLOR in Hacc as (h & -> & _). discriminate. }
  assert (Hrepl_ne : repl <> []).
  { apply accepts_P_COLOR in Hrepl as (h & -> & _). discriminate. }
  subst s.
  rewrite (sub_all_copy P_COLOR repl' (repl ++ out) before).
  - rewrite (sub_all_copy P_COLOR repl' (m ++ after) before).
    + rewrite (sub_all_match _ _ _ _ Hrepl_ne (P_COLOR_match repl out Hrepl)).
      rewrite (sub_all_match _ _ _ _ Hm_ne Hhere).
      now rewrite IH.
    + intros y x -> Hx.
      destruct (match_here P_COLOR (x ++ m ++ after)) as [ rest | ] eqn:E;
        [ exfalso | reflexivity ].
      destruct (match_here_sound _ _ _ E) as (w & Hw & Hw_acc).
      specialize (Hleft y w rest). rewrite <- app_assoc, Hw in Hleft.
      specialize (Hleft eq_refl Hw_acc). rewrite length_app in Hleft.
      destruct x; [ congruence | simpl in Hleft; lia ].
  - intros y x -> Hx. now apply (P_COLOR_no_new_match y x m after).
Qed.

Lemma color_entry_word (accent_hex : text) :
  is_hex_color accent_hex = true ->
  accepts P_COLOR (str "'color': '" ++ accent_hex ++ str "'").
Proof.
  intros H. destruct accent_hex as [ | c h ]; [ discriminate | ]. simpl in H.
  apply andb_true_iff in H as [ H Hh ]. apply andb_true_iff in H as [ Hc Hlen ].
  apply Ascii.eqb_eq in Hc as ->. apply Nat.eqb_eq in Hlen.
  apply accepts_P_COLOR. exists h. auto.
Qed.

Lemma P_COLOR_not_empty (m : text) : accepts P_COLOR m -> m <> [].
Proof. intros H. apply accepts_P_COLOR in H as (h & -> & _). discriminate. Qed.

(** The count of the scan does not depend on the replacement. *)
Lemma sub_all_count (p : list atom) (repl repl' : text) :
  forall s skip, snd (sub_all p repl skip s) = snd (sub_all p repl' skip s).
Proof.
  induction s as [ | c s IH ]; intros skip; [ reflexivity | ].
  cbn [sub_all]. destruct skip as [ | k ]; [ | apply IH ].
  destruct (match_here p (c :: s)) as [ rest | ].
  - destruct (length (c :: s) - length rest)%nat as [ | k ].
    + specialize (IH 0%nat).
      destruct (sub_all p repl 0 s), (sub_all p repl' 0 s). simpl in *. congruence.
    + specialize (IH k).
      destruct (sub_all p repl k s), (sub_all p repl' k s). simpl in *. congruence.
  - specialize (IH 0%nat).
    destruct (sub_all p repl 0 s), (sub_all p repl' 0 s). simpl in *. congruence.
Qed.

(** An update of the widget config after a successful one. *)
Lemma update_config_after accent_hex accent_hex' (fs fs1 : files) (count : nat) :
  is_hex_color accent_hex = true ->
  has_backslash accent_hex' = false ->
  update_config accent_hex fs = (fs1, Ok count) ->
  update_config accent_hex' fs1 = update_config accent_hex' fs.
Proof.
  intros Hhex Hb' Hfirst.
  destruct (hex_color_rgb accent_hex Hhex) as (r & g & b & Hrgb & _).
  pose proof (hex_to_rgb_no_backslash _ _ Hrgb) as Hb.
  set (repl := str "'color': '" ++ accent_hex ++ str "'").
  pose proof (sub_all_spec P_COLOR repl P_COLOR_not_empty (config_file fs)) as Hall.
  assert (Hfst : update_config accent_hex fs
                 = let '(yaml_text, count) := sub_all P_COLOR repl 0 (config_file fs) in
                   match count with
                   | O => (fs, Raise (PaletteError
                                        "No color entries updated in config.yaml; expected at least one."))
                   | S _ => (Files (css_file fs) yaml_text, Ok count)
                   end)
    by exact (update_config_scan accent_hex fs Hb).
  rewrite Hfst in Hfirst. clear Hfst.
  destruct (sub_all P_COLOR repl 0 (config_file fs)) as [ out n ] eqn:Hscan.
  simpl in Hall. destruct n as [ | n ]; [ discriminate | ].
  injection Hfirst as <- <-.
  rewrite !(update_config_scan accent_hex' _ Hb'). cbn [css_file config_file].
  set (repl' := str "'color': '" ++ accent_hex' ++ str "'").
  rewrite (sub_all_after repl repl' (color_entry_word _ Hhex) _ _ _ Hall).
  pose proof (sub_all_count P_COLOR repl' repl (config_file fs) 0) as Hcount.
  rewrite Hscan in Hcount. simpl in Hcount.
  destruct (sub_all P_COLOR repl' 0 (config_file fs)) as [ out' n' ].
  simpl in Hcount. subst n'. reflexivity.
Qed.

(** X10. The widget-config update can be repeated. After a successful
    update with an accent that is ['#'] and six hexadecimal digits, an
    update with any accent gives what it would have given on the file as
    it was before, the same text and the same count: the entries are
    found again where they were and no other appears. In particular a
    second update with the same accent leaves the file as the first one
    wrote it and reports the same count. *)
Theorem update_config_again accent_hex (fs fs1 : files) (count : nat) :
  is_hex_color accent_hex = true ->
  update_config accent_hex fs = (fs1, Ok count) ->
  (forall accent_hex', has_backslash accent_hex' = false ->
                       update_config accent_hex' fs1 = update_config accent_hex' fs)
  /\ update_config accent_hex fs1 = (fs1, Ok count).
Proof.
  intros Hhex Hfirst.
  destruct (hex_color_rgb accent_hex Hhex) as (r & g & b & Hrgb & _).
  pose proof (hex_to_rgb_no_backslash _ _ Hrgb) as Hb.
  split.
  - intros a' Hb'. exact (update_config_after _ _ _ _ _ Hhex Hb' Hfirst).
  - now rewrite (update_config_after _ _ _ _ _ Hhex Hb Hfirst).
Qed.

Lemma update_config_again_witness :
  (forall accent_hex', has_backslash accent_hex' = false ->
     update_config accent_hex'
       (Files [] (str "a: {'color': '#112233'}, b: {'color': '#112233'}"))
     = update_config accent_hex'
         (Files [] (str "a: {'color': '#aaaaaa'}, b: {'color': '#BBBBBB'}")))
  /\ update_config (str "#112233")
       (Files [] (str "a: {'color': '#112233'}, b: {'color': '#112233'}"))
     = (Files [] (str "a: {'color': '#112233'}, b: {'color': '#112233'}"),
        Ok 2%nat).
Proof.
  apply (update_config_again (str "#112233")
           (Files [] (str "a: {'color': '#aaaaaa'}, b: {'color': '#BBBBBB'}")));
    reflexivity.
Defined.

(** ** How a run can end *)






(** ** Runs on a well-formed palette *)

Lemma is_hex_color_lower (h : text) :
  is_hex_color h = true -> is_hex_color (lower h) = true.
Proof.
  destruct h as [ | c h ]; [ discriminate | ]. intros H. simpl in H.
  apply andb_true_iff in H as [ H Hh ]. apply andb_true_iff in H as [ Hc Hlen ].
  apply Ascii.eqb_eq in Hc as ->.
  change (lower ("#"%char :: h)) with ("#"%char :: map lower_char h).
  unfold is_hex_color. rewrite Ascii.eqb_refl, length_map, Hlen. simpl.
  rewrite forallb_forall in *. intros c Hc. apply in_map_iff in Hc as (c' & <- & Hc').
  destruct (lower_char_facts c') as (_ & -> & _). auto.
Qed.

Lemma hex_values_truthy (d : gmap string text) (k : string) (v : text) :
  hex_values d -> get_truthy d k = Some v -> is_hex_color v = true.
Proof.
  intros Hd Hv. apply get_truthy_Some in Hv as [ Hv Hne ].
  destruct (Hd k v Hv); congruence.
Qed.

Lemma is_hex_color_parses (h : text) : is_hex_color h = true -> parses h = true.
Proof.
  intros H. destruct (hex_color_rgb h H) as (r & g & b & Hrgb & _).
  unfold parses. now rewrite Hrgb.
Qed.

(** On a well-formed palette the selection returns a colour string, or
    finds nothing to choose from. *)
Lemma choose_accent_hex env_slot colors special background_rgb :
  hex_values colors -> hex_values special ->
  (env_candidate env_slot colors = None /\ candidate_colors colors special = []
   /\ is_palette_error (choose_accent env_slot colors special background_rgb))
  \/ ((env_candidate env_slot colors <> None
       \/ candidate_colors colors special <> [])
      /\ exists h, choose_accent env_slot colors special background_rgb = Ok h
                   /\ is_hex_color h = true).
Proof.
  intros Hc Hs.
  destruct (env_candidate env_slot colors) as [ v | ] eqn:Henv.
  - right. split; [ left; discriminate | ]. exists v. split.
    + unfold choose_accent. now rewrite Henv.
    + unfold env_candidate in Henv. destruct env_slot as [ slot | ]; [ | discriminate ].
      destruct (truthy_key slot); [ | discriminate ].
      exact (hex_values_truthy colors slot v Hc Henv).
  - assert (Hall : forall h, h ∈ candidate_colors colors special ->
                             is_hex_color h = true).
    { intros h Hh. apply candidate_colors_elem in Hh as [ Hne [ (key & _ & Hv) | Hv ] ].
      - destruct (Hc key h Hv); congruence.
      - destruct (Hs _ h Hv); congruence. }
    assert (Hparse : forallb parses (candidate_colors colors special) = true).
    { apply forallb_forall. intros h Hh. apply is_hex_color_parses, Hall.
      now apply list_elem_of_In. }
    destruct (map_result_total (relative_luminance background_rgb) _ Hparse)
      as [ ranked Hranked ].
    rewrite (choose_accent_ranked _ _ _ _ _ Henv Hranked).
    pose proof (map_result_hex _ _ _ Hranked) as Hhex.
    destruct ranked as [ | first others ].
    + left. simpl in Hhex. repeat split; auto. eexists. reflexivity.
    + right. split; [ right; rewrite <- Hhex; discriminate | ].
      assert (Hin : forall c, c ∈ first :: others -> is_hex_color (cand_hex c) = true).
      { intros c Hin. apply Hall. rewrite <- Hhex. now apply list_elem_of_fmap_2. }
      destruct (find primary (first :: others)) as [ c | ] eqn:Hfind.
      * exists (cand_hex c). split; [ reflexivity | ].
        apply Hin. now apply find_elem in Hfind.
      * exists (cand_hex (min_from closeness first others)). split; [ reflexivity | ].
        apply Hin.
        destruct (min_from_spec closeness first others) as (b & a & Heq & _).
        rewrite Heq. apply elem_of_app. right. left.
Qed.






(** ** A second run *)

(** The loop of [update_css] on its own result. *)
Lemma new_css_again accent_hex background_rgb (css css' : text) :
  is_hex_color accent_hex = true ->
  disjoint_ranges (match_range P_ACCENT css) (match_range P_BACKGROUND css) = true ->
  disjoint_ranges (match_range P_ACCENT_RGB css) (match_range P_BACKGROUND css)
  = true ->
  new_css accent_hex background_rgb css = Ok css' ->
  new_css accent_hex background_rgb css' = Ok css'.
Proof.
  intros Hhex H13 H23.
  destruct (hex_color_rgb accent_hex Hhex) as (ar & ag & ab & Hrgb & Br & Bg & Bb).
  unfold new_css. rewrite Hrgb. cbn [bind]. intros Happ.
  apply (apply_replacements_idempotent (length css) css (Nat.le_refl _)); auto.
  - apply good_replacements; auto; lia.
  - now apply replacements_distinct_firsts.
Qed.

(** X13. A run can be repeated. On a palette whose values are all empty
    or ['#'] and six hexadecimal digits, and a stylesheet in which the
    leftmost match of the background pattern shares no character with the
    leftmost matches of the two accent patterns, a run that has returned
    0 returns 0 again when it is started on the files it has written,
    with the same palette and override, and leaves both files as they
    are. *)
Theorem main_again env_slot (palette : gmap string (gmap string text))
    (fs fs' : files) :
  hex_values (default ∅ (palette !! "colors"%string)) ->
  hex_values (default ∅ (palette !! "special"%string)) ->
  disjoint_ranges (match_range P_ACCENT (css_file fs))
    (match_range P_BACKGROUND (css_file fs)) = true ->
  disjoint_ranges (match_range P_ACCENT_RGB (css_file fs))
    (match_range P_BACKGROUND (css_file fs)) = true ->
  main env_slot (Ok palette) fs = (fs', Exit 0) ->
  main env_slot (Ok palette) fs' = (fs', Exit 0).
Proof.
  intros Hc Hs H13 H23. unfold main, refresh.
  set (colors := default ∅ (palette !! "colors"%string)) in *.
  set (special := default ∅ (palette !! "special"%string)) in *.
  destruct (decide (colors = ∅)) as [ Hempty | Hne ]; [ discriminate | ].
  destruct (get_truthy special "background") as [ background_hex | ];
    [ | discriminate ].
  destruct (hex_to_rgb background_hex) as [ background_rgb | [ ] ];
    [ | discriminate.. ].
  destruct (choose_accent_hex env_slot colors special background_rgb Hc Hs)
    as [ (_ & _ & msg & ->) | (_ & accent_hex & -> & Hhex) ]; [ discriminate | ].
  apply is_hex_color_lower in Hhex.
  unfold update_css.
  destruct (new_css (lower accent_hex) background_rgb (css_file fs))
    as [ css1 | [ ] ] eqn:Hcss; [ | discriminate.. ].
  cbn [config_file css_file].
  destruct (update_config (lower accent_hex) (Files css1 (config_file fs)))
    as [ fs2 [ count | [ ] ] ] eqn:Hcfg; [ | discriminate.. ].
  intros [= <-].
  assert (Hfs2 : css_file fs2 = css1).
  { unfold update_config in Hcfg.
    destruct (re_subn P_COLOR _ _) as [ [ yaml cnt ] | ]; [ | discriminate ].
    destruct (cnt =? 0)%nat; [ discriminate | ]. now injection Hcfg as <- _. }
  rewrite Hfs2, (new_css_again _ _ _ _ Hhex H13 H23 Hcss).
  assert (Hsame : Files css1 (config_file fs2) = fs2)
    by (destruct fs2; simpl in *; congruence).
  rewrite Hsame.
  destruct (hex_color_rgb _ Hhex) as (r & g & b & Hrgb & _).
  rewrite (update_config_after _ _ _ _ _ Hhex (hex_to_rgb_no_backslash _ _ Hrgb) Hcfg).
  rewrite Hcfg. reflexivity.
Qed.

Lemma main_again_witness :
  main None (Ok ex_palette)
    (Files (str ":root { --accent: #3a6ea5; --accent-rgb: 58, 110, 165; --yasb-background: rgba(18, 18, 18, 0.72); }")
       (str "bar: {'color': '#3a6ea5'}"))
  = (Files (str ":root { --accent: #3a6ea5; --accent-rgb: 58, 110, 165; --yasb-background: rgba(18, 18, 18, 0.72); }")
       (str "bar: {'color': '#3a6ea5'}"),
     Exit 0).
Proof.
  apply (main_again None ex_palette
           (Files ex_css (str "bar: {'color': '#aaaaaa'}"))).
  - intros k v. unfold ex_palette. rewrite lookup_insert_eq. simpl default.
    unfold ex_colors. intros H.
    apply lookup_insert_Some in H as [ [ _ <- ] | [ _ H ] ]; [ now right | ].
    apply lookup_insert_Some in H as [ [ _ <- ] | [ _ H ] ]; [ now right | ].
    rewrite lookup_empty in H. discriminate H.
  - intros k v. unfold ex_palette.
    rewrite lookup_insert_ne by discriminate. rewrite lookup_insert_eq.
    simpl default. unfold ex_special. intros H.
    apply lookup_insert_Some in H as [ [ _ <- ] | [ _ H ] ]; [ now right | ].
    apply lookup_insert_Some in H as [ [ _ <- ] | [ _ H ] ]; [ now right | ].
    rewrite lookup_empty in H. discriminate H.
  - vm_compute. reflexivity.
  - vm_compute. reflexivity.
  - vm_compute. reflexivity.
Defined.

(** ** What the stylesheet declares after an update *)

(** Under the conditions of [apply_replacements_idempotent], the result
    of the loop has every replacement as the leftmost match of its own
    pattern. *)
Lemma apply_replacements_leftmost (n : nat) :
  forall s, (length s <= n)%nat ->
  forall l s',
    good_rules l -> distinct_firsts l s ->
    apply_replacements l s = Ok s' ->
    forall x, x ∈ l -> leftmost_is (fst x) s' (snd x).
Proof.
  induction n as [ | n IH ]; intros s Hlen l s' Hgood Hdist Happ x0 Hx0.
  - destruct s; [ | simpl in Hlen; lia ].
    destruct l as [ | [ pat repl ] l ]; [ inversion Hx0 | ].
    destruct Hgood as [ _ Hall ].
    destruct (Hall (pat, repl)) as [ (Hb & Hst & _) _ ]; [ left | ].
    simpl in Hb, Hst.
    rewrite (apply_miss _ _ _ _ Hb (semicolon_free_no_search _ [] Hst eq_refl))
      in Happ.
    discriminate.
  - destruct (split_stmt s) as [ Hsf | (sg & rest & -> & Hsf) ].
    { destruct l as [ | [ pat repl ] l ]; [ inversion Hx0 | ].
      destruct Hgood as [ _ Hall ].
      destruct (Hall (pat, repl)) as [ (Hb & Hst & _) _ ]; [ left | ].
      simpl in Hb, Hst.
      rewrite (apply_miss _ _ _ _ Hb (semicolon_free_no_search _ s Hst Hsf))
        in Happ.
      discriminate. }
    assert (Hrest : (length rest <= n)%nat).
    { rewrite length_app in Hlen. simpl in Hlen. lia. }
    pose proof Hgood as [ Hnd Hall ].
    destruct (first_hit l (sg ++ [";"%char]))
      as [ Hnone | (l1 & x & l2 & pre & a & -> & Hl1 & Hx) ].
    + (* no rule has a match in the first declaration *)
      assert (Hpass : forall x, x ∈ l ->
                 has_backslash (snd x) = false
                 /\ statement_pattern (pat_atoms (fst x))
                 /\ search (pat_atoms (fst x)) (sg ++ [";"%char]) = None).
      { intros x Hx. destruct (Hall x Hx) as [ (Hb & Hst & _) _ ]. auto. }
      rewrite (apply_pass l sg Hsf Hpass) in Happ.
      destruct (apply_replacements l rest) as [ rest' | ] eqn:Hr;
        [ | discriminate ].
      injection Happ as <-.
      destruct (IH rest Hrest l rest' Hgood) with (x := x0)
        as (b & a & Hs & Heq); auto.
      { apply (distinct_firsts_rest l l sg rest Hsf); auto.
        intros x Hx. destruct (Hpass x Hx) as (_ & ? & ?). auto. }
      destruct (Hpass x0 Hx0) as (_ & Hst & Hn0).
      exists (sg ++ ";"%char :: b), a. split.
      * now rewrite (search_stmt _ Hst sg rest' Hsf), Hn0, Hs.
      * rewrite Heq, <- app_assoc. reflexivity.
    + (* [x] is the first rule with a match there *)
      destruct x as [ pat repl ].
      assert (Hx_in : (pat, repl) ∈ l1 ++ (pat, repl) :: l2)
        by (apply elem_of_app; right; left).
      destruct (Hall _ Hx_in)
        as [ (Hb & Hst & rb & Hrepl & Hrb_sf & Hown & Hstab & Hinner) Hcompat ].
      simpl in Hb, Hst, Hrepl, Hown, Hstab, Hinner, Hx.
      destruct (stmt_match _ Hst _ _ _ Hsf Hx)
        as (-> & tok & Hsg & Htok & Htok_acc & _).
      assert (Hsf' : semicolon_free (pre ++ rb) = true).
      { rewrite Hsg, semicolon_free_app in Hsf.
        apply andb_true_iff in Hsf as [ Hpre _ ].
        now rewrite semicolon_free_app, Hpre, Hrb_sf. }
      apply NoDup_app in Hnd as (Hnd1 & Hnd12 & Hnd2).
      apply NoDup_cons in Hnd2 as [ Hx_l2 Hnd2 ].
      assert (Hothers : forall y, y ∈ l1 ++ l2 ->
                 has_backslash (snd y) = false
                 /\ statement_pattern (pat_atoms (fst y))
                 /\ search (pat_atoms (fst y)) (sg ++ [";"%char]) = None
                 /\ y <> (pat, repl)).
      { intros y Hy.
        assert (Hy_in : y ∈ l1 ++ (pat, repl) :: l2).
        { apply elem_of_app in Hy as [ Hy | Hy ]; apply elem_of_app;
            [ now left | right; now right ]. }
        destruct (Hall y Hy_in) as [ (Hby & Hsty & _) _ ].
        assert (Hne : y <> (pat, repl)).
        { intros ->. apply elem_of_app in Hy as [ Hy | Hy ].
          - apply (Hnd12 _ Hy). left.
          - exact (Hx_l2 Hy). }
        repeat split; auto.
        apply elem_of_app in Hy as [ Hy | Hy ]; [ now apply Hl1 | ].
        destruct (search (pat_atoms (fst y)) (sg ++ [";"%char]))
          as [ [ pre' a' ] | ] eqn:Ey; [ exfalso | reflexivity ].
        pose proof (search_stmt _ Hsty sg rest Hsf) as Sy. rewrite Ey in Sy.
        pose proof (search_stmt _ Hst sg rest Hsf) as Sx. rewrite Hx in Sx.
        exact (Hdist y (pat, repl) Hy_in Hx_in Hne _ _ _ _ Sy Sx eq_refl). }
      assert (Hothers' : forall y, y ∈ l1 ++ l2 ->
                 has_backslash (snd y) = false
                 /\ statement_pattern (pat_atoms (fst y))
                 /\ search (pat_atoms (fst y)) ((pre ++ rb) ++ [";"%char]) = None).
      { intros y Hy. destruct (Hothers y Hy) as (Hby & Hsty & Hny & Hne).
        repeat split; auto.
        assert (Hy_in : y ∈ l1 ++ (pat, repl) :: l2).
        { apply elem_of_app in Hy as [ Hy | Hy ]; apply elem_of_app;
            [ now left | right; now right ]. }
        destruct (Hcompat y Hy_in Hne) as (rb' & Hrepl' & Hstab' & Hinner' & Hnot).
        simpl in Hrepl', Hnot. rewrite Hrepl in Hrepl'.
        apply app_inj_tail in Hrepl' as [ <- _ ].
        rewrite Hsg in Hny, Hsf.
        apply (stmt_cross _ Hsty pre tok rb); auto. now rewrite <- Hrepl. }
      assert (Hin1 : forall y, y ∈ l1 -> y ∈ l1 ++ l2)
        by (intros y Hy; apply elem_of_app; now left).
      assert (Hin2 : forall y, y ∈ l2 -> y ∈ l1 ++ l2)
        by (intros y Hy; apply elem_of_app; now right).
      assert (Hpass1 : forall y, y ∈ l1 ->
                 has_backslash (snd y) = false
                 /\ statement_pattern (pat_atoms (fst y))
                 /\ search (pat_atoms (fst y)) (sg ++ [";"%char]) = None).
      { intros y Hy. destruct (Hothers y (Hin1 y Hy)) as (? & ? & ? & _). auto. }
      rewrite apply_app, (apply_pass l1 sg Hsf Hpass1) in Happ.
      destruct (apply_replacements l1 rest) as [ rest1 | ] eqn:Hr1;
        [ | discriminate ].
      pose proof (search_stmt _ Hst sg rest1 Hsf) as Sx. rewrite Hx in Sx.
      rewrite (apply_hit _ _ _ _ _ _ Hb Sx) in Happ.
      rewrite Hrepl, <- app_assoc, app_assoc in Happ. simpl in Happ.
      rewrite (apply_pass l2 (pre ++ rb) Hsf'
                 (fun y Hy => Hothers' y (Hin2 y Hy))) in Happ.
      destruct (apply_replacements l2 rest1) as [ rest2 | ] eqn:Hr2;
        [ | discriminate ].
      injection Happ as <-.
      assert (Hrest12 : apply_replacements (l1 ++ l2) rest = Ok rest2)
        by (now rewrite apply_app, Hr1).
      assert (Hgood12 : good_rules (l1 ++ l2))
        by (apply (good_rules_remove l1 l2 (pat, repl)); exact Hgood).
      assert (Hdist12 : distinct_firsts (l1 ++ l2) rest).
      { apply (distinct_firsts_rest (l1 ++ (pat, repl) :: l2) (l1 ++ l2)
                 sg rest Hsf); auto.
        - intros y Hy. apply elem_of_app in Hy as [ Hy | Hy ]; apply elem_of_app;
            [ now left | right; now right ].
        - intros y Hy. destruct (Hothers y Hy) as (_ & ? & ? & _). auto. }
      assert (Hother : forall y, y ∈ l1 ++ l2 ->
                leftmost_is (fst y) ((pre ++ rb) ++ ";"%char :: rest2) (snd y)).
      { intros y Hy.
        destruct (IH rest Hrest (l1 ++ l2) rest2 Hgood12 Hdist12 Hrest12 y Hy)
          as (b & a & Hs & Heq).
        destruct (Hothers' y Hy) as (_ & Hsty & Hny).
        exists ((pre ++ rb) ++ ";"%char :: b), a. split.
        - now rewrite (search_stmt _ Hsty (pre ++ rb) rest2 Hsf'), Hny, Hs.
        - rewrite Heq, <- !app_assoc. reflexivity. }
      apply elem_of_app in Hx0 as [ H | H ];
        [ now apply Hother, Hin1
        | apply elem_of_cons in H as [ -> | H ]; [ | now apply Hother, Hin2 ] ].
      exists pre, rest2. cbn [fst snd]. split.
      * assert (Sown : search (pat_atoms pat) ((pre ++ rb) ++ [";"%char])
                       = Some (pre, [])).
        { apply (stmt_own _ Hst sg pre [] rb); auto. now rewrite <- Hrepl. }
        now rewrite (search_stmt _ Hst (pre ++ rb) rest2 Hsf'), Sown.
      * rewrite Hrepl, <- !app_assoc. reflexivity.
Qed.

(** X14. What a successful stylesheet update leaves behind. For an
    accent that is ['#'] and six hexadecimal digits and a stylesheet in
    which the leftmost match of the background pattern shares no
    character with the leftmost matches of the two accent patterns: in
    the stylesheet [update_css] has written, the first declaration each
    pattern finds is the one the update asked for, the accent, its three
    channels in decimal, and the background with alpha 0.72. The widget
    config is not touched. *)
Theorem update_css_declares accent_hex background_rgb (fs fs' : files) :
  is_hex_color accent_hex = true ->
  disjoint_ranges (match_range P_ACCENT (css_file fs))
    (match_range P_BACKGROUND (css_file fs)) = true ->
  disjoint_ranges (match_range P_ACCENT_RGB (css_file fs))
    (match_range P_BACKGROUND (css_file fs)) = true ->
  update_css accent_hex background_rgb fs = (fs', Ok tt) ->
  exists accent_rgb,
    hex_to_rgb accent_hex = Ok accent_rgb
    /\ leftmost_is P_ACCENT (css_file fs') (accent_text accent_hex ++ [";"%char])
    /\ leftmost_is P_ACCENT_RGB (css_file fs')
         (accent_rgb_text accent_rgb ++ [";"%char])
    /\ leftmost_is P_BACKGROUND (css_file fs')
         (background_text background_rgb ++ [";"%char])
    /\ config_file fs' = config_file fs.
Proof.
  intros Hacc H13 H23 Hfirst.
  destruct (hex_color_rgb accent_hex Hacc) as (ar & ag & ab & Hrgb & Br & Bg & Bb).
  exists (ar, ag, ab). split; [ exact Hrgb | ].
  unfold update_css, new_css in Hfirst. rewrite Hrgb in Hfirst. cbn [bind] in Hfirst.
  destruct (apply_replacements
              (replacements accent_hex (ar, ag, ab) background_rgb) (css_file fs))
    as [ css' | ] eqn:Happ; [ | discriminate ].
  injection Hfirst as <-. cbn [css_file config_file].
  pose proof (apply_replacements_leftmost (length (css_file fs)) (css_file fs)
                (Nat.le_refl _)
                (replacements accent_hex (ar, ag, ab) background_rgb) css') as Hl.
  rewrite replacements_texts in Hl.
  assert (Hall : forall x,
            x ∈ [ (P_ACCENT, accent_text accent_hex ++ [";"%char]);
                  (P_ACCENT_RGB, accent_rgb_text (ar, ag, ab) ++ [";"%char]);
                  (P_BACKGROUND, background_text background_rgb ++ [";"%char]) ] ->
            leftmost_is (fst x) css' (snd x)).
  { apply Hl.
    - rewrite <- replacements_texts. apply good_replacements; auto; lia.
    - rewrite <- replacements_texts. now apply replacements_distinct_firsts.
    - rewrite <- replacements_texts. exact Happ. }
  repeat split.
  - apply (Hall (P_ACCENT, _)). left.
  - apply (Hall (P_ACCENT_RGB, _)). right. left.
  - apply (Hall (P_BACKGROUND, _)). right. right. left.
Qed.

Lemma update_css_declares_witness :
  let fs' :=
    Files (str ":root { --accent: #112233; --accent-rgb: 17, 34, 51; --yasb-background: rgba(0, 0, 0, 0.72); }")
      [] in
  exists accent_rgb,
    hex_to_rgb (str "#112233") = Ok accent_rgb
    /\ leftmost_is P_ACCENT (css_file fs') (accent_text (str "#112233") ++ [";"%char])
    /\ leftmost_is P_ACCENT_RGB (css_file fs')
         (accent_rgb_text accent_rgb ++ [";"%char])
    /\ leftmost_is P_BACKGROUND (css_file fs')
         (background_text (0, 0, 0) ++ [";"%char])
    /\ config_file fs' = config_file (Files ex_css []).
Proof.
  apply (update_css_declares (str "#112233") (0, 0, 0) (Files ex_css []));
    vm_compute; reflexivity.
Defined.

(** ** The sanitation of the palette file *)

Lemma backtrack_runs_here (cont : text -> option (list text * text))
    (lo k : nat) (s : text) :
  option_map snd (backtrack_runs cont lo k s)
  = backtrack (fun t => option_map snd (cont t)) lo k s.
Proof.
  induction k as [ | k IH ]; simpl.
  - destruct (0 <? lo)%nat; [ reflexivity | ].
    destruct (cont (skipn 0 s)) as [ [ runs rest ] | ]; reflexivity.
  - destruct (S k <? lo)%nat; [ reflexivity | ].
    destruct (cont (skipn (S k) s)) as [ [ runs rest ] | ]; [ reflexivity | ].
    exact IH.
Qed.

Lemma backtrack_ext (cont cont' : text -> option text) (lo k : nat) (s : text) :
  (forall t, cont t = cont' t) ->
  backtrack cont lo k s = backtrack cont' lo k s.
Proof.
  intros Hext. induction k as [ | k IH ]; simpl; rewrite Hext.
  - reflexivity.
  - now rewrite IH.
Qed.

(** Keeping the runs changes nothing in what is matched. *)
Lemma match_runs_here (p : list atom) :
  forall s, option_map snd (match_runs p s) = match_here p s.
Proof.
  induction p as [ | a p IH ]; intros s; [ reflexivity | ].
  simpl. rewrite backtrack_runs_here. apply backtrack_ext. exact IH.
Qed.

(** The runs of a match make up the matched text, one run per atom, each
    as its atom allows. *)
Lemma backtrack_runs_sound (cont : text -> option (list text * text))
    (lo k : nat) (s : text) (runs : list text) (rest : text) :
  backtrack_runs cont lo k s = Some (runs, rest) ->
  exists j runs', (lo <= j <= k)%nat /\ runs = firstn j s :: runs'
                  /\ cont (skipn j s) = Some (runs', rest).
Proof.
  induction k as [ | k IH ]; simpl.
  - destruct (Nat.ltb_spec 0 lo); [ discriminate | ].
    destruct (cont (skipn 0 s)) as [ [ runs' rest' ] | ] eqn:E; [ | discriminate ].
    intros [= <- <-]. exists 0%nat, runs'. repeat split; auto; lia.
  - destruct (Nat.ltb_spec (S k) lo); [ discriminate | ].
    destruct (cont (skipn (S k) s)) as [ [ runs' rest' ] | ] eqn:E.
    + intros [= <- <-]. exists (S k), runs'. repeat split; auto; lia.
    + intros Hb. destruct (IH Hb) as (j & runs' & Hj & Hr & Hc).
      exists j, runs'. repeat split; auto; lia.
Qed.

Lemma match_runs_sound (p : list atom) :
  forall s runs rest,
    match_runs p s = Some (runs, rest) ->
    s = concat runs ++ rest /\ Forall2 fits p runs.
Proof.
  induction p as [ | a p IH ]; simpl; intros s runs rest H.
  - injection H as <- <-. split; [ reflexivity | constructor ].
  - apply backtrack_runs_sound in H as (j & runs' & Hj & -> & H).
    destruct (IH _ _ _ H) as [ Hs Hfit ]. split.
    + simpl. rewrite <- app_assoc, <- Hs. symmetry. apply firstn_skipn.
    + constructor; [ | exact Hfit ].
      pose proof (run_length_le (a_class a) (a_max a) s) as Hle.
      assert (Hlen : length (firstn j s) = j) by (rewrite length_firstn; lia).
      repeat split.
      * eapply run_length_class. apply Hj.
      * lia.
      * rewrite Hlen.
        pose proof (run_length_within (a_class a) (a_max a) s) as Hw.
        destruct (a_max a); simpl in *; [ lia | exact I ].
Qed.

Lemma fits_accepts (p : list atom) (runs : list text) :
  Forall2 fits p runs -> accepts p (concat runs).
Proof.
  induction 1 as [ | a run p runs (Hc & Hmin & Hmax) _ IH ]; simpl.
  - constructor.
  - now constructor.
Qed.

Lemma sub_runs_skip (p : list atom) (f : list text -> text) :
  forall s k, sub_runs p f k s = sub_runs p f 0 (skipn k s).
Proof.
  induction s as [ | c s IH ]; intros k.
  - now rewrite skipn_nil.
  - destruct k as [ | k ]; [ reflexivity | ]. simpl. apply IH.
Qed.

Lemma all_rewritten_cons (p : list atom) (f : list text -> text) (c : ascii)
    (s out : text) :
  match_here p (c :: s) = None ->
  all_rewritten p f s out -> all_rewritten p f (c :: s) (c :: out).
Proof.
  intros Hhead H. destruct H as [ s Hnone | s b a out runs Heq Hruns Hleft H ].
  - constructor. now apply no_occurrence_cons.
  - change (c :: b ++ f runs ++ out) with ((c :: b) ++ f runs ++ out).
    apply rewritten_next with (after := a); auto.
    + simpl. now rewrite <- Heq.
    + intros b' m' a' Heq' Hacc'. destruct b' as [ | c' b' ].
      * simpl in Heq'. pose proof (match_here_complete p m' Hacc' a') as Hs.
        rewrite <- Heq', Hhead in Hs. now destruct Hs.
      * simpl in Heq'. injection Heq' as <- Heq'. simpl.
        specialize (Hleft _ _ _ Heq' Hacc'). lia.
Qed.

(** The scan of [re.sub] rewrites the matches from left to right,
    provided the pattern has no empty word. *)
Lemma sub_runs_spec (p : list atom) (f : list text -> text) :
  (forall m, accepts p m -> m <> []) ->
  forall s, all_rewritten p f s (sub_runs p f 0 s).
Proof.
  intros Hne s.
  remember (length s) as len eqn:Hlen.
  revert s Hlen. induction len as [ len IH ] using lt_wf_ind. intros s Hlen.
  destruct s as [ | c s ].
  - simpl. constructor. intros b m a Heq Hacc.
    symmetry in Heq. apply app_eq_nil in Heq as [ _ Heq ].
    apply app_eq_nil in Heq as [ -> _ ]. now apply (Hne []).
  - cbn [sub_runs].
    destruct (match_runs p (c :: s)) as [ [ runs rest ] | ] eqn:E.
    + destruct (match_runs_sound _ _ _ _ E) as [ Hs Hfit ].
      pose proof (Hne _ (fits_accepts _ _ Hfit)) as Hm_ne.
      assert (Hk : (length (c :: s) - length rest)%nat
                   = S (pred (length (concat runs)))).
      { rewrite Hs, length_app. destruct (concat runs); [ congruence | simpl; lia ]. }
      rewrite Hk, sub_runs_skip.
      assert (Hrest : skipn (pred (length (concat runs))) s = rest).
      { destruct (concat runs) as [ | c' m ] eqn:Hm; [ congruence | ].
        simpl in Hs. injection Hs as _ ->. simpl.
        now rewrite skipn_app, skipn_all, Nat.sub_diag. }
      rewrite Hrest.
      assert (Hlt : (length rest < len)%nat).
      { rewrite Hlen, Hs, length_app.
        destruct (concat runs); [ congruence | simpl; lia ]. }
      specialize (IH (length rest) Hlt rest eq_refl).
      apply rewritten_next with (before := []) (after := rest); auto.
      * now rewrite <- Hs.
      * intros b' m' a' _ _. simpl. lia.
    + assert (Hhere : match_here p (c :: s) = None)
        by (now rewrite <- match_runs_here, E).
      assert (Hlt : (length s < len)%nat) by (rewrite Hlen; simpl; lia).
      specialize (IH (length s) Hlt s eq_refl).
      now apply all_rewritten_cons.
Qed.

Lemma fits_lit (c : ascii) (run : text) : fits (lit c) run -> run = [c].
Proof.
  intros (Hc & Hmin & Hmax). simpl in *.
  destruct run as [ | x [ | y run ] ]; simpl in *; try lia.
  apply andb_true_iff in Hc as [ Hx _ ]. apply Ascii.eqb_eq in Hx. now subst.
Qed.

(** The runs of a trailing comma. *)
Lemma P_TRAILING_COMMA_runs (runs : list text) :
  Forall2 fits P_TRAILING_COMMA runs ->
  exists ws c, runs = [ [","%char]; ws; [c] ]
               /\ forallb is_space ws = true /\ is_closer c = true.
Proof.
  unfold P_TRAILING_COMMA. intros H.
  inversion H as [ | a1 r1 p1 l1 F1 H1 ]; subst.
  inversion H1 as [ | a2 r2 p2 l2 F2 H2 ]; subst.
  inversion H2 as [ | a3 r3 p3 l3 F3 H3 ]; subst.
  inversion H3; subst.
  apply fits_lit in F1 as ->.
  destruct F2 as (Hws & _). destruct F3 as (Hc & Hmin & Hmax). simpl in *.
  destruct r3 as [ | c [ | c' r3 ] ]; simpl in *; try lia.
  apply andb_true_iff in Hc as [ Hc _ ]. eauto.
Qed.

(** The runs of a wallpaper entry. *)
Lemma P_WALLPAPER_runs (runs : list text) :
  Forall2 fits P_WALLPAPER runs ->
  exists ws1 ws2 value,
    concat runs = wallpaper_key ws1 ws2 ++ value ++ [dq]
    /\ escape_wallpaper runs
       = wallpaper_key ws1 ws2 ++ double_backslashes value ++ [dq]
    /\ forallb is_space ws1 = true /\ forallb is_space ws2 = true
    /\ value <> [] /\ forallb not_quote value = true.
Proof.
  unfold P_WALLPAPER. simpl. intros H.
  repeat match goal with
         | Hf : Forall2 fits (_ :: _) _ |- _ =>
             let F := fresh "F" in
             inversion Hf as [ | ? ? ? ? F ? ]; subst; clear Hf
         | Hf : Forall2 fits [] _ |- _ => inversion Hf; subst; clear Hf
         | Hl : fits (lit _) _ |- _ => apply fits_lit in Hl; subst
         end.
  repeat match goal with
         | Hs : fits (star _) _ |- _ => destruct Hs as (Hs & _ & _)
         | Hp : fits (plus _) _ |- _ => destruct Hp as (Hp & ? & _)
         end.
  simpl in *.
  match goal with
  | |- context [ ?w1 ++ ":"%char :: ?w2 ++ dq :: ?v ++ [dq] ] =>
      exists w1, w2, v
  end.
  unfold escape_wallpaper. simpl. rewrite <- !app_assoc. simpl.
  rewrite <- !app_assoc. simpl.
  repeat split; auto.
  match goal with
  | Hlen : (1 <= length ?v)%nat |- ?v <> [] =>
      intros ->; simpl in Hlen; lia
  end.
Qed.

Lemma commas_of_rewritten (s out : text) :
  all_rewritten P_TRAILING_COMMA group_closer s out -> commas_stripped s out.
Proof.
  induction 1 as [ s Hnone | s before after out runs Heq Hruns Hleft _ IH ].
  - now constructor.
  - destruct (match_runs_sound _ _ _ _ Hruns) as [ _ Hfit ].
    destruct (P_TRAILING_COMMA_runs _ Hfit) as (ws & c & -> & Hws & Hc).
    unfold group_closer. simpl.
    apply commas_next with (ws := ws) (after := after); auto.
    rewrite Heq. f_equal. simpl. rewrite <- !app_assoc. reflexivity.
Qed.

Lemma wallpaper_of_rewritten (s out : text) :
  all_rewritten P_WALLPAPER escape_wallpaper s out -> wallpaper_escaped s out.
Proof.
  induction 1 as [ s Hnone | s before after out runs Heq Hruns Hleft _ IH ].
  - now constructor.
  - destruct (match_runs_sound _ _ _ _ Hruns) as [ _ Hfit ].
    destruct (P_WALLPAPER_runs _ Hfit)
      as (ws1 & ws2 & value & Hm & -> & Hws1 & Hws2 & Hne & Hv).
    rewrite Hm in Heq.
    replace ((wallpaper_key ws1 ws2 ++ double_backslashes value ++ [dq]) ++ out)
      with (wallpaper_key ws1 ws2 ++ double_backslashes value ++ dq :: out)
      by (now rewrite <- !app_assoc).
    apply wallpaper_next with (after := after); auto.
    rewrite Heq, <- !app_assoc. reflexivity.
Qed.

Lemma P_TRAILING_COMMA_not_empty (m : text) :
  accepts P_TRAILING_COMMA m -> m <> [].
Proof.
  unfold P_TRAILING_COMMA. intros H.
  apply accepts_lit in H as (m' & -> & _). discriminate.
Qed.

Lemma P_WALLPAPER_not_empty (m : text) : accepts P_WALLPAPER m -> m <> [].
Proof.
  unfold P_WALLPAPER. simpl. intros H.
  apply accepts_lit in H as (m' & -> & _). discriminate.
Qed.

(** X15. The text [_load_palette_json] retries with. The first
    substitution goes through the text from left to right and, wherever a
    comma is followed by white space or nothing and then a closing brace
    or bracket, keeps the bracket alone; the second goes through the
    result and, in every entry of the key wallpaper whose value is not
    empty, doubles the backslashes of the value. Everything else is kept
    as it is. *)
Theorem sanitized_spec (raw : text) :
  exists stripped,
    commas_stripped raw stripped /\ wallpaper_escaped stripped (sanitized raw).
Proof.
  exists (sub_runs P_TRAILING_COMMA group_closer 0 raw). split.
  - apply commas_of_rewritten, sub_runs_spec, P_TRAILING_COMMA_not_empty.
  - apply wallpaper_of_rewritten, sub_runs_spec, P_WALLPAPER_not_empty.
Qed.

Lemma dropped_refl (s : text) : dropped s s.
Proof. induction s; now constructor. Qed.

Lemma dropped_app (a b c d : text) :
  dropped a b -> dropped c d -> dropped (a ++ c) (b ++ d).
Proof. induction 1; simpl; intros; auto; now constructor; auto. Qed.

Lemma dropped_spaces (ws : text) : forallb is_space ws = true -> dropped ws [].
Proof.
  induction ws as [ | c ws IH ]; simpl; intros H; [ constructor | ].
  apply andb_true_iff in H as [ Hc H ]. apply dropped_drop; auto.
  now rewrite Hc, orb_true_r.
Qed.

Lemma commas_stripped_dropped (s out : text) :
  commas_stripped s out -> dropped s out.
Proof.
  induction 1 as [ s _ | s before ws after out c -> Hws Hc _ _ IH ].
  - apply dropped_refl.
  - apply dropped_app; [ apply dropped_refl | ].
    apply dropped_drop; [ reflexivity | ].
    change (c :: out) with ([] ++ c :: out).
    apply dropped_app; [ now apply dropped_spaces | ].
    now constructor.
Qed.

Lemma doubled_refl (s : text) : doubled s s.
Proof. induction s; now constructor. Qed.

Lemma doubled_app (a b c d : text) :
  doubled a b -> doubled c d -> doubled (a ++ c) (b ++ d).
Proof. induction 1; simpl; intros; auto; now constructor; auto. Qed.

Lemma doubled_backslashes (s : text) : doubled s (double_backslashes s).
Proof.
  induction s as [ | c s IH ]; [ constructor | ].
  unfold double_backslashes. cbn [flat_map].
  destruct (Ascii.eqb_spec c "\") as [ -> | ]; cbn [app]; now constructor.
Qed.

Lemma wallpaper_escaped_doubled (s out : text) :
  wallpaper_escaped s out -> doubled s out.
Proof.
  induction 1 as [ s _ | s before ws1 ws2 value after out -> _ _ _ _ _ _ IH ].
  - apply doubled_refl.
  - apply doubled_app; [ apply doubled_refl | ].
    apply doubled_app; [ apply doubled_refl | ].
    apply doubled_app; [ apply doubled_backslashes | ].
    now constructor.
Qed.

(** X16. The sanitation takes nothing out of the text but commas and
    white space, and puts nothing in but a second backslash next to one
    that is there: the first substitution only drops such characters, the
    second only doubles backslashes. *)
Theorem sanitized_edits (raw : text) :
  exists stripped, dropped raw stripped /\ doubled stripped (sanitized raw).
Proof.
  exists (sub_runs P_TRAILING_COMMA group_closer 0 raw). split.
  - apply commas_stripped_dropped, commas_of_rewritten, sub_runs_spec,
      P_TRAILING_COMMA_not_empty.
  - apply wallpaper_escaped_doubled, wallpaper_of_rewritten, sub_runs_spec,
      P_WALLPAPER_not_empty.
Qed.

Lemma all_rewritten_none (p : list atom) (f : list text -> text) (s out : text) :
  no_occurrence p s -> all_rewritten p f s out -> out = s.
Proof.
  intros Hnone H. destruct H as [ s _ | s before after out runs Heq Hruns _ _ ];
    [ reflexivity | ].
  destruct (match_runs_sound _ _ _ _ Hruns) as [ _ Hfit ].
  destruct (Hnone _ _ _ Heq (fits_accepts _ _ Hfit)).
Qed.

Lemma double_backslashes_none (s : text) :
  has_backslash s = false -> double_backslashes s = s.
Proof.
  induction s as [ | c s IH ]; [ reflexivity | ].
  unfold has_backslash, double_backslashes. cbn [existsb flat_map]. intros H.
  apply orb_false_iff in H as [ Hc H ]. rewrite Ascii.eqb_sym, Hc.
  cbn [app]. f_equal. now apply IH.
Qed.

Lemma wallpaper_escaped_none (s out : text) :
  wallpaper_escaped s out -> has_backslash s = false -> out = s.
Proof.
  induction 1 as [ s _ | s before ws1 ws2 value after out -> _ _ _ _ _ _ IH ];
    [ reflexivity | ].
  intros Hb. rewrite !has_backslash_app in Hb.
  apply orb_false_iff in Hb as [ _ Hb ]. apply orb_false_iff in Hb as [ _ Hb ].
  apply orb_false_iff in Hb as [ Hv Hb ].
  change (has_backslash (dq :: after)) with (has_backslash after) in Hb.
  now rewrite (double_backslashes_none _ Hv), (IH Hb).
Qed.

Lemma sanitized_same (raw : text) :
  no_occurrence P_TRAILING_COMMA raw -> has_backslash raw = false ->
  sanitized raw = raw.
Proof.
  intros Hnone Hb. unfold sanitized.
  rewrite (all_rewritten_none _ _ _ _ Hnone
             (sub_runs_spec _ group_closer P_TRAILING_COMMA_not_empty raw)).
  apply wallpaper_escaped_none; [ | exact Hb ].
  apply wallpaper_of_rewritten, sub_runs_spec, P_WALLPAPER_not_empty.
Qed.

(** X17. The sanitation has nothing to work on in a text that holds no
    backslash and no comma followed, after white space or at once, by a
    closing brace or bracket: it returns such a text as it is. *)
Theorem sanitized_unchanged (raw : text) :
  no_occurrence P_TRAILING_COMMA raw -> has_backslash raw = false ->
  sanitized raw = raw.
Proof. apply sanitized_same. Qed.

Lemma sanitized_unchanged_witness :
  sanitized (str "{'colors': {'color0': '#000000'}}")
  = str "{'colors': {'color0': '#000000'}}".
Proof.
  apply (sanitized_unchanged (str "{'colors': {'color0': '#000000'}}")).
  - apply search_None. vm_compute. reflexivity.
  - reflexivity.
Defined.

(** X18. The second attempt of [_load_palette_json] cannot do better than
    the first on such a text: when [json.loads] rejects a file without a
    backslash and without a comma before a closing bracket, the function
    raises its [PaletteError], whatever [json.loads] is. *)
Theorem load_palette_json_retry (json : Type) (loads : text -> option json)
    (is_dict : json -> bool) (colors_path : string) (raw : text) :
  no_occurrence P_TRAILING_COMMA raw -> has_backslash raw = false ->
  loads raw = None ->
  _load_palette_json json loads is_dict colors_path (Some raw)
  = Raise (PaletteError "pywal produced an invalid colors.json file.").
Proof.
  intros Hnone Hb Hloads. unfold _load_palette_json.
  now rewrite Hloads, (sanitized_same raw Hnone Hb), Hloads.
Qed.

Lemma load_palette_json_retry_witness :
  _load_palette_json unit (fun _ => None) (fun _ => true) "colors.json"
    (Some (str "{'colors': "))
  = Raise (PaletteError "pywal produced an invalid colors.json file.").
Proof.
  apply (load_palette_json_retry unit (fun _ => None) (fun _ => true)
           "colors.json" (str "{'colors': ")).
  - apply search_None. vm_compute. reflexivity.
  - reflexivity.
  - reflexivity.
Defined.

(** *** Instances *)

(** A palette file as [wal] may leave it on Windows: the path of the
    wallpaper with single backslashes, and a comma before a closing
    brace. *)
Example sanitized_windows_path :
  sanitized (dq :: str "wallpaper" ++ dq :: str ": " ++ dq
             :: str "C:\Users\me\w.png" ++ dq :: str ", }")
  = dq :: str "wallpaper" ++ dq :: str ": " ++ dq
    :: str "C:\\Users\\me\\w.png" ++ dq :: str "}".
Proof. vm_compute. reflexivity. Qed.

(** Of two commas before a bracket the first stays: the substitution
    does not look at its own result. *)
Example sanitized_two_commas :
  sanitized (str "[1,,]") = str "[1,]".
Proof. vm_compute. reflexivity. Qed.

(** ** The range of the luminance *)

(** Every sum of a red, a green and a blue term, by computation. *)
Lemma luminance_table :
  forallb (fun x =>
             forallb (fun y =>
                        forallb (fun z => luminance_ok (x + y + z)%float) blue_terms)
               green_terms)
    red_terms = true.
Proof. vm_compute. reflexivity. Qed.

Lemma channel_enumerated (z : Z) : 0 <= z <= 255 -> In z channels.
Proof.
  intros Hz. unfold channels. apply in_map_iff. exists (Z.to_nat z).
  split; [ lia | ]. apply in_seq. lia.
Qed.

Lemma luminance_of_bytes (r g b : Z) :
  0 <= r <= 255 -> 0 <= g <= 255 -> 0 <= b <= 255 ->
  luminance_ok (relative_luminance (r, g, b)) = true.
Proof.
  intros Hr Hg Hb. pose proof luminance_table as H.
  rewrite forallb_forall in H.
  specialize (H (weighted 0.2126 r) (in_map _ _ _ (channel_enumerated r Hr))).
  rewrite forallb_forall in H.
  specialize (H (weighted 0.7152 g) (in_map _ _ _ (channel_enumerated g Hg))).
  rewrite forallb_forall in H.
  exact (H (weighted 0.0722 b) (in_map _ _ _ (channel_enumerated b Hb))).
Qed.

(** X19. The luminance of a triple of bytes lies between 0 and 1, as
    the docstring of [relative_luminance] has it, in the floating-point
    arithmetic of the script: rounding never takes the sum above 1 or
    below 0. *)
Theorem relative_luminance_range (r g b : Z) :
  0 <= r <= 255 -> 0 <= g <= 255 -> 0 <= b <= 255 ->
  (0 <=? relative_luminance (r, g, b))%float = true
  /\ (relative_luminance (r, g, b) <=? 1)%float = true.
Proof.
  intros Hr Hg Hb.
  pose proof (luminance_of_bytes r g b Hr Hg Hb) as H. unfold luminance_ok in H.
  apply andb_true_iff in H as [ H _ ]. now apply andb_true_iff in H.
Qed.

Lemma relative_luminance_range_witness :
  (0 <=? relative_luminance (255, 255, 255)%Z)%float = true
  /\ (relative_luminance (255, 255, 255)%Z <=? 1)%float = true.
Proof. apply (relative_luminance_range 255 255 255); lia. Defined.

(** ** The fallback as a minimum *)

Section FloatTotal.

Local Open Scope float_scope.

(** Two values that are numbers compare, and compare the other way
    round when exchanged. *)
Lemma SFcompare_total x y :
  SFcompare x x = Some Eq -> SFcompare y y = Some Eq ->
  exists c, SFcompare x y = Some c /\ SFcompare y x = Some (CompOpp c).
Proof.
  destruct x as [ [] | [] | | [] m1 e1 ], y as [ [] | [] | | [] m2 e2 ];
    simpl; intros Hx Hy; try discriminate;
    try (eexists; split; reflexivity).
  all: clear Hx Hy; rewrite (Z.compare_antisym e1 e2);
    change (PosDef.Pos.compare_cont Eq m1 m2) with (Pos.compare m1 m2);
    change (PosDef.Pos.compare_cont Eq m2 m1) with (Pos.compare m2 m1);
    rewrite (Pos.compare_antisym m1 m2);
    destruct (Z.compare e1 e2), (Pos.compare m1 m2); simpl;
    eexists; split; reflexivity.
Qed.

Lemma eqb_number (x : float) : (x =? x) = true -> SFcompare (Prim2SF x) (Prim2SF x) = Some Eq.
Proof.
  rewrite FloatAxioms.eqb_spec. unfold SFeqb.
  destruct (SFcompare (Prim2SF x) (Prim2SF x)) as [ [] | ]; congruence.
Qed.

Lemma not_ltb_leb (x y : float) :
  (x =? x) = true -> (y =? y) = true -> (x <? y) = false -> (y <=? x) = true.
Proof.
  intros Hx Hy. apply eqb_number in Hx, Hy.
  destruct (SFcompare_total _ _ Hx Hy) as (c & Hxy & Hyx).
  rewrite FloatAxioms.ltb_spec, FloatAxioms.leb_spec. unfold SFltb, SFleb.
  rewrite Hxy, Hyx. destruct c; simpl; congruence.
Qed.

Lemma not_leb_ltb (x y : float) :
  (x =? x) = true -> (y =? y) = true -> (x <=? y) = false -> (y <? x) = true.
Proof.
  intros Hx Hy. apply eqb_number in Hx, Hy.
  destruct (SFcompare_total _ _ Hx Hy) as (c & Hxy & Hyx).
  rewrite FloatAxioms.ltb_spec, FloatAxioms.leb_spec. unfold SFltb, SFleb.
  rewrite Hxy, Hyx. destruct c; simpl; congruence.
Qed.

End FloatTotal.

Lemma rank_lum (background_lum : float) (h : text) (c : candidate) :
  rank background_lum h = Ok c ->
  exists rgb, hex_to_rgb h = Ok rgb /\ cand_lum c = relative_luminance rgb.
Proof.
  unfold rank. destruct (hex_to_rgb h) as [ rgb | ]; simpl; [ | discriminate ].
  intros [= <-]. eauto.
Qed.

Lemma map_result_elem (background_lum : float) (hs : list text) :
  forall ranked c,
    map_result (rank background_lum) hs = Ok ranked -> c ∈ ranked ->
    exists h, h ∈ hs /\ rank background_lum h = Ok c.
Proof.
  induction hs as [ | h hs IH ]; simpl; intros ranked c.
  - intros [= <-] Hc. inversion Hc.
  - destruct (rank background_lum h) as [ c0 | ] eqn:Hc0; simpl; [ | discriminate ].
    destruct (map_result (rank background_lum) hs) as [ cs | ]; simpl;
      [ | discriminate ].
    intros [= <-] Hc. apply elem_of_cons in Hc as [ -> | Hc ].
    + exists h. split; [ left | exact Hc0 ].
    + destruct (IH cs c eq_refl Hc) as (h' & Hh' & Hr). exists h'. split;
        [ now right | exact Hr ].
Qed.

(** On a well-formed palette the distance of every candidate to the
    target luminance is a number. *)
Lemma closeness_number colors special (background_lum : float)
    (ranked : list candidate) (c : candidate) :
  hex_values colors -> hex_values special ->
  map_result (rank background_lum) (candidate_colors colors special) = Ok ranked ->
  c ∈ ranked ->
  (closeness c =? closeness c)%float = true.
Proof.
  intros Hc Hs Hranked Hin.
  destruct (map_result_elem _ _ _ _ Hranked Hin) as (h & Hh & Hrank).
  destruct (rank_lum _ _ _ Hrank) as (rgb & Hrgb & Hlum).
  assert (Hhex : is_hex_color h = true).
  { apply candidate_colors_elem in Hh as [ Hne [ (key & _ & Hv) | Hv ] ].
    - destruct (Hc key h Hv); congruence.
    - destruct (Hs _ h Hv); congruence. }
  destruct (hex_color_rgb h Hhex) as (r & g & b & Hrgb' & Br & Bg & Bb).
  rewrite Hrgb' in Hrgb. injection Hrgb as <-.
  pose proof (luminance_of_bytes r g b Br Bg Bb) as Hok.
  unfold luminance_ok in Hok. apply andb_true_iff in Hok as [ _ Hok ].
  unfold closeness. now rewrite Hlum.
Qed.

(** X20. On a palette whose values are all empty or ['#'] and six
    hexadecimal digits the fallback returns a true minimum: when no
    override returns and no candidate passes the primary test, the
    colour [choose_accent] returns has a luminance at least as close to
    the target as that of every candidate, and strictly closer than that
    of every candidate enumerated before it. *)
Theorem choose_accent_fallback_minimum env_slot colors special background_rgb
    (ranked : list candidate) :
  hex_values colors -> hex_values special ->
  env_candidate env_slot colors = None ->
  map_result (rank (relative_luminance background_rgb))
    (candidate_colors colors special) = Ok ranked ->
  ranked <> [] ->
  forallb (fun x => negb (primary x)) ranked = true ->
  exists before best after,
    ranked = before ++ best :: after
    /\ choose_accent env_slot colors special background_rgb = Ok (cand_hex best)
    /\ (forall c, c ∈ ranked -> (closeness best <=? closeness c)%float = true)
    /\ (forall c, c ∈ before -> (closeness best <? closeness c)%float = true).
Proof.
  intros Hc Hs Henv Hranked Hne Hnone.
  rewrite (choose_accent_ranked _ _ _ _ _ Henv Hranked).
  rewrite (find_nowhere primary ranked Hnone).
  destruct ranked as [ | first others ]; [ congruence | ].
  destruct (min_from_spec closeness first others) as (b & a & Heq & H1 & H2).
  exists b, (min_from closeness first others), a.
  assert (Hbest : min_from closeness first others ∈ first :: others).
  { rewrite Heq. apply elem_of_app. right. left. }
  pose proof (closeness_number _ _ _ _ _ Hc Hs Hranked Hbest) as Nbest.
  split; [ exact Heq | ]. split; [ reflexivity | ]. split.
  - intros c Hin. apply not_ltb_leb; auto.
    exact (closeness_number _ _ _ _ _ Hc Hs Hranked Hin).
  - intros c Hin. apply not_leb_ltb; auto.
    apply (closeness_number _ _ _ _ _ Hc Hs Hranked).
    rewrite Heq. apply elem_of_app. now left.
Qed.

Lemma choose_accent_fallback_minimum_witness :
  exists before best after,
    dark_ranked = before ++ best :: after
    /\ choose_accent None dark_colors ∅ (0, 0, 0) = Ok (cand_hex best)
    /\ (forall c, c ∈ dark_ranked -> (closeness best <=? closeness c)%float = true)
    /\ (forall c, c ∈ before -> (closeness best <? closeness c)%float = true).
Proof.
  apply (choose_accent_fallback_minimum None dark_colors ∅ (0, 0, 0) dark_ranked).
  - intros k v. unfold dark_colors. intros H.
    apply lookup_insert_Some in H as [ [ _ <- ] | [ _ H ] ]; [ now right | ].
    apply lookup_insert_Some in H as [ [ _ <- ] | [ _ H ] ]; [ now right | ].
    apply lookup_insert_Some in H as [ [ _ <- ] | [ _ H ] ]; [ now right | ].
    rewrite lookup_empty in H. discriminate H.
  - intros k v H. rewrite lookup_empty in H. discriminate H.
  - reflexivity.
  - vm_compute; reflexivity.
  - discriminate.
  - vm_compute; reflexivity.
Defined.
